(** * The minesweeper board engine of games/minesweeper.c

    A shallow embedding of the C module.  The global [MinesweeperGame]
    structure becomes a record that every function takes and returns.  The
    three grids [mines], [state] and [numbers], arrays of [MAX_HEIGHT] rows
    of [MAX_WIDTH] cells, become total functions of a row and a column: the
    code only indexes them inside the configured board, which fits the
    arrays ([session_dims_fit]).  C [int]s are modelled as [Z]: every
    quantity the properties talk about is bounded by the board area (at most
    30 * 16 cells), so no arithmetic of the engine wraps around.

    The two unbounded constructs of the module carry an explicit bound: the
    rejection loop of [generate_mines] a number of iterations (the loop need
    not end: it depends on what [rand()] returns), and the recursion between
    [reveal_cell] and [reveal_adjacent_cells] a nesting depth, for which the
    number of cells is proved to be enough.

    The environment is explicit: [rand_seq] stands for the generator of the C
    library, and [now] for the value of [time(NULL)].  A call of
    [reveal_cell] reads the clock up to three times (to seed the generator,
    to set [start_time], and in [game_over_sequence]); the model gives the
    whole call one reading. *)

From Stdlib Require Import ZArith List Bool Lia.
Import ListNotations.
Open Scope Z_scope.

(** ** Constants and enumerations *)

Definition MAX_WIDTH : Z := 30.
Definition MAX_HEIGHT : Z := 16.
Definition MIN_WIDTH : Z := 5.
Definition MIN_HEIGHT : Z := 5.

Inductive Difficulty : Type :=
| DIFFICULTY_BEGINNER
| DIFFICULTY_INTERMEDIATE
| DIFFICULTY_EXPERT
| DIFFICULTY_CUSTOM.

Inductive CellState : Type :=
| CELL_HIDDEN
| CELL_REVEALED
| CELL_FLAGGED.

Definition CellState_eqb (a b : CellState) : bool :=
  match a, b with
  | CELL_HIDDEN, CELL_HIDDEN => true
  | CELL_REVEALED, CELL_REVEALED => true
  | CELL_FLAGGED, CELL_FLAGGED => true
  | _, _ => false
  end.



(** ** Grids

    [bool mines[MAX_HEIGHT][MAX_WIDTH]] and its two siblings are read and
    written at [row][col]; a grid is the function from the two indices to the
    stored value, and an assignment [a[r][c] = v] is a point update. *)

Definition grid (A : Type) : Type := Z -> Z -> A.

Definition grid_set {A : Type} (a : grid A) (r c : Z) (v : A) : grid A :=
  fun i j => if (i =? r) && (j =? c) then v else a i j.



(** ** The game structure *)

Record MinesweeperGame : Type := mkGame {
  width : Z;
  height : Z;
  mine_count : Z;
  revealed_count : Z;
  flag_count : Z;
  flags_placed : Z;
  game_over : bool;
  victory : bool;
  start_time : Z;
  games_played : Z;
  games_won : Z;
  best_time_beginner : Z;
  best_time_intermediate : Z;
  best_time_expert : Z;
  mines : grid bool;
  state : grid CellState;
  numbers : grid Z;
  first_click : bool
}.

(** Field assignments [game.f = v]. *)

Definition set_width (v : Z) (g : MinesweeperGame) : MinesweeperGame :=
  mkGame v (height g) (mine_count g) (revealed_count g) (flag_count g)
    (flags_placed g) (game_over g) (victory g) (start_time g) (games_played g)
    (games_won g) (best_time_beginner g) (best_time_intermediate g)
    (best_time_expert g) (mines g) (state g) (numbers g) (first_click g).

Definition set_height (v : Z) (g : MinesweeperGame) : MinesweeperGame :=
  mkGame (width g) v (mine_count g) (revealed_count g) (flag_count g)
    (flags_placed g) (game_over g) (victory g) (start_time g) (games_played g)
    (games_won g) (best_time_beginner g) (best_time_intermediate g)
    (best_time_expert g) (mines g) (state g) (numbers g) (first_click g).

Definition set_mine_count (v : Z) (g : MinesweeperGame) : MinesweeperGame :=
  mkGame (width g) (height g) v (revealed_count g) (flag_count g)
    (flags_placed g) (game_over g) (victory g) (start_time g) (games_played g)
    (games_won g) (best_time_beginner g) (best_time_intermediate g)
    (best_time_expert g) (mines g) (state g) (numbers g) (first_click g).

Definition set_revealed_count (v : Z) (g : MinesweeperGame) : MinesweeperGame :=
  mkGame (width g) (height g) (mine_count g) v (flag_count g)
    (flags_placed g) (game_over g) (victory g) (start_time g) (games_played g)
    (games_won g) (best_time_beginner g) (best_time_intermediate g)
    (best_time_expert g) (mines g) (state g) (numbers g) (first_click g).

Definition set_flag_count (v : Z) (g : MinesweeperGame) : MinesweeperGame :=
  mkGame (width g) (height g) (mine_count g) (revealed_count g) v
    (flags_placed g) (game_over g) (victory g) (start_time g) (games_played g)
    (games_won g) (best_time_beginner g) (best_time_intermediate g)
    (best_time_expert g) (mines g) (state g) (numbers g) (first_click g).

Definition set_flags_placed (v : Z) (g : MinesweeperGame) : MinesweeperGame :=
  mkGame (width g) (height g) (mine_count g) (revealed_count g) (flag_count g)
    v (game_over g) (victory g) (start_time g) (games_played g)
    (games_won g) (best_time_beginner g) (best_time_intermediate g)
    (best_time_expert g) (mines g) (state g) (numbers g) (first_click g).

Definition set_game_over (v : bool) (g : MinesweeperGame) : MinesweeperGame :=
  mkGame (width g) (height g) (mine_count g) (revealed_count g) (flag_count g)
    (flags_placed g) v (victory g) (start_time g) (games_played g)
    (games_won g) (best_time_beginner g) (best_time_intermediate g)
    (best_time_expert g) (mines g) (state g) (numbers g) (first_click g).

Definition set_victory (v : bool) (g : MinesweeperGame) : MinesweeperGame :=
  mkGame (width g) (height g) (mine_count g) (revealed_count g) (flag_count g)
    (flags_placed g) (game_over g) v (start_time g) (games_played g)
    (games_won g) (best_time_beginner g) (best_time_intermediate g)
    (best_time_expert g) (mines g) (state g) (numbers g) (first_click g).

Definition set_start_time (v : Z) (g : MinesweeperGame) : MinesweeperGame :=
  mkGame (width g) (height g) (mine_count g) (revealed_count g) (flag_count g)
    (flags_placed g) (game_over g) (victory g) v (games_played g)
    (games_won g) (best_time_beginner g) (best_time_intermediate g)
    (best_time_expert g) (mines g) (state g) (numbers g) (first_click g).

Definition set_games_played (v : Z) (g : MinesweeperGame) : MinesweeperGame :=
  mkGame (width g) (height g) (mine_count g) (revealed_count g) (flag_count g)
    (flags_placed g) (game_over g) (victory g) (start_time g) v
    (games_won g) (best_time_beginner g) (best_time_intermediate g)
    (best_time_expert g) (mines g) (state g) (numbers g) (first_click g).

Definition set_games_won (v : Z) (g : MinesweeperGame) : MinesweeperGame :=
  mkGame (width g) (height g) (mine_count g) (revealed_count g) (flag_count g)
    (flags_placed g) (game_over g) (victory g) (start_time g) (games_played g)
    v (best_time_beginner g) (best_time_intermediate g)
    (best_time_expert g) (mines g) (state g) (numbers g) (first_click g).

Definition set_best_time_beginner (v : Z) (g : MinesweeperGame) : MinesweeperGame :=
  mkGame (width g) (height g) (mine_count g) (revealed_count g) (flag_count g)
    (flags_placed g) (game_over g) (victory g) (start_time g) (games_played g)
    (games_won g) v (best_time_intermediate g)
    (best_time_expert g) (mines g) (state g) (numbers g) (first_click g).

Definition set_best_time_intermediate (v : Z) (g : MinesweeperGame) : MinesweeperGame :=
  mkGame (width g) (height g) (mine_count g) (revealed_count g) (flag_count g)
    (flags_placed g) (game_over g) (victory g) (start_time g) (games_played g)
    (games_won g) (best_time_beginner g) v
    (best_time_expert g) (mines g) (state g) (numbers g) (first_click g).

Definition set_best_time_expert (v : Z) (g : MinesweeperGame) : MinesweeperGame :=
  mkGame (width g) (height g) (mine_count g) (revealed_count g) (flag_count g)
    (flags_placed g) (game_over g) (victory g) (start_time g) (games_played g)
    (games_won g) (best_time_beginner g) (best_time_intermediate g)
    v (mines g) (state g) (numbers g) (first_click g).

Definition set_mines (v : grid bool) (g : MinesweeperGame) : MinesweeperGame :=
  mkGame (width g) (height g) (mine_count g) (revealed_count g) (flag_count g)
    (flags_placed g) (game_over g) (victory g) (start_time g) (games_played g)
    (games_won g) (best_time_beginner g) (best_time_intermediate g)
    (best_time_expert g) v (state g) (numbers g) (first_click g).

Definition set_state (v : grid CellState) (g : MinesweeperGame) : MinesweeperGame :=
  mkGame (width g) (height g) (mine_count g) (revealed_count g) (flag_count g)
    (flags_placed g) (game_over g) (victory g) (start_time g) (games_played g)
    (games_won g) (best_time_beginner g) (best_time_intermediate g)
    (best_time_expert g) (mines g) v (numbers g) (first_click g).

Definition set_numbers (v : grid Z) (g : MinesweeperGame) : MinesweeperGame :=
  mkGame (width g) (height g) (mine_count g) (revealed_count g) (flag_count g)
    (flags_placed g) (game_over g) (victory g) (start_time g) (games_played g)
    (games_won g) (best_time_beginner g) (best_time_intermediate g)
    (best_time_expert g) (mines g) (state g) v (first_click g).

Definition set_first_click (v : bool) (g : MinesweeperGame) : MinesweeperGame :=
  mkGame (width g) (height g) (mine_count g) (revealed_count g) (flag_count g)
    (flags_placed g) (game_over g) (victory g) (start_time g) (games_played g)
    (games_won g) (best_time_beginner g) (best_time_intermediate g)
    (best_time_expert g) (mines g) (state g) (numbers g) v.

Ltac gsimpl := simpl width in *; simpl height in *; simpl mine_count in *;
  simpl revealed_count in *; simpl flags_placed in *; simpl game_over in *;
  simpl victory in *; simpl mines in *; simpl state in *; simpl numbers in *;
  simpl first_click in *.

(** ** Iterating over the board

    [for (i = 0; i < game.height; i++) for (j = 0; j < game.width; j++)]
    visits the cells in row-major order; [cells] is that sequence. *)

Definition range (n : Z) : list Z := map Z.of_nat (seq 0 (Z.to_nat n)).

Definition cells (g : MinesweeperGame) : list (Z * Z) :=
  list_prod (range (height g)) (range (width g)).

Definition for_each_cell (body : Z -> Z -> MinesweeperGame -> MinesweeperGame)
    (g : MinesweeperGame) : MinesweeperGame :=
  fold_left (fun acc ij => body (fst ij) (snd ij) acc) (cells g) g.

(** The eight neighbour offsets, in the order the double loop over
    [dr], [dc] in -1..1 produces them, the centre skipped by [continue]. *)

Definition neighbour_offsets : list (Z * Z) :=
  flat_map (fun dr =>
    flat_map (fun dc =>
      if (dr =? 0) && (dc =? 0) then [] else [(dr, dc)]) [-1; 0; 1])
    [-1; 0; 1].

(** ** init_minesweeper, setup_difficulty *)

Definition init_minesweeper : MinesweeperGame :=
  mkGame 0 0 0 0 0 0 false false 0 0 0 (-1) (-1) (-1)
    (fun _ _ => false) (fun _ _ => CELL_HIDDEN) (fun _ _ => 0) true.

Definition clear_cell (i j : Z) (g : MinesweeperGame) : MinesweeperGame :=
  set_numbers (grid_set (numbers g) i j 0)
    (set_state (grid_set (state g) i j CELL_HIDDEN)
      (set_mines (grid_set (mines g) i j false) g)).

(** The statements that start a round: [setup_difficulty] ends with them
    and the custom branch of [play_minesweeper] repeats them. *)
Definition reset_round (g : MinesweeperGame) : MinesweeperGame :=
  let g := set_revealed_count 0 g in
  let g := set_flag_count (mine_count g) g in
  let g := set_flags_placed 0 g in
  let g := set_game_over false g in
  let g := set_victory false g in
  let g := set_first_click true g in
  for_each_cell clear_cell g.

Definition setup_difficulty (diff : Difficulty) (g : MinesweeperGame)
    : MinesweeperGame :=
  let g :=
    match diff with
    | DIFFICULTY_BEGINNER => set_mine_count 10 (set_height 9 (set_width 9 g))
    | DIFFICULTY_INTERMEDIATE => set_mine_count 40 (set_height 16 (set_width 16 g))
    | DIFFICULTY_EXPERT => set_mine_count 99 (set_height 16 (set_width 30 g))
    | DIFFICULTY_CUSTOM => g
    end in
  reset_round g.

(** ** is_valid_position, count_adjacent_mines, calculate_numbers *)

Definition is_valid_position (g : MinesweeperGame) (row col : Z) : bool :=
  (row >=? 0) && (row <? height g) && (col >=? 0) && (col <? width g).

Definition count_adjacent_mines (g : MinesweeperGame) (row col : Z) : Z :=
  fold_left (fun count d =>
      let nr := row + fst d in
      let nc := col + snd d in
      if is_valid_position g nr nc && mines g nr nc then count + 1 else count)
    neighbour_offsets 0.

(** The body of the double loop of [calculate_numbers]. *)
Definition numbers_body (i j : Z) (g : MinesweeperGame) : MinesweeperGame :=
  if negb (mines g i j)
  then set_numbers (grid_set (numbers g) i j (count_adjacent_mines g i j)) g
  else g.

Definition calculate_numbers (g : MinesweeperGame) : MinesweeperGame :=
  for_each_cell numbers_body g.

(** ** get_cell_display

    The character shown for a cell, as its code: ['F'] 70, ['.'] 46,
    ['*'] 42, [' '] 32 and the digit ['0' + n]. *)

Definition get_cell_display (g : MinesweeperGame) (row col : Z) : Z :=
  if CellState_eqb (state g row col) CELL_FLAGGED then 70
  else if CellState_eqb (state g row col) CELL_HIDDEN then 46
  else if mines g row col then 42
  else if numbers g row col =? 0 then 32
  else 48 + numbers g row col.

(** ** Counting cells

    [count_cells g p] is the number of cells of the board that satisfy the
    test [p]; [count_mines] is the size of the mine set. *)

Definition count_cells (g : MinesweeperGame) (p : Z -> Z -> bool) : Z :=
  Z.of_nat (length (filter (fun ij => p (fst ij) (snd ij)) (cells g))).

Definition count_mines (g : MinesweeperGame) : Z := count_cells g (mines g).

(** Two games of the same dimensions have the same cells. *)
Definition same_dims (g g' : MinesweeperGame) : Prop :=
  width g' = width g /\ height g' = height g.

(** The scalar fields the properties below talk about. *)
Definition scalars (g : MinesweeperGame)
    : Z * Z * Z * Z * Z * (bool * bool * bool) :=
  (width g, height g, mine_count g, revealed_count g, flags_placed g,
   (game_over g, victory g, first_click g)).

(** ** toggle_flag, check_victory, game_over_sequence *)

Definition toggle_flag (g : MinesweeperGame) (row col : Z) : MinesweeperGame :=
  if negb (is_valid_position g row col)
     || CellState_eqb (state g row col) CELL_REVEALED
  then g
  else if CellState_eqb (state g row col) CELL_FLAGGED
  then set_flags_placed (flags_placed g - 1)
         (set_state (grid_set (state g) row col CELL_HIDDEN) g)
  else if flags_placed g <? mine_count g
  then set_flags_placed (flags_placed g + 1)
         (set_state (grid_set (state g) row col CELL_FLAGGED) g)
  else g.

Definition check_victory (g : MinesweeperGame) : bool :=
  let non_mine_cells := width g * height g - mine_count g in
  revealed_count g =? non_mine_cells.

(** The best-time bookkeeping of a won game; [elapsed] is
    [(int)(time(NULL) - game.start_time)]. *)
Definition update_best_times (elapsed : Z) (g : MinesweeperGame)
    : MinesweeperGame :=
  if (width g =? 9) && (height g =? 9) then
    if (best_time_beginner g <? 0) || (elapsed <? best_time_beginner g)
    then set_best_time_beginner elapsed g else g
  else if (width g =? 16) && (height g =? 16) then
    if (best_time_intermediate g <? 0) || (elapsed <? best_time_intermediate g)
    then set_best_time_intermediate elapsed g else g
  else if (width g =? 30) && (height g =? 16) then
    if (best_time_expert g <? 0) || (elapsed <? best_time_expert g)
    then set_best_time_expert elapsed g else g
  else g.

(** The body of the "reveal all mines" loop. *)
Definition show_mine (i j : Z) (g : MinesweeperGame) : MinesweeperGame :=
  if mines g i j
  then set_state (grid_set (state g) i j CELL_REVEALED) g
  else g.

(** [now] is the value [time(NULL)] returns during the call. *)
Definition game_over_sequence (won : bool) (now : Z) (g : MinesweeperGame)
    : MinesweeperGame :=
  let g := set_game_over true g in
  let g := set_victory won g in
  let g := set_games_played (games_played g + 1) g in
  let g :=
    if won
    then update_best_times (now - start_time g)
           (set_games_won (games_won g + 1) g)
    else g in
  for_each_cell show_mine g.

(** ** The custom-difficulty branch of play_minesweeper

    [scanf("%d", &game.width)] stores into the structure before the value is
    checked; an input is [None] when [scanf] converts nothing.  The branch
    either goes back to the menu ([Menu]) or enters [play_game_loop] on the
    board it has prepared ([Play]). *)

Inductive CustomResult : Type :=
| Menu (g : MinesweeperGame)
| Play (g : MinesweeperGame).

Definition custom_difficulty (g : MinesweeperGame)
    (in_width in_height in_mines : option Z) : CustomResult :=
  match in_width with
  | None => Menu g
  | Some w =>
      let g := set_width w g in
      if (width g <? MIN_WIDTH) || (width g >? MAX_WIDTH) then Menu g
      else
        match in_height with
        | None => Menu g
        | Some h =>
            let g := set_height h g in
            if (height g <? MIN_HEIGHT) || (height g >? MAX_HEIGHT) then Menu g
            else
              let max_mines := Z.quot (width g * height g) 4 in
              match in_mines with
              | None => Menu g
              | Some m =>
                  let g := set_mine_count m g in
                  if (mine_count g <? 1) || (mine_count g >? max_mines)
                  then Menu g
                  else Play (reset_round g)
              end
        end
  end.


(** A cell of the board that is still Hidden: the guard of
    [reveal_cell]. *)
Definition hidden_at (g : MinesweeperGame) (r c : Z) : bool :=
  is_valid_position g r c && CellState_eqb (state g r c) CELL_HIDDEN.

(** ** The engine over the C library's generator

    [srand] and [rand] belong to the C library, not to the repository:
    [rand_seq s k] stands for the value of the [k]-th call of [rand()] after
    [srand(s)] (numbered from 0), a number between 0 and [RAND_MAX], hence
    the type [N]. *)

Section Engine.

Variable rand_seq : Z -> nat -> N.

(** *** generate_mines

    One iteration of the [while] loop draws a row and a column, so iteration
    [k] consumes the draws [2k] and [2k+1].  The loop has no bound in the
    source; [fuel] bounds the number of iterations the model follows and
    [None] says that the loop is still running after that many. *)

Fixpoint generate_loop (seed : Z) (fuel : nat) (k : nat) (g : MinesweeperGame)
    (mines_placed : Z) (start_row start_col : Z) : option MinesweeperGame :=
  if mines_placed <? mine_count g then
    match fuel with
    | O => None
    | S fuel' =>
        let row := Z.rem (Z.of_N (rand_seq seed (2 * k))) (height g) in
        let col := Z.rem (Z.of_N (rand_seq seed (2 * k + 1))) (width g) in
        if ((row =? start_row) && (col =? start_col)) || mines g row col
        then generate_loop seed fuel' (S k) g mines_placed start_row start_col
        else generate_loop seed fuel' (S k)
               (set_mines (grid_set (mines g) row col true) g)
               (mines_placed + 1) start_row start_col
    end
  else Some g.

(** [now] is the value of [time(NULL)] that seeds the generator. *)
Definition generate_mines (now : Z) (fuel : nat) (g : MinesweeperGame)
    (start_row start_col : Z) : option MinesweeperGame :=
  match generate_loop now fuel 0 g 0 start_row start_col with
  | Some g' => Some (calculate_numbers g')
  | None => None
  end.

(** The cell drawn by iteration [k] of the loop on a board of the
    dimensions of [g]. *)
Definition drawn (seed : Z) (g : MinesweeperGame) (k : nat) : Z * Z :=
  (Z.rem (Z.of_N (rand_seq seed (2 * k))) (height g),
   Z.rem (Z.of_N (rand_seq seed (2 * k + 1))) (width g)).

(** A generator is fair on a board when every cell keeps coming up. *)
Definition fair (seed : Z) (g : MinesweeperGame) : Prop :=
  forall i j, is_valid_position g i j = true ->
  forall k0 : nat, exists k : nat, (k0 <= k)%nat /\ drawn seed g k = (i, j).

(** *** reveal_cell and reveal_adjacent_cells

    The two functions call each other; [depth] bounds the nesting of
    [reveal_cell] calls, and [reveal_cell] below supplies a depth that is
    always enough.  [reveal_adjacent_with rc] is the body of
    [reveal_adjacent_cells] with [rc] for the recursive call. *)

Fixpoint reveal_adjacent_with
    (rc : MinesweeperGame -> Z -> Z -> option MinesweeperGame)
    (offsets : list (Z * Z)) (g : MinesweeperGame) (row col : Z)
    : option MinesweeperGame :=
  match offsets with
  | [] => Some g
  | d :: rest =>
      let nr := row + fst d in
      let nc := col + snd d in
      match
        (if is_valid_position g nr nc
            && CellState_eqb (state g nr nc) CELL_HIDDEN
         then rc g nr nc else Some g)
      with
      | Some g' => reveal_adjacent_with rc rest g' row col
      | None => None
      end
  end.

Fixpoint reveal_cell_rec (depth : nat) (fuel : nat) (now : Z)
    (g : MinesweeperGame) (row col : Z) : option MinesweeperGame :=
  match depth with
  | O => None
  | S depth' =>
      if negb (is_valid_position g row col)
         || negb (CellState_eqb (state g row col) CELL_HIDDEN)
      then Some g
      else
        match
          (if first_click g
           then match generate_mines now fuel g row col with
                | Some g1 => Some (set_first_click false (set_start_time now g1))
                | None => None
                end
           else Some g)
        with
        | None => None
        | Some g1 =>
            let g2 := set_revealed_count (revealed_count g1 + 1)
                        (set_state (grid_set (state g1) row col CELL_REVEALED) g1) in
            if mines g2 row col
            then Some (set_victory false (set_game_over true g2))
            else
              match
                (if numbers g2 row col =? 0
                 then reveal_adjacent_with (reveal_cell_rec depth' fuel now)
                        neighbour_offsets g2 row col
                 else Some g2)
              with
              | None => None
              | Some g3 =>
                  Some (if check_victory g3
                        then game_over_sequence true now g3 else g3)
              end
        end
  end.

(** Every nested call first turns a Hidden cell into a Revealed one, so the
    nesting never exceeds the number of cells of the board
    ([reveal_cell_rec_enough] below). *)
Definition reveal_cell (fuel : nat) (now : Z) (g : MinesweeperGame)
    (row col : Z) : option MinesweeperGame :=
  reveal_cell_rec (S (length (cells g))) fuel now g row col.

(** The "handle first click" block of [reveal_cell], on its own: the game
    on which the reveal proper then runs. *)
Definition first_click_prepare (fuel : nat) (now : Z) (g : MinesweeperGame)
    (row col : Z) : option MinesweeperGame :=
  if is_valid_position g row col
     && CellState_eqb (state g row col) CELL_HIDDEN
     && first_click g
  then match generate_mines now fuel g row col with
       | Some g1 => Some (set_first_click false (set_start_time now g1))
       | None => None
       end
  else Some g.

(** *** play_game_loop

    The commands [parse_input] hands to the loop; the rendering and the
    key presses around them are left out.  Each command comes with the clock
    reading of its turn. *)

Inductive Command : Type :=
| CmdR (row col : Z)
| CmdF (row col : Z)
| CmdH
| CmdS
| CmdQ.

Definition run_command (fuel : nat) (now : Z) (cmd : Command)
    (g : MinesweeperGame) : option MinesweeperGame :=
  match cmd with
  | CmdR row col => reveal_cell fuel now g row col
  | CmdF row col => Some (toggle_flag g row col)
  | CmdH | CmdS | CmdQ => Some g
  end.

Fixpoint play_game_loop (fuel : nat) (inputs : list (Z * Command))
    (g : MinesweeperGame) : option MinesweeperGame :=
  match inputs with
  | [] => Some g
  | (now, cmd) :: rest =>
      if game_over g then Some g
      else match cmd with
           | CmdQ => Some g
           | _ => match run_command fuel now cmd g with
                  | Some g' => play_game_loop fuel rest g'
                  | None => None
                  end
           end
  end.

(** *** Sessions

    A session starts from a board one of the menu entries has set up and
    goes through the commands [play_game_loop] executes, which it does only
    while [game_over] is false.  The boolean is a ghost of the history: it
    records that some reveal command landed on a Hidden cell holding a
    mine. *)

Inductive configured : MinesweeperGame -> Prop :=
| configured_preset g0 diff :
    diff <> DIFFICULTY_CUSTOM -> configured (setup_difficulty diff g0)
| configured_custom g0 in_w in_h in_m g :
    custom_difficulty g0 in_w in_h in_m = Play g -> configured g.

Definition reveals_mine (cmd : Command) (g g' : MinesweeperGame) : bool :=
  match cmd with
  | CmdR row col => hidden_at g row col && mines g' row col
  | _ => false
  end.

Inductive in_session : MinesweeperGame -> bool -> Prop :=
| session_start g :
    configured g -> in_session g false
| session_step g hit fuel now cmd g' :
    in_session g hit ->
    game_over g = false ->
    run_command fuel now cmd g = Some g' ->
    in_session g' (hit || reveals_mine cmd g g').

End Engine.

(** * Vocabulary of the properties *)

(** No mine on the board: what [reset_round] leaves behind. *)
Definition board_empty (g : MinesweeperGame) : Prop :=
  forall i j, is_valid_position g i j = true -> mines g i j = false.

(** The stored numbers agree with the mines around each safe cell. *)
Definition numbers_ok (g : MinesweeperGame) : Prop :=
  forall i j, is_valid_position g i j = true -> mines g i j = false ->
  numbers g i j = count_adjacent_mines g i j.

(** ** A big-step reading of reveal_cell

    Once the mines are placed, a call of [reveal_cell] is one of four
    cases, and [reveal_adjacent_cells] is a sequence of such calls; the
    relations below spell the cases out ([reveal_cell_rec_run] relates the
    function to them) and give the induction principle the cascade is
    reasoned with. *)

(** [game.state[row][col] = CELL_REVEALED; game.revealed_count++;] *)
Definition mark_revealed (g : MinesweeperGame) (r c : Z) : MinesweeperGame :=
  set_revealed_count (revealed_count g + 1)
    (set_state (grid_set (state g) r c CELL_REVEALED) g).

(** [if (check_victory()) game_over_sequence(true);] *)
Definition settle (now : Z) (g : MinesweeperGame) : MinesweeperGame :=
  if check_victory g then game_over_sequence true now g else g.

Inductive cascade_run (now : Z)
    : MinesweeperGame -> Z -> Z -> MinesweeperGame -> Prop :=
| run_skip g r c :
    hidden_at g r c = false ->
    cascade_run now g r c g
| run_mine g r c :
    hidden_at g r c = true -> mines g r c = true ->
    cascade_run now g r c
      (set_victory false (set_game_over true (mark_revealed g r c)))
| run_numbered g r c :
    hidden_at g r c = true -> mines g r c = false -> numbers g r c <> 0 ->
    cascade_run now g r c (settle now (mark_revealed g r c))
| run_zero g r c g3 :
    hidden_at g r c = true -> mines g r c = false -> numbers g r c = 0 ->
    adjacent_run now (mark_revealed g r c) r c neighbour_offsets g3 ->
    cascade_run now g r c (settle now g3)
with adjacent_run (now : Z)
    : MinesweeperGame -> Z -> Z -> list (Z * Z) -> MinesweeperGame -> Prop :=
| adj_nil g r c :
    adjacent_run now g r c [] g
| adj_cons g r c d rest g1 g2 :
    cascade_run now g (r + fst d) (c + snd d) g1 ->
    adjacent_run now g1 r c rest g2 ->
    adjacent_run now g r c (d :: rest) g2.

Scheme cascade_run_mut := Minimality for cascade_run Sort Prop
  with adjacent_run_mut := Minimality for adjacent_run Sort Prop.

Combined Scheme cascade_mutind from cascade_run_mut, adjacent_run_mut.

(** What a run of the cascade may do to a game: the configuration, the
    mines and the numbers stay, the counter grows, a finished game stays
    finished, and a cell only ever moves towards Revealed (a Flagged one
    only as a mine, by the final display of the mines). *)
Record evolves (g g' : MinesweeperGame) : Prop := {
  ev_width : width g' = width g;
  ev_height : height g' = height g;
  ev_mine_count : mine_count g' = mine_count g;
  ev_flags_placed : flags_placed g' = flags_placed g;
  ev_first_click : first_click g' = first_click g;
  ev_mines : mines g' = mines g;
  ev_numbers : numbers g' = numbers g;
  ev_count : revealed_count g <= revealed_count g';
  ev_over : game_over g = true -> game_over g' = true;
  ev_revealed : forall i j,
    state g i j = CELL_REVEALED -> state g' i j = CELL_REVEALED;
  ev_hidden : forall i j,
    state g' i j = CELL_HIDDEN -> state g i j = CELL_HIDDEN;
  ev_flagged : forall i j,
    state g' i j = CELL_FLAGGED -> state g i j = CELL_FLAGGED;
  ev_flag_lost : forall i j,
    state g i j = CELL_FLAGGED -> state g' i j <> CELL_FLAGGED ->
    state g' i j = CELL_REVEALED /\ mines g i j = true
    /\ is_valid_position g i j = true;
  ev_flags_kept : game_over g' = false -> forall i j,
    state g i j = CELL_FLAGGED -> state g' i j = CELL_FLAGGED
}.

(** The safe cells that are Revealed, and the cells still Hidden. *)
Definition safe_revealed (g : MinesweeperGame) : Z :=
  count_cells g (fun i j =>
    CellState_eqb (state g i j) CELL_REVEALED && negb (mines g i j)).

Definition hidden_count (g : MinesweeperGame) : Z :=
  count_cells g (fun i j => CellState_eqb (state g i j) CELL_HIDDEN).

(** [width * height - mine_count], the [non_mine_cells] of
    [check_victory]. *)
Definition non_mine_cells (g : MinesweeperGame) : Z :=
  width g * height g - mine_count g.

(** A finished game that is not a lost one: it is a victory and the
    counter has reached the number of safe cells. *)
Definition not_lost (g : MinesweeperGame) : Prop :=
  game_over g = true ->
  victory g = true /\ non_mine_cells g <= revealed_count g.

(** ** Reachability on the board *)

Definition adjacent_cells (i j i' j' : Z) : Prop :=
  In (i' - i, j' - j) neighbour_offsets.

(** The cells the cascade started at [(r, c)] reaches on [g]: the clicked
    cell, and every Hidden neighbour of a reached safe cell with no mine
    around it. *)
Inductive flood (g : MinesweeperGame) (r c : Z) : Z -> Z -> Prop :=
| flood_start : flood g r c r c
| flood_step i j i' j' :
    flood g r c i j ->
    mines g i j = false -> count_adjacent_mines g i j = 0 ->
    adjacent_cells i j i' j' -> hidden_at g i' j' = true ->
    flood g r c i' j'.

(** The chains of the specification: cells with no mine around them, each
    next to the previous one, whatever their state. *)
Inductive zero_chain (g : MinesweeperGame) (r c : Z) : Z -> Z -> Prop :=
| chain_start : zero_chain g r c r c
| chain_step i j i' j' :
    zero_chain g r c i j ->
    adjacent_cells i j i' j' -> is_valid_position g i' j' = true ->
    mines g i' j' = false -> count_adjacent_mines g i' j' = 0 ->
    zero_chain g r c i' j'.

(** Between [g] and [g'], every safe cell with number 0 that went from
    Hidden to Revealed has no Hidden neighbour left in [g']. *)
Definition closed_between (g g' : MinesweeperGame) : Prop :=
  forall i j,
    is_valid_position g i j = true ->
    state g i j = CELL_HIDDEN -> state g' i j = CELL_REVEALED ->
    mines g i j = false -> numbers g i j = 0 ->
    forall d, In d neighbour_offsets ->
    is_valid_position g (i + fst d) (j + snd d) = true ->
    state g' (i + fst d) (j + snd d) <> CELL_HIDDEN.

(** ** The invariant of a session *)

Record session_inv (g : MinesweeperGame) (hit : bool) : Prop := {
  inv_width : 0 < width g;
  inv_height : 0 < height g;
  inv_mines : 0 < mine_count g < width g * height g;
  inv_flags : flags_placed g <= mine_count g;
  inv_fresh : first_click g = true ->
    board_empty g
    /\ (forall i j, is_valid_position g i j = true -> state g i j <> CELL_REVEALED)
    /\ revealed_count g = 0 /\ game_over g = false;
  inv_placed : first_click g = false ->
    count_mines g = mine_count g /\ numbers_ok g;
  inv_count : revealed_count g = safe_revealed g + (if hit then 1 else 0);
  inv_running : game_over g = false ->
    hit = false /\ revealed_count g < non_mine_cells g;
  inv_won : game_over g = true -> victory g = true ->
    hit = false /\ revealed_count g = non_mine_cells g
    /\ (forall i j, is_valid_position g i j = true -> mines g i j = true ->
                    state g i j = CELL_REVEALED);
  inv_lost : game_over g = true -> victory g = false ->
    hit = true /\ revealed_count g <= non_mine_cells g
}.

(** A game in progress whose mines are placed: what an ordinary reveal
    starts from. *)
Record ready (g : MinesweeperGame) : Prop := {
  rd_width : 0 < width g;
  rd_height : 0 < height g;
  rd_mines : 0 < mine_count g < width g * height g;
  rd_flags : flags_placed g <= mine_count g;
  rd_first : first_click g = false;
  rd_count_mines : count_mines g = mine_count g;
  rd_numbers : numbers_ok g;
  rd_count : revealed_count g = safe_revealed g;
  rd_running : game_over g = false;
  rd_room : revealed_count g < non_mine_cells g
}.

(** The cells a reveal at [(r, c)] taking [g] to [g'] has turned from
    Hidden to Revealed, the mines shown by the final display left out (the
    clicked cell counts even when it is a mine). *)
Definition newly_counted (g g' : MinesweeperGame) (r c : Z) : Z :=
  count_cells g (fun i j =>
    CellState_eqb (state g i j) CELL_HIDDEN
    && CellState_eqb (state g' i j) CELL_REVEALED
    && (negb (mines g' i j) || ((i =? r) && (j =? c)))).

(** * The contract of the specification

    The C functions return [void]; the outcome values of the
    specification's interface are read off the transition the code
    performs.  These definitions follow the words of the specification
    (sections 4.2, 4.3 and 6); the theorems compare them with the code. *)

Inductive Status : Type := NotStarted | InProgress | Won | Lost.

Definition spec_status (g : MinesweeperGame) : Status :=
  if game_over g then (if victory g then Won else Lost)
  else if first_click g then NotStarted else InProgress.

Inductive Reason : Type :=
| OutOfBounds | AlreadyRevealed | AlreadyFlagged | MaxFlagsReached.

Inductive RevealOutcome : Type :=
| Continue | Win | Loss | NoOp (reason : Reason).

(** The outcome of [reveal(row, col)] taking [g] to [g']. *)
Definition spec_reveal_outcome (g : MinesweeperGame) (row col : Z)
    (g' : MinesweeperGame) : RevealOutcome :=
  if negb (is_valid_position g row col) then NoOp OutOfBounds
  else match state g row col with
       | CELL_REVEALED => NoOp AlreadyRevealed
       | CELL_FLAGGED => NoOp AlreadyFlagged
       | CELL_HIDDEN =>
           if game_over g' then (if victory g' then Win else Loss)
           else Continue
       end.

Inductive FlagOutcome : Type :=
| Flagged | Unflagged | Rejected (reason : Reason).

(** The outcome of [toggleFlag(row, col)] on [g]. *)
Definition spec_flag_outcome (g : MinesweeperGame) (row col : Z) : FlagOutcome :=
  if negb (is_valid_position g row col) then Rejected OutOfBounds
  else match state g row col with
       | CELL_REVEALED => Rejected AlreadyRevealed
       | CELL_FLAGGED => Unflagged
       | CELL_HIDDEN =>
           if flags_placed g <? mine_count g then Flagged
           else Rejected MaxFlagsReached
       end.

Inductive CellView : Type :=
| ViewHidden | ViewFlagged | ViewRevealed (count : Z) | ViewMine.

Definition spec_cellView (g : MinesweeperGame) (row col : Z) : CellView :=
  match state g row col with
  | CELL_HIDDEN => ViewHidden
  | CELL_FLAGGED => ViewFlagged
  | CELL_REVEALED =>
      if mines g row col then ViewMine else ViewRevealed (numbers g row col)
  end.

(** * Instances for the examples *)

(** The portable generator the C standard gives as an example of [rand]
    and [srand], on a 32-bit state. *)
Definition lcg_next (x : Z) : Z := (x * 1103515245 + 12345) mod 4294967296.

Definition sample_rand (seed : Z) (k : nat) : N :=
  Z.to_N ((Nat.iter (S k) lcg_next (seed mod 4294967296) / 65536) mod 32768).

(** A generator that sweeps a [w] by [h] board row by row, over and over:
    call [2k] returns the row and call [2k+1] the column of cell number
    [k mod (w * h)]; it is fair on such a board. *)
Definition sweep_rand (w h : nat) (seed : Z) (n : nat) : N :=
  let idx := (Nat.div2 n mod (w * h))%nat in
  N.of_nat (if Nat.even n then idx / w else idx mod w)%nat.

Definition the_game (o : option MinesweeperGame) : MinesweeperGame :=
  match o with
  | Some g => g
  | None => init_minesweeper
  end.

Definition the_board (r : CustomResult) : MinesweeperGame :=
  match r with
  | Play g => g
  | Menu g => g
  end.

(** Boards: the Beginner preset, and custom 5 by 5 boards with one and with
    two mines. *)
Definition beginner_board : MinesweeperGame :=
  setup_difficulty DIFFICULTY_BEGINNER init_minesweeper.

Definition board_5x5 (mine_total : Z) : MinesweeperGame :=
  the_board (custom_difficulty init_minesweeper (Some 5) (Some 5)
               (Some mine_total)).

(** One mine, placed at (4, 4) by the sample generator seeded with 8: the
    first reveal at (0, 0) uncovers the 24 safe cells and wins. *)
Definition won_game : MinesweeperGame :=
  the_game (reveal_cell sample_rand 100 8 (board_5x5 1) 0 0).

(** The same game with the cell (4, 4) flagged before the first reveal. *)
Definition flagged_board : MinesweeperGame := toggle_flag (board_5x5 1) 4 4.

Definition won_flagged : MinesweeperGame :=
  the_game (reveal_cell sample_rand 100 8 flagged_board 0 0).

(** The same game with the cell (0, 1), next to the first click, flagged. *)
Definition blocked_board : MinesweeperGame := toggle_flag (board_5x5 1) 0 1.

Definition blocked_prepared : MinesweeperGame :=
  the_game (first_click_prepare sample_rand 100 8 blocked_board 0 0).

Definition blocked_after : MinesweeperGame :=
  the_game (reveal_cell sample_rand 100 8 blocked_board 0 0).

(** Two mines, placed at (3, 2) and (4, 4) by the sample generator seeded
    with 2; the second reveal lands on the mine at (3, 2). *)
Definition two_mines_open : MinesweeperGame :=
  the_game (reveal_cell sample_rand 100 2 (board_5x5 2) 0 0).

Definition two_mines_lost : MinesweeperGame :=
  the_game (reveal_cell sample_rand 100 3 two_mines_open 3 2).
(** * The text interface of the play loop

    [play_game_loop] reads lines with [fgets] and hands them to
    [parse_input].  A line is the content of the buffer after one call of
    [fgets]: the characters before the terminating NUL, at most 19 of them,
    the newline included when it was read.  A character is its code between
    0 and 255.  [toupper] and [atoi] belong to the C library; the program
    never calls [setlocale], so [toupper] is that of the "C" locale, and
    [atoi] is the decimal conversion of the C standard: white space, an
    optional sign, then digits up to the first other character (its value
    is modelled in [Z]; in C it is undefined when it does not fit an
    [int]). *)

From Stdlib Require Import Ascii.
From Stdlib Require String DecimalString Permutation.

Definition code (c : ascii) : Z := Z.of_N (N_of_ascii c).

Definition toupper (c : ascii) : ascii :=
  if (code "a" <=? code c) && (code c <=? code "z")
  then ascii_of_N (Z.to_N (code c - 32))
  else c.

Definition isspace (c : ascii) : bool :=
  (code c =? 32) || ((9 <=? code c) && (code c <=? 13)).

Definition isdigit (c : ascii) : bool :=
  (code "0" <=? code c) && (code c <=? code "9").

Fixpoint skip_spaces (s : list ascii) : list ascii :=
  match s with
  | c :: rest => if isspace c then skip_spaces rest else s
  | [] => []
  end.

Fixpoint atoi_digits (acc : Z) (s : list ascii) : Z :=
  match s with
  | c :: rest =>
      if isdigit c then atoi_digits (10 * acc + (code c - code "0")) rest
      else acc
  | [] => acc
  end.

Definition atoi (s : list ascii) : Z :=
  match skip_spaces s with
  | "-"%char :: rest => - atoi_digits 0 rest
  | "+"%char :: rest => atoi_digits 0 rest
  | s' => atoi_digits 0 s'
  end.

(** [strchr(input, '\n')] followed by [*newline = '\0']: the line up to its
    first newline. *)
Fixpoint until_newline (s : list ascii) : list ascii :=
  match s with
  | c :: rest => if Ascii.eqb c "010" then [] else c :: until_newline rest
  | [] => []
  end.

(** ** parse_input

    The three results go through the pointers [row], [col] and [action]: the
    model takes the values the variables hold before the call and returns
    the ones they hold after it, with the returned boolean. *)

Definition parse_input (g : MinesweeperGame) (input : list ascii)
    (row col : Z) (action : ascii) : bool * (Z * Z * ascii) :=
  let input := map toupper (until_newline input) in
  if (length input =? 1)%nat then
    let action := nth 0 input zero in
    (Ascii.eqb action "H" || Ascii.eqb action "Q" || Ascii.eqb action "S",
     (row, col, action))
  else if (3 <=? length input)%nat
          && (Ascii.eqb (nth 0 input zero) "R"
              || Ascii.eqb (nth 0 input zero) "F") then
    let action := nth 0 input zero in
    let parsed :=
      if Ascii.eqb (nth 1 input zero) " " then
        if (4 <=? length input)%nat
        then (nth 2 input zero, atoi (skipn 3 input))
        else (zero, 0)
      else (nth 1 input zero, atoi (skipn 2 input)) in
    let col_char := fst parsed in
    let row_num := snd parsed in
    if (code col_char >=? code "A") && (code col_char <? code "A" + width g)
       && (row_num >=? 1) && (row_num <=? height g)
    then (true, (row_num - 1, code col_char - code "A", action))
    else (false, (row, col, action))
  else (false, (row, col, action)).

(** The [switch (action)] of [play_game_loop]; a letter without a case
    does nothing. *)
Definition command_of_action (action : ascii) (row col : Z) : option Command :=
  if Ascii.eqb action "R" then Some (CmdR row col)
  else if Ascii.eqb action "F" then Some (CmdF row col)
  else if Ascii.eqb action "H" then Some CmdH
  else if Ascii.eqb action "Q" then Some CmdQ
  else if Ascii.eqb action "S" then Some CmdS
  else None.

(** What one line makes the loop do: [None] for a line [parse_input]
    refuses ("Invalid command!"). *)
Definition command_of_line (g : MinesweeperGame) (line : list ascii)
    (row col : Z) (action : ascii) : option Command :=
  match parse_input g line row col action with
  | (true, (row', col', action')) => command_of_action action' row' col'
  | (false, _) => None
  end.

(** The labels [display_game] prints around the grid: the column header
    ['A' + j] and the row number [i + 1] (printed with ["%2d"], here without
    the padding). *)
Definition col_label (j : Z) : ascii := ascii_of_N (Z.to_N (code "A" + j)).

Definition row_label (i : Z) : list ascii :=
  String.list_ascii_of_string
    (DecimalString.NilEmpty.string_of_uint (Nat.to_uint (Z.to_nat (i + 1)))).

Section TextEngine.

Variable rand_seq : Z -> nat -> N.

(** [play_game_loop] on the lines [fgets] returns, each with the clock
    reading of its turn; the end of the list is the end of the input, where
    [fgets] returns NULL and the loop is left.  [row], [col] and [action]
    are the local variables of the loop, which the source leaves
    uninitialised. *)
Fixpoint play_game_loop_text (fuel : nat) (inputs : list (Z * list ascii))
    (g : MinesweeperGame) (row col : Z) (action : ascii)
    : option MinesweeperGame :=
  match inputs with
  | [] => Some g
  | (now, line) :: rest =>
      if game_over g then Some g
      else
        match parse_input g line row col action with
        | (true, (row', col', action')) =>
            match command_of_action action' row' col' with
            | Some CmdQ => Some g
            | Some cmd =>
                match run_command rand_seq fuel now cmd g with
                | Some g' => play_game_loop_text fuel rest g' row' col' action'
                | None => None
                end
            | None => play_game_loop_text fuel rest g row' col' action'
            end
        | (false, (row', col', action')) =>
            play_game_loop_text fuel rest g row' col' action'
        end
  end.

(** ** play_minesweeper

    One turn of the menu: the number [scanf] reads ([None] when it converts
    nothing), the three numbers typed for a custom board, and the lines
    [fgets] returns while the game runs.  [menu_loop] follows the menu over
    the turns it is given and returns the game as it stands after them, or
    as it stands when choice 7 leaves the function.  (The source has no
    other way out: when the input ends, [scanf] fails and the menu is shown
    again.) *)

Record MenuTurn : Type := mkTurn {
  turn_choice : option Z;
  turn_width : option Z;
  turn_height : option Z;
  turn_mines : option Z;
  turn_lines : list (Z * list ascii)
}.

Fixpoint menu_loop (fuel : nat) (turns : list MenuTurn) (g : MinesweeperGame)
    : option MinesweeperGame :=
  match turns with
  | [] => Some g
  | t :: rest =>
      match turn_choice t with
      | None => menu_loop fuel rest g
      | Some choice =>
          let play g0 :=
            match play_game_loop_text fuel (turn_lines t) g0 0 0 zero with
            | Some g' => menu_loop fuel rest g'
            | None => None
            end in
          if choice =? 1 then play (setup_difficulty DIFFICULTY_BEGINNER g)
          else if choice =? 2 then play (setup_difficulty DIFFICULTY_INTERMEDIATE g)
          else if choice =? 3 then play (setup_difficulty DIFFICULTY_EXPERT g)
          else if choice =? 4 then
            match custom_difficulty g (turn_width t) (turn_height t)
                    (turn_mines t) with
            | Play g0 => play g0
            | Menu g0 => menu_loop fuel rest g0
            end
          else if choice =? 7 then Some g
          else menu_loop fuel rest g
      end
  end.

Definition play_minesweeper (fuel : nat) (turns : list MenuTurn)
    : option MinesweeperGame :=
  menu_loop fuel turns init_minesweeper.

End TextEngine.

(** The commands a list of lines stands for on a board of the dimensions of
    [g]; a refused line changes nothing and is rendered as [CmdH], which
    changes nothing either. *)
Definition command_or_nothing (g : MinesweeperGame) (line : list ascii)
    : Command :=
  match command_of_line g line 0 0 zero with
  | Some cmd => cmd
  | None => CmdH
  end.

Definition commands_of_lines (g : MinesweeperGame)
    (lines : list (Z * list ascii)) : list (Z * Command) :=
  map (fun nl => (fst nl, command_or_nothing g (snd nl))) lines.

(** * What display_game prints

    The numbers of the header and the characters of the grid; the frame
    around them and the clock are left out.  [display_flags] is the
    "Flags:" field and [display_remaining] the "Remaining:" field. *)

Definition display_flags (g : MinesweeperGame) : Z := flags_placed g.

Definition display_remaining (g : MinesweeperGame) : Z :=
  flag_count g - flags_placed g.

Definition display_row (g : MinesweeperGame) (i : Z) : list Z :=
  map (get_cell_display g i) (range (width g)).

Definition display_rows (g : MinesweeperGame) : list (list Z) :=
  map (display_row g) (range (height g)).

(** How often the character [ch] stands on the grid. *)
Definition shown (g : MinesweeperGame) (ch : Z) : Z :=
  Z.of_nat (count_occ Z.eq_dec (concat (display_rows g)) ch).

(** ** More counts over the board *)

Definition flagged_cells (g : MinesweeperGame) : Z :=
  count_cells g (fun i j => CellState_eqb (state g i j) CELL_FLAGGED).

Definition revealed_cells (g : MinesweeperGame) : Z :=
  count_cells g (fun i j => CellState_eqb (state g i j) CELL_REVEALED).

(** The mines that are Revealed. *)
Definition shown_mines (g : MinesweeperGame) : Z :=
  count_cells g (fun i j =>
    CellState_eqb (state g i j) CELL_REVEALED && mines g i j).

(** [(i, j)] is one of the eight cells around [(r, c)]. *)
Definition is_neighbour (r c i j : Z) : bool :=
  (Z.abs (i - r) <=? 1) && (Z.abs (j - c) <=? 1)
  && negb ((i =? r) && (j =? c)).

(** The mines around [(r, c)], counted over the board. *)
Definition mines_around (g : MinesweeperGame) (r c : Z) : Z :=
  count_cells g (fun i j => is_neighbour r c i j && mines g i j).

(** ** What a session keeps besides [session_inv] *)

Record board_inv (g : MinesweeperGame) (hit : bool) : Prop := {
  bi_flag_count : flag_count g = mine_count g;
  bi_shown : spec_status g <> Won -> shown_mines g = if hit then 1 else 0;
  bi_flags : spec_status g <> Won -> flagged_cells g = flags_placed g
}.

(** Two games with the same content: every field is equal, the state grid
    at every position. *)
Definition same_game (g g' : MinesweeperGame) : Prop :=
  scalars g' = scalars g
  /\ flag_count g' = flag_count g /\ start_time g' = start_time g
  /\ games_played g' = games_played g /\ games_won g' = games_won g
  /\ best_time_beginner g' = best_time_beginner g
  /\ best_time_intermediate g' = best_time_intermediate g
  /\ best_time_expert g' = best_time_expert g
  /\ mines g' = mines g /\ numbers g' = numbers g
  /\ forall i j, state g' i j = state g i j.

(** * More instances for the examples *)

(** The custom 5 by 5 game with two mines, lost by its second reveal, as
    it is typed at the menu: choice 4, the three numbers, then the lines
    "R A1" and "r c4" with their newlines, read at the clock values 2
    and 3. *)
Definition lost_game_turns : list MenuTurn :=
  [mkTurn (Some 4) (Some 5) (Some 5) (Some 2)
     [(2, ["R"; " "; "A"; "1"; "010"]%char);
      (3, ["r"; " "; "c"; "4"; "010"]%char)]].

Definition lost_game_typed : MinesweeperGame :=
  the_game (play_minesweeper sample_rand 100 lost_game_turns).

(** * Vocabulary of the flag and layout properties *)

(** Every field of the game but the state grid and [flags_placed], the two
    that [toggle_flag] writes. *)
Definition fields_beside_flags (g : MinesweeperGame) :=
  (width g, height g, mine_count g, revealed_count g, flag_count g,
   (game_over g, victory g, first_click g),
   (start_time g, games_played g, games_won g),
   (best_time_beginner g, best_time_intermediate g, best_time_expert g),
   mines g, numbers g).

(** Two games with the same layout: the same dimensions and, on every cell
    of the board, the same mine and the same number. *)
Definition same_layout (g1 g2 : MinesweeperGame) : Prop :=
  width g2 = width g1 /\ height g2 = height g1
  /\ forall i j, is_valid_position g1 i j = true ->
       mines g2 i j = mines g1 i j /\ numbers g2 i j = numbers g1 i j.

(** ** The generator of the GNU C library

    [rand] of glibc is its [random] with the default state of 34 words:
    [srand] fills words 0 to 30 with a Lehmer sequence started at the seed
    (a seed of 0 is replaced by 1), words 31 to 33 repeat words 0 to 2, every
    later word is the sum modulo 2^32 of the words 31 and 3 places before
    it, the first 310 of them are thrown away, and [rand] returns the next
    word shifted right by one bit. *)

Definition glibc_seed_word (seed : Z) : Z :=
  let s := seed mod 4294967296 in
  let s := if s =? 0 then 1 else s in
  if s <? 2147483648 then s else s - 4294967296.

Definition glibc_init_step (w : Z) : Z :=
  let hi := Z.quot w 127773 in
  let lo := Z.rem w 127773 in
  let word := 16807 * lo - 2836 * hi in
  if word <? 0 then word + 2147483647 else word.

Fixpoint glibc_words (n : nat) (w : Z) : list Z :=
  match n with
  | O => []
  | S n' => w :: glibc_words n' (glibc_init_step w)
  end.

(** The 31 words before word 34: words 3 to 33. *)
Definition glibc_window (seed : Z) : list Z :=
  let r := glibc_words 31 (glibc_seed_word seed) in
  skipn 3 r ++ firstn 3 r.

Definition glibc_step (l : list Z) : list Z :=
  tl l ++ [(nth 0 l 0 + nth 28 l 0) mod 4294967296].

Definition glibc_rand (seed : Z) (k : nat) : N :=
  Z.to_N (last (Nat.iter (311 + k) glibc_step (glibc_window seed)) 0 / 2).

(** ** A game whose outcome depends on the clock

    The custom 9 by 9 board with one mine.  The first reveal, at clock 11,
    is at (5, 4), next to the cell where either generator seeded with 11
    puts the mine, (6, 3) or (5, 5); the second, at (0, 0), uncovers the
    other 79 safe cells and wins, [second] seconds after the first. *)
Definition board_9x9 : MinesweeperGame :=
  the_board (custom_difficulty init_minesweeper (Some 9) (Some 9) (Some 1)).

Definition timed_calls (second : Z) : list (Z * Command) :=
  [(11, CmdR 5 4); (11 + second, CmdR 0 0)].

Definition timed_win (rand_seq : Z -> nat -> N) (second : Z)
    : MinesweeperGame :=
  the_game (play_game_loop rand_seq 100 (timed_calls second) board_9x9).
(** * Basic facts *)

Lemma CellState_eqb_eq (a b : CellState) : CellState_eqb a b = true <-> a = b.
Proof. destruct a, b; simpl; split; congruence. Qed.

Lemma CellState_eqb_neq (a b : CellState) : CellState_eqb a b = false <-> a <> b.
Proof. destruct a, b; simpl; split; congruence. Qed.

Lemma grid_set_same {A} (a : grid A) r c v : grid_set a r c v r c = v.
Proof. unfold grid_set. now rewrite !Z.eqb_refl. Qed.

Lemma grid_set_other {A} (a : grid A) r c v i j :
  (i, j) <> (r, c) -> grid_set a r c v i j = a i j.
Proof.
  intros Hne. unfold grid_set.
  destruct (i =? r) eqn:Hi; destruct (j =? c) eqn:Hj; simpl; auto.
  apply Z.eqb_eq in Hi, Hj. subst. congruence.
Qed.

(** * Cells of the board and counting *)

Lemma in_range (n x : Z) : In x (range n) <-> 0 <= x < n.
Proof.
  unfold range. rewrite in_map_iff. split.
  - intros [k [Hk Hin]]. apply in_seq in Hin. lia.
  - intros Hx. exists (Z.to_nat x). split; [lia|]. apply in_seq. lia.
Qed.

Lemma NoDup_range (n : Z) : NoDup (range n).
Proof.
  unfold range. apply NoDup_map_NoDup_ForallPairs.
  - intros x y _ _ Hxy. lia.
  - apply seq_NoDup.
Qed.

Lemma NoDup_list_prod {A B} (l : list A) (l' : list B) :
  NoDup l -> NoDup l' -> NoDup (list_prod l l').
Proof.
  intros Hl Hl'. induction Hl as [|a l Hnot Hl IH]; simpl.
  - constructor.
  - apply NoDup_app.
    + apply NoDup_map_NoDup_ForallPairs; [|assumption].
      intros x y _ _ Hxy. congruence.
    + exact IH.
    + intros [x y] Hin Hin'. apply in_map_iff in Hin.
      destruct Hin as [z [Hz _]]. inversion Hz; subst.
      apply in_prod_iff in Hin'. tauto.
Qed.

Lemma valid_iff (g : MinesweeperGame) (i j : Z) :
  is_valid_position g i j = true <-> 0 <= i < height g /\ 0 <= j < width g.
Proof. unfold is_valid_position. lia. Qed.

Lemma in_cells (g : MinesweeperGame) (i j : Z) :
  In (i, j) (cells g) <-> is_valid_position g i j = true.
Proof.
  unfold cells. rewrite in_prod_iff, !in_range, valid_iff. tauto.
Qed.

Lemma NoDup_cells (g : MinesweeperGame) : NoDup (cells g).
Proof. apply NoDup_list_prod; apply NoDup_range. Qed.

Lemma length_range (n : Z) : length (range n) = Z.to_nat n.
Proof. unfold range. now rewrite length_map, length_seq. Qed.

Lemma length_cells (g : MinesweeperGame) :
  0 <= width g -> 0 <= height g ->
  Z.of_nat (length (cells g)) = width g * height g.
Proof.
  intros Hw Hh. unfold cells. rewrite length_prod, !length_range. lia.
Qed.


Lemma same_dims_refl g : same_dims g g.
Proof. split; reflexivity. Qed.

Lemma same_dims_trans g1 g2 g3 :
  same_dims g1 g2 -> same_dims g2 g3 -> same_dims g1 g3.
Proof. unfold same_dims. intros [] []. split; congruence. Qed.

Lemma cells_same g g' : same_dims g g' -> cells g' = cells g.
Proof. intros [Hw Hh]. unfold cells. now rewrite Hw, Hh. Qed.

Lemma valid_same g g' i j :
  same_dims g g' -> is_valid_position g' i j = is_valid_position g i j.
Proof. intros [Hw Hh]. unfold is_valid_position. now rewrite Hw, Hh. Qed.



Section ListCounting.

Context {A : Type}.

Lemma filter_length_flip (l : list A) (p p' : A -> bool) (x : A) :
  NoDup l -> In x l -> p x = false -> p' x = true ->
  (forall y, In y l -> y <> x -> p' y = p y) ->
  length (filter p' l) = S (length (filter p l)).
Proof.
  intros Hnd. induction Hnd as [|a l Hnot Hnd IH]; intros Hin Hp Hp' Hext.
  - destruct Hin.
  - simpl. destruct Hin as [->|Hin].
    + rewrite Hp, Hp'. simpl. f_equal. f_equal.
      apply filter_ext_in. intros y Hy. apply Hext; [now right|].
      intros ->. contradiction.
    + assert (Ha : a <> x) by (intros ->; contradiction).
      rewrite (Hext a (or_introl eq_refl) Ha).
      assert (IH' : length (filter p' l) = S (length (filter p l))).
      { apply IH; auto. intros y Hy. apply Hext. now right. }
      destruct (p a); simpl; now rewrite IH'.
Qed.

Lemma filter_length_mono (l : list A) (p q : A -> bool) :
  (forall y, In y l -> p y = true -> q y = true) ->
  (length (filter p l) <= length (filter q l))%nat.
Proof.
  induction l as [|a l IH]; intros H; simpl; [lia|].
  assert (IH' : (length (filter p l) <= length (filter q l))%nat).
  { apply IH. intros y Hy. apply H. now right. }
  destruct (p a) eqn:Hpa.
  - rewrite (H a (or_introl eq_refl) Hpa). simpl. lia.
  - destruct (q a); simpl; lia.
Qed.

Lemma filter_length_lt_exists (l : list A) (p : A -> bool) :
  (length (filter p l) < length l)%nat -> exists x, In x l /\ p x = false.
Proof.
  induction l as [|a l IH]; simpl; intros H; [lia|].
  destruct (p a) eqn:Hpa.
  - simpl in H. destruct IH as [x [Hx Hpx]]; [lia|]. exists x. auto.
  - exists a. auto.
Qed.

Lemma filter_length_split (l : list A) (p q : A -> bool) :
  (forall y, In y l -> q y = true -> p y = true) ->
  length (filter p l) =
  (length (filter q l) + length (filter (fun y => p y && negb (q y)) l))%nat.
Proof.
  induction l as [|a l IH]; intros H; simpl; [reflexivity|].
  assert (IH' := IH (fun y Hy => H y (or_intror Hy))).
  destruct (q a) eqn:Hqa.
  - rewrite (H a (or_introl eq_refl) Hqa). simpl. lia.
  - destruct (p a); simpl; lia.
Qed.

End ListCounting.

Lemma count_ext g p q :
  (forall i j, is_valid_position g i j = true -> p i j = q i j) ->
  count_cells g p = count_cells g q.
Proof.
  intros H. unfold count_cells. f_equal. f_equal.
  apply filter_ext_in. intros [i j] Hin. apply H. now apply in_cells.
Qed.

Lemma count_same g g' p : same_dims g g' -> count_cells g' p = count_cells g p.
Proof. intros H. unfold count_cells. now rewrite (cells_same g g' H). Qed.

Lemma count_nonneg g p : 0 <= count_cells g p.
Proof. unfold count_cells. lia. Qed.

Lemma count_mono g p q :
  (forall i j, is_valid_position g i j = true -> p i j = true -> q i j = true) ->
  count_cells g p <= count_cells g q.
Proof.
  intros H. unfold count_cells. apply inj_le. apply filter_length_mono.
  intros [i j] Hin. apply H. now apply in_cells.
Qed.

Lemma count_zero g p :
  (forall i j, is_valid_position g i j = true -> p i j = false) ->
  count_cells g p = 0.
Proof.
  intros H. rewrite (count_ext g p (fun _ _ => false) H).
  unfold count_cells. induction (cells g); simpl; auto.
Qed.

Lemma count_flip g p p' r c :
  is_valid_position g r c = true -> p r c = false -> p' r c = true ->
  (forall i j, is_valid_position g i j = true -> (i, j) <> (r, c) ->
               p' i j = p i j) ->
  count_cells g p' = count_cells g p + 1.
Proof.
  intros Hv Hp Hp' Hext. unfold count_cells.
  rewrite (filter_length_flip (cells g) (fun ij => p (fst ij) (snd ij))
             (fun ij => p' (fst ij) (snd ij)) (r, c)).
  - lia.
  - apply NoDup_cells.
  - now apply in_cells.
  - exact Hp.
  - exact Hp'.
  - intros [i j] Hin Hne. apply Hext; [now apply in_cells | exact Hne].
Qed.

Lemma count_complement g p :
  0 <= width g -> 0 <= height g ->
  count_cells g p + count_cells g (fun i j => negb (p i j))
  = width g * height g.
Proof.
  intros Hw Hh. rewrite <- (length_cells g Hw Hh). unfold count_cells.
  rewrite <- (filter_length (fun ij => p (fst ij) (snd ij)) (cells g)). lia.
Qed.

Lemma count_lt_exists g p :
  0 <= width g -> 0 <= height g ->
  count_cells g p < width g * height g ->
  exists i j, is_valid_position g i j = true /\ p i j = false.
Proof.
  intros Hw Hh H. rewrite <- (length_cells g Hw Hh) in H. unfold count_cells in H.
  destruct (filter_length_lt_exists (cells g) (fun ij => p (fst ij) (snd ij)))
    as [[i j] [Hin Hp]]; [lia|].
  exists i, j. split; [now apply in_cells | exact Hp].
Qed.

Lemma count_split g p q :
  (forall i j, is_valid_position g i j = true -> q i j = true -> p i j = true) ->
  count_cells g p
  = count_cells g q + count_cells g (fun i j => p i j && negb (q i j)).
Proof.
  intros H. unfold count_cells.
  rewrite (filter_length_split (cells g) (fun ij => p (fst ij) (snd ij))
             (fun ij => q (fst ij) (snd ij))).
  - lia.
  - intros [i j] Hin. apply H. now apply in_cells.
Qed.

(** * The loops over the board *)


Lemma scalars_inv g g' :
  scalars g' = scalars g ->
  width g' = width g /\ height g' = height g /\ mine_count g' = mine_count g
  /\ revealed_count g' = revealed_count g /\ flags_placed g' = flags_placed g
  /\ game_over g' = game_over g /\ victory g' = victory g
  /\ first_click g' = first_click g.
Proof. unfold scalars. intros H. inversion H. tauto. Qed.

Lemma scalars_same_dims g g' : scalars g' = scalars g -> same_dims g g'.
Proof. intros H. apply scalars_inv in H. split; tauto. Qed.

Section Loops.

Variable body : Z -> Z -> MinesweeperGame -> MinesweeperGame.

Lemma fold_cells_ind (P : MinesweeperGame -> Prop) :
  (forall i j g, P g -> P (body i j g)) ->
  forall l g, P g ->
  P (fold_left (fun acc ij => body (fst ij) (snd ij) acc) l g).
Proof.
  intros Hstep l. induction l as [|[i j] l IH]; intros g Hg; simpl; auto.
Qed.

Lemma fold_cells_pointwise {A} (F v : MinesweeperGame -> grid A) :
  (forall i j g i' j', (i', j') <> (i, j) -> F (body i j g) i' j' = F g i' j') ->
  (forall i j g, F (body i j g) i j = v g i j) ->
  (forall i j g i' j', v (body i j g) i' j' = v g i' j') ->
  forall l g, NoDup l ->
  forall i j,
    (In (i, j) l ->
     F (fold_left (fun acc ij => body (fst ij) (snd ij) acc) l g) i j = v g i j)
    /\ (~ In (i, j) l ->
        F (fold_left (fun acc ij => body (fst ij) (snd ij) acc) l g) i j
        = F g i j).
Proof.
  intros Hother Hat Hv l. induction l as [|[a b] l IH]; intros g Hnd i j.
  - simpl. split; [contradiction | reflexivity].
  - inversion Hnd as [|x l' Hnot Hnd']; subst. simpl.
    destruct (IH (body a b g) Hnd' i j) as [IHin IHout].
    split.
    + intros [Heq|Hin].
      * inversion Heq; subst. rewrite IHout by assumption. apply Hat.
      * rewrite IHin by assumption. apply Hv.
    + intros Hnot'. rewrite IHout by tauto. apply Hother.
      intros Heq. apply Hnot'. left. congruence.
Qed.

End Loops.

Lemma for_each_cell_scalars body g :
  (forall i j g, scalars (body i j g) = scalars g) ->
  scalars (for_each_cell body g) = scalars g.
Proof.
  intros H. unfold for_each_cell.
  apply (fold_cells_ind body (fun g' => scalars g' = scalars g)); auto.
  intros i j g0 Hg0. now rewrite H.
Qed.

Lemma for_each_cell_at {A} body (F v : MinesweeperGame -> grid A) g :
  (forall i j g i' j', (i', j') <> (i, j) -> F (body i j g) i' j' = F g i' j') ->
  (forall i j g, F (body i j g) i j = v g i j) ->
  (forall i j g i' j', v (body i j g) i' j' = v g i' j') ->
  forall i j,
    F (for_each_cell body g) i j
    = if is_valid_position g i j then v g i j else F g i j.
Proof.
  intros H1 H2 H3 i j. unfold for_each_cell.
  destruct (fold_cells_pointwise body F v H1 H2 H3 (cells g) g (NoDup_cells g) i j)
    as [Hin Hout].
  destruct (is_valid_position g i j) eqn:Hv.
  - apply Hin. now apply in_cells.
  - apply Hout. rewrite in_cells. congruence.
Qed.

Lemma for_each_cell_keeps {A} body (F : MinesweeperGame -> A) g :
  (forall i j g, F (body i j g) = F g) ->
  F (for_each_cell body g) = F g.
Proof.
  intros H. unfold for_each_cell.
  apply (fold_cells_ind body (fun g' => F g' = F g)); auto.
  intros i j g0 Hg0. now rewrite H.
Qed.

Ltac grid_cases :=
  repeat match goal with
  | |- context [grid_set _ ?r ?c _ ?i ?j] =>
      first [ rewrite grid_set_same
            | rewrite (grid_set_other _ r c _ i j) by congruence ]
  end.

(** ** reset_round: the board comes out empty *)

Lemma reset_round_scalars g :
  scalars (reset_round g)
  = (width g, height g, mine_count g, 0, 0, (false, false, true)).
Proof.
  unfold reset_round. rewrite for_each_cell_scalars; [reflexivity|].
  intros i j g0. reflexivity.
Qed.

Lemma reset_round_cleared g i j :
  is_valid_position g i j = true ->
  mines (reset_round g) i j = false
  /\ state (reset_round g) i j = CELL_HIDDEN
  /\ numbers (reset_round g) i j = 0.
Proof.
  intros Hv. unfold reset_round. cbv zeta.
  match goal with |- context [for_each_cell clear_cell ?g0] => set (g1 := g0) end.
  assert (Hv1 : is_valid_position g1 i j = true) by exact Hv.
  repeat split.
  - rewrite (for_each_cell_at clear_cell mines (fun _ _ _ => false)), Hv1; auto.
    + intros. unfold clear_cell. gsimpl. now grid_cases.
    + intros. unfold clear_cell. gsimpl. now grid_cases.
  - rewrite (for_each_cell_at clear_cell state (fun _ _ _ => CELL_HIDDEN)), Hv1; auto.
    + intros. unfold clear_cell. gsimpl. now grid_cases.
    + intros. unfold clear_cell. gsimpl. now grid_cases.
  - rewrite (for_each_cell_at clear_cell numbers (fun _ _ _ => 0)), Hv1; auto.
    + intros. unfold clear_cell. gsimpl. now grid_cases.
    + intros. unfold clear_cell. gsimpl. now grid_cases.
Qed.

(** ** calculate_numbers *)

Lemma count_adjacent_mines_ext g g' :
  same_dims g g' -> (forall i j, mines g' i j = mines g i j) ->
  forall r c, count_adjacent_mines g' r c = count_adjacent_mines g r c.
Proof.
  intros Hd Hm r c. unfold count_adjacent_mines.
  generalize 0. induction neighbour_offsets as [|d l IH]; intros z; simpl; auto.
  rewrite (valid_same g g' _ _ Hd), Hm. apply IH.
Qed.


Lemma calculate_numbers_scalars g : scalars (calculate_numbers g) = scalars g.
Proof.
  unfold calculate_numbers. apply for_each_cell_scalars.
  intros i j g0. unfold numbers_body. destruct (negb (mines g0 i j)); reflexivity.
Qed.

Lemma calculate_numbers_mines g : mines (calculate_numbers g) = mines g.
Proof.
  unfold calculate_numbers. apply (for_each_cell_keeps _ mines).
  intros i j g0. unfold numbers_body. destruct (negb (mines g0 i j)); reflexivity.
Qed.

Lemma calculate_numbers_state g : state (calculate_numbers g) = state g.
Proof.
  unfold calculate_numbers. apply (for_each_cell_keeps _ state).
  intros i j g0. unfold numbers_body. destruct (negb (mines g0 i j)); reflexivity.
Qed.

Lemma calculate_numbers_at g i j :
  is_valid_position g i j = true -> mines g i j = false ->
  numbers (calculate_numbers g) i j = count_adjacent_mines g i j.
Proof.
  intros Hv Hm. unfold calculate_numbers.
  rewrite (for_each_cell_at numbers_body numbers
             (fun g i j => if negb (mines g i j)
                           then count_adjacent_mines g i j else numbers g i j)).
  - now rewrite Hv, Hm.
  - intros a b g0 i' j' Hne. unfold numbers_body.
    destruct (negb (mines g0 a b)); gsimpl; auto. now grid_cases.
  - intros a b g0. unfold numbers_body.
    destruct (negb (mines g0 a b)); gsimpl; auto. now grid_cases.
  - intros a b g0 i' j'. unfold numbers_body.
    destruct (negb (mines g0 a b)) eqn:Hab; auto.
    change (mines (set_numbers _ g0) i' j') with (mines g0 i' j').
    destruct (negb (mines g0 i' j')) eqn:Hm'.
    + apply count_adjacent_mines_ext; [split; reflexivity | reflexivity].
    + gsimpl. unfold grid_set.
      destruct ((i' =? a) && (j' =? b)) eqn:He; auto.
      apply andb_true_iff in He. destruct He as [He1 He2].
      apply Z.eqb_eq in He1, He2. subst. congruence.
Qed.

(** ** game_over_sequence *)


Lemma update_best_times_scalars e g : scalars (update_best_times e g) = scalars g.
Proof.
  unfold update_best_times.
  repeat match goal with |- context [if ?b then _ else _] => destruct b end;
    reflexivity.
Qed.

Lemma update_best_times_mines e g : mines (update_best_times e g) = mines g.
Proof.
  unfold update_best_times.
  repeat match goal with |- context [if ?b then _ else _] => destruct b end;
    reflexivity.
Qed.

Lemma update_best_times_state e g : state (update_best_times e g) = state g.
Proof.
  unfold update_best_times.
  repeat match goal with |- context [if ?b then _ else _] => destruct b end;
    reflexivity.
Qed.

Lemma update_best_times_numbers e g : numbers (update_best_times e g) = numbers g.
Proof.
  unfold update_best_times.
  repeat match goal with |- context [if ?b then _ else _] => destruct b end;
    reflexivity.
Qed.

Lemma game_over_sequence_scalars won now g :
  scalars (game_over_sequence won now g)
  = (width g, height g, mine_count g, revealed_count g, flags_placed g,
     (true, won, first_click g)).
Proof.
  unfold game_over_sequence. cbv zeta.
  rewrite for_each_cell_scalars.
  - destruct won; [rewrite update_best_times_scalars|]; reflexivity.
  - intros i j g0. unfold show_mine. destruct (mines g0 i j); reflexivity.
Qed.

Lemma game_over_sequence_mines won now g :
  mines (game_over_sequence won now g) = mines g.
Proof.
  unfold game_over_sequence. cbv zeta.
  rewrite (for_each_cell_keeps _ mines).
  - destruct won; [rewrite update_best_times_mines|]; reflexivity.
  - intros i j g0. unfold show_mine. destruct (mines g0 i j); reflexivity.
Qed.

Lemma game_over_sequence_numbers won now g :
  numbers (game_over_sequence won now g) = numbers g.
Proof.
  unfold game_over_sequence. cbv zeta.
  rewrite (for_each_cell_keeps _ numbers).
  - destruct won; [rewrite update_best_times_numbers|]; reflexivity.
  - intros i j g0. unfold show_mine. destruct (mines g0 i j); reflexivity.
Qed.

Lemma game_over_sequence_state won now g i j :
  state (game_over_sequence won now g) i j
  = if is_valid_position g i j && mines g i j
    then CELL_REVEALED else state g i j.
Proof.
  unfold game_over_sequence. cbv zeta.
  match goal with |- context [for_each_cell _ ?g0] => set (g1 := g0) end.
  assert (Hs : scalars g1 = (width g, height g, mine_count g, revealed_count g,
                             flags_placed g, (true, won, first_click g))).
  { subst g1. destruct won; [rewrite update_best_times_scalars|]; reflexivity. }
  assert (Hm : mines g1 = mines g).
  { subst g1. destruct won; [rewrite update_best_times_mines|]; reflexivity. }
  assert (Hst : state g1 = state g).
  { subst g1. destruct won; [rewrite update_best_times_state|]; reflexivity. }
  assert (Hd : same_dims g g1).
  { unfold scalars in Hs. inversion Hs. split; assumption. }
  rewrite (for_each_cell_at show_mine state
             (fun g i j => if mines g i j then CELL_REVEALED else state g i j)).
  - rewrite (valid_same g g1 i j Hd), Hm, Hst.
    destruct (is_valid_position g i j), (mines g i j); reflexivity.
  - intros a b g0 i' j' Hne. unfold show_mine.
    destruct (mines g0 a b); gsimpl; auto. now grid_cases.
  - intros a b g0. unfold show_mine.
    destruct (mines g0 a b) eqn:Hab; gsimpl; rewrite ?Hab; auto. now grid_cases.
  - intros a b g0 i' j'. unfold show_mine.
    destruct (mines g0 a b) eqn:Hab; auto. gsimpl.
    destruct (mines g0 i' j') eqn:Hm'; auto.
    unfold grid_set.
    destruct ((i' =? a) && (j' =? b)) eqn:He; auto.
    apply andb_true_iff in He. destruct He as [He1 He2].
    apply Z.eqb_eq in He1, He2. subst. congruence.
Qed.

(** * generate_mines *)

Section Generation.

Variable rand_seq : Z -> nat -> N.


Lemma drawn_valid seed g k :
  0 < width g -> 0 < height g ->
  is_valid_position g (fst (drawn rand_seq seed g k)) (snd (drawn rand_seq seed g k)) = true.
Proof.
  intros Hw Hh. unfold drawn. simpl. apply valid_iff. split.
  - apply Z.rem_bound_pos; lia.
  - apply Z.rem_bound_pos; lia.
Qed.

Lemma count_mines_place g row col :
  is_valid_position g row col = true -> mines g row col = false ->
  count_mines (set_mines (grid_set (mines g) row col true) g)
  = count_mines g + 1.
Proof.
  intros Hv Hm. unfold count_mines.
  change (count_cells (set_mines (grid_set (mines g) row col true) g))
    with (count_cells g).
  apply (count_flip g (mines g) _ row col); auto.
  - simpl. apply grid_set_same.
  - intros i j _ Hne. simpl. now apply grid_set_other.
Qed.

Lemma generate_loop_spec seed sr sc :
  forall fuel k g placed g',
  0 < width g -> 0 < height g ->
  placed <= mine_count g ->
  mines g sr sc = false ->
  generate_loop rand_seq seed fuel k g placed sr sc = Some g' ->
  scalars g' = scalars g /\ state g' = state g /\ numbers g' = numbers g
  /\ mines g' sr sc = false
  /\ count_mines g' = count_mines g + (mine_count g - placed)
  /\ (forall i j, mines g i j = true -> mines g' i j = true).
Proof.
  induction fuel as [|fuel IH]; intros k g placed g' Hw Hh Hpl Hst Hrun;
    simpl in Hrun; destruct (placed <? mine_count g) eqn:Hlt.
  - discriminate.
  - inversion Hrun; subst. repeat split; auto. lia.
  - fold (drawn rand_seq seed g k) in Hrun.
    pose proof (drawn_valid seed g k Hw Hh) as Hv.
    change (Z.rem (Z.of_N (rand_seq seed (k + (k + 0)))) (height g))
      with (fst (drawn rand_seq seed g k)) in Hrun.
    change (Z.rem (Z.of_N (rand_seq seed (k + (k + 0) + 1))) (width g))
      with (snd (drawn rand_seq seed g k)) in Hrun.
    destruct (drawn rand_seq seed g k) as [row col]. simpl in Hv, Hrun.
    destruct (((row =? sr) && (col =? sc)) || mines g row col) eqn:Hskip.
    + apply (IH _ _ _ _ Hw Hh Hpl Hst Hrun).
    + apply orb_false_iff in Hskip. destruct Hskip as [Hne Hm].
      assert (Hne' : (sr, sc) <> (row, col)).
      { intros Heq. inversion Heq; subst. now rewrite !Z.eqb_refl in Hne. }
      apply IH in Hrun; auto.
      * destruct Hrun as (Hs & Hs1 & Hs2 & Hs3 & Hs4 & Hs5).
        rewrite count_mines_place in Hs4 by assumption.
        repeat split; auto.
        -- simpl in Hs4. lia.
        -- intros i j Hij. apply Hs5. simpl. unfold grid_set.
           destruct ((i =? row) && (j =? col)); auto.
      * simpl. lia.
      * simpl. now rewrite grid_set_other.
  - inversion Hrun; subst. repeat split; auto. lia.
Qed.

(** With a fair generator, the loop ends as long as a free cell is left for
    every mine still to be placed. *)
Lemma generate_loop_terminates seed sr sc :
  forall (n : nat) g k placed,
  fair rand_seq seed g ->
  0 < width g -> 0 < height g ->
  is_valid_position g sr sc = true ->
  mines g sr sc = false ->
  mine_count g - placed <= Z.of_nat n ->
  count_mines g + (mine_count g - placed) < width g * height g ->
  exists fuel g', generate_loop rand_seq seed fuel k g placed sr sc = Some g'.
Proof.
  induction n as [|n IHn]; intros g k placed Hfair Hw Hh Hvs Hst Hrem Hroom.
  - exists O, g. simpl. replace (placed <? mine_count g) with false; auto.
    symmetry. apply Z.ltb_ge. lia.
  - destruct (placed <? mine_count g) eqn:Hlt.
    2:{ exists O, g. simpl. now rewrite Hlt. }
    apply Z.ltb_lt in Hlt.
    (* a free cell other than the first click *)
    destruct (count_lt_exists g (grid_set (mines g) sr sc true))
      as (i & j & Hv & Hfree); try lia.
    { rewrite (count_flip g (mines g) _ sr sc); auto.
      - fold (count_mines g). lia.
      - apply grid_set_same.
      - intros; now apply grid_set_other. }
    assert (Hne : (i, j) <> (sr, sc)).
    { intros Heq. inversion Heq; subst. now rewrite grid_set_same in Hfree. }
    rewrite grid_set_other in Hfree by assumption.
    destruct (Hfair i j Hv k) as (k' & Hk' & Hdraw).
    (* walk from iteration k to iteration k' *)
    assert (Hwalk : forall d k, (k + d = k')%nat ->
              exists fuel g', generate_loop rand_seq seed fuel k g placed sr sc
                              = Some g').
    { induction d as [|d IHd]; intros k1 Hk1.
      - replace k1 with k' by lia.
        assert (Hg2 : exists fuel g',
                  generate_loop rand_seq seed fuel (S k')
                    (set_mines (grid_set (mines g) i j true) g)
                    (placed + 1) sr sc = Some g').
        { apply IHn; auto.
          - simpl. now rewrite grid_set_other by congruence.
          - simpl. lia.
          - rewrite count_mines_place by assumption. simpl. lia. }
        destruct Hg2 as (fuel & g' & Hg').
        exists (S fuel), g'. simpl.
        replace (placed <? mine_count g) with true by (symmetry; lia).
        unfold drawn in Hdraw. simpl in Hdraw. inversion Hdraw as [[Hr Hc]].
        rewrite Hr, Hc, Hfree.
        replace ((i =? sr) && (j =? sc)) with false; [exact Hg'|].
        symmetry. apply andb_false_iff.
        destruct (Z.eq_dec i sr) as [->|Hi]; [right|left]; apply Z.eqb_neq;
          congruence.
      - pose proof (drawn_valid seed g k1 Hw Hh) as Hv1.
        destruct (drawn rand_seq seed g k1) as [row col] eqn:Hd1. simpl in Hv1.
        unfold drawn in Hd1. simpl in Hd1. inversion Hd1 as [[Hr Hc]].
        destruct (((row =? sr) && (col =? sc)) || mines g row col) eqn:Hskip.
        + destruct (IHd (S k1)) as (fuel & g' & Hg'); [lia|].
          exists (S fuel), g'. simpl.
          replace (placed <? mine_count g) with true by (symmetry; lia).
          rewrite Hr, Hc, Hskip. exact Hg'.
        + apply orb_false_iff in Hskip. destruct Hskip as [Hne1 Hm1].
          assert (Hg2 : exists fuel g',
                    generate_loop rand_seq seed fuel (S k1)
                      (set_mines (grid_set (mines g) row col true) g)
                      (placed + 1) sr sc = Some g').
          { apply IHn; auto.
            - simpl. rewrite grid_set_other; auto.
              intros Heq. inversion Heq; subst.
              now rewrite !Z.eqb_refl in Hne1.
            - simpl. lia.
            - rewrite count_mines_place by assumption. simpl. lia. }
          destruct Hg2 as (fuel & g' & Hg').
          exists (S fuel), g'. simpl.
          replace (placed <? mine_count g) with true by (symmetry; lia).
          rewrite Hr, Hc, Hne1, Hm1. exact Hg'. }
    apply (Hwalk (k' - k)%nat k). lia.
Qed.

Lemma generate_mines_spec now fuel g sr sc g' :
  0 < width g -> 0 < height g -> 0 <= mine_count g ->
  mines g sr sc = false ->
  generate_mines rand_seq now fuel g sr sc = Some g' ->
  scalars g' = scalars g /\ state g' = state g
  /\ mines g' sr sc = false
  /\ count_mines g' = count_mines g + mine_count g
  /\ numbers_ok g'.
Proof.
  intros Hw Hh Hm Hst Hgen. unfold generate_mines in Hgen.
  destruct (generate_loop rand_seq now fuel 0 g 0 sr sc) as [g1|] eqn:Hloop;
    [|discriminate].
  inversion Hgen; subst g'. clear Hgen.
  apply generate_loop_spec in Hloop; auto.
  destruct Hloop as (Hs & Hs1 & Hs2 & Hs3 & Hs4 & Hs5).
  pose proof (calculate_numbers_scalars g1) as Hc.
  assert (Hd : same_dims g1 (calculate_numbers g1))
    by now apply scalars_same_dims.
  repeat split.
  - congruence.
  - now rewrite calculate_numbers_state.
  - now rewrite calculate_numbers_mines.
  - unfold count_mines. rewrite calculate_numbers_mines.
    rewrite (count_same g1 _ _ Hd). unfold count_mines in Hs4. lia.
  - intros i j Hv Hmine.
    rewrite (valid_same g1 _ _ _ Hd) in Hv.
    rewrite calculate_numbers_mines in Hmine.
    rewrite calculate_numbers_at by assumption.
    symmetry. apply count_adjacent_mines_ext; auto.
    intros. now rewrite calculate_numbers_mines.
Qed.

(** On a board with positive dimensions, a mine count that leaves a free
    cell and no mine placed yet: whenever [generate_mines] returns, the board
    holds exactly [mine_count] mine cells and the start cell is not one of
    them; and with a fair generator it does return. *)
Lemma generate_mines_safe (now : Z) (g : MinesweeperGame) (r c : Z) :
  0 < width g -> 0 < height g ->
  0 <= mine_count g < width g * height g ->
  board_empty g ->
  is_valid_position g r c = true ->
  (forall fuel g', generate_mines rand_seq now fuel g r c = Some g' ->
     count_mines g' = mine_count g /\ mines g' r c = false)
  /\ (fair rand_seq now g ->
      exists fuel g', generate_mines rand_seq now fuel g r c = Some g').
Proof.
  intros Hw Hh Hm Hempty Hv.
  assert (Hzero : count_mines g = 0) by (apply count_zero; exact Hempty).
  split.
  - intros fuel g' Hgen.
    apply generate_mines_spec in Hgen; auto; try lia.
    destruct Hgen as (_ & _ & Hsafe & Hcount & _). split; [lia | exact Hsafe].
  - intros Hfair.
    destruct (generate_loop_terminates now r c (Z.to_nat (mine_count g)) g 0%nat 0)
      as (fuel & g1 & Hloop); auto; rewrite ?Hzero.
    all: try lia. all: try (apply Hempty; exact Hv).
    exists fuel, (calculate_numbers g1). unfold generate_mines. now rewrite Hloop.
Qed.

End Generation.

(** * The cascade *)

Lemma hidden_at_iff g r c :
  hidden_at g r c = true
  <-> is_valid_position g r c = true /\ state g r c = CELL_HIDDEN.
Proof.
  unfold hidden_at. rewrite andb_true_iff, CellState_eqb_eq. tauto.
Qed.

Lemma evolves_refl g : evolves g g.
Proof. constructor; auto; try lia. intros; congruence. Qed.

Lemma evolves_trans g1 g2 g3 : evolves g1 g2 -> evolves g2 g3 -> evolves g1 g3.
Proof.
  intros [] [].
  constructor; try congruence; try lia; auto.
  - intros i j H1 H3.
    destruct (state g2 i j) eqn:H2.
    + apply ev_hidden0 in H2. congruence.
    + destruct (ev_flag_lost0 i j H1) as (_ & Hm & Hv); [congruence|].
      split; [auto | split; assumption].
    + destruct (ev_flag_lost1 i j H2 H3) as (Hr & Hm & Hv).
      split; [assumption|]. split; [congruence|].
      unfold is_valid_position in *. congruence.
  - intros Hover i j H1. apply ev_flags_kept1; auto.
    apply ev_flags_kept0; auto.
    destruct (game_over g2) eqn:Ho; auto.
    rewrite ev_over1 in Hover; auto.
Qed.

Lemma cell_cases (i j r c : Z) : (i = r /\ j = c) \/ (i, j) <> (r, c).
Proof.
  destruct (Z.eq_dec i r) as [->|Hi]; [|right; congruence].
  destruct (Z.eq_dec j c) as [->|Hj]; [left; auto | right; congruence].
Qed.

Lemma evolves_mark g r c :
  hidden_at g r c = true -> evolves g (mark_revealed g r c).
Proof.
  intros Hh. apply hidden_at_iff in Hh. destruct Hh as [Hv Hs].
  constructor; try reflexivity; simpl; try lia; auto; intros;
    (destruct (cell_cases i j r c) as [[-> ->]|Hne];
     [ rewrite ?grid_set_same in *; try congruence
     | rewrite ?grid_set_other in * by assumption; auto; try contradiction ]).
Qed.

Lemma evolves_loss g : evolves g (set_victory false (set_game_over true g)).
Proof.
  constructor; try reflexivity; simpl; auto; try lia; try discriminate.
  intros i j Hf Hn. contradiction.
Qed.

Lemma evolves_game_over_sequence now g : evolves g (game_over_sequence true now g).
Proof.
  pose proof (game_over_sequence_scalars true now g) as Hs.
  unfold scalars in Hs. injection Hs as Hw Hh Hm Hr Hf Ho Hvi Hfc.
  assert (Hst := game_over_sequence_state true now g).
  constructor; auto; try lia.
  - apply game_over_sequence_mines.
  - apply game_over_sequence_numbers.
  - intros i j H. rewrite Hst, H. now destruct (_ && _).
  - intros i j H. rewrite Hst in H.
    destruct (is_valid_position g i j && mines g i j); [discriminate | exact H].
  - intros i j H. rewrite Hst in H.
    destruct (is_valid_position g i j && mines g i j); [discriminate | exact H].
  - intros i j H Hn. rewrite Hst in *.
    destruct (is_valid_position g i j && mines g i j) eqn:Hb; [|contradiction].
    apply andb_true_iff in Hb. tauto.
  - congruence.
Qed.

Lemma evolves_settle now g : evolves g (settle now g).
Proof.
  unfold settle. destruct (check_victory g).
  - apply evolves_game_over_sequence.
  - apply evolves_refl.
Qed.

Lemma evolves_same_dims g g' : evolves g g' -> same_dims g g'.
Proof. intros []. split; assumption. Qed.

Lemma evolves_valid g g' i j :
  evolves g g' -> is_valid_position g' i j = is_valid_position g i j.
Proof. intros H. apply valid_same. now apply evolves_same_dims. Qed.

(** Every run of the cascade evolves the game. *)
Lemma cascade_evolves now :
  (forall g r c g', cascade_run now g r c g' -> evolves g g')
  /\ (forall g r c l g', adjacent_run now g r c l g' -> evolves g g').
Proof.
  apply cascade_mutind.
  - intros. apply evolves_refl.
  - intros g r c Hh Hm.
    eapply evolves_trans; [apply evolves_mark; exact Hh | apply evolves_loss].
  - intros g r c Hh Hm Hn.
    eapply evolves_trans; [apply evolves_mark; exact Hh | apply evolves_settle].
  - intros g r c g3 Hh Hm Hn Hadj IH.
    eapply evolves_trans; [apply evolves_mark; exact Hh|].
    eapply evolves_trans; [exact IH | apply evolves_settle].
  - intros. apply evolves_refl.
  - intros g r c d rest g1 g2 _ IH1 _ IH2. eapply evolves_trans; eassumption.
Qed.

Lemma numbers_ok_evolves g g' : evolves g g' -> numbers_ok g -> numbers_ok g'.
Proof.
  intros He Hok i j Hv Hm.
  rewrite (evolves_valid g g' i j He) in Hv.
  rewrite (ev_mines _ _ He) in Hm. rewrite (ev_numbers _ _ He).
  rewrite (Hok i j Hv Hm). symmetry.
  apply count_adjacent_mines_ext.
  - now apply evolves_same_dims.
  - intros. now rewrite (ev_mines _ _ He).
Qed.

(** A cell whose eight neighbours hold no mine. *)
Lemma count_adjacent_mines_acc g r c l z :
  z <= fold_left (fun count d =>
         if is_valid_position g (r + fst d) (c + snd d)
            && mines g (r + fst d) (c + snd d)
         then count + 1 else count) l z.
Proof.
  revert z. induction l as [|d l IH]; intros z; simpl; [lia|].
  destruct (_ && _); [specialize (IH (z + 1)) | specialize (IH z)]; lia.
Qed.

Lemma count_adjacent_mines_zero g r c :
  count_adjacent_mines g r c = 0 ->
  forall d, In d neighbour_offsets ->
  is_valid_position g (r + fst d) (c + snd d) = true ->
  mines g (r + fst d) (c + snd d) = false.
Proof.
  unfold count_adjacent_mines.
  assert (H : forall l z,
    fold_left (fun count d =>
         if is_valid_position g (r + fst d) (c + snd d)
            && mines g (r + fst d) (c + snd d)
         then count + 1 else count) l z = z ->
    forall d, In d l -> is_valid_position g (r + fst d) (c + snd d) = true ->
    mines g (r + fst d) (c + snd d) = false).
  { induction l as [|a l IH]; intros z Hz d Hin Hv; [destruct Hin|].
    simpl in Hz.
    destruct (is_valid_position g (r + fst a) (c + snd a)
              && mines g (r + fst a) (c + snd a)) eqn:Hb.
    - pose proof (count_adjacent_mines_acc g r c l (z + 1)). lia.
    - destruct Hin as [->|Hin]; [|eapply IH; eauto].
      rewrite Hv in Hb. exact Hb. }
  intros Hz. exact (H neighbour_offsets 0 Hz).
Qed.

(** ** The counter counts safe cells *)

Lemma safe_revealed_mark g r c :
  hidden_at g r c = true -> mines g r c = false ->
  safe_revealed (mark_revealed g r c) = safe_revealed g + 1.
Proof.
  intros Hh Hm. apply hidden_at_iff in Hh. destruct Hh as [Hv Hs].
  unfold safe_revealed.
  change (count_cells (mark_revealed g r c)) with (count_cells g).
  apply (count_flip g _ _ r c); auto.
  - now rewrite Hs.
  - simpl. now rewrite grid_set_same, Hm.
  - intros i j _ Hne. simpl. now rewrite grid_set_other.
Qed.

Lemma settle_fields now g :
  width (settle now g) = width g /\ height (settle now g) = height g
  /\ mine_count (settle now g) = mine_count g
  /\ revealed_count (settle now g) = revealed_count g
  /\ mines (settle now g) = mines g.
Proof.
  pose proof (evolves_settle now g) as [].
  unfold settle in *. destruct (check_victory g); auto 10.
  pose proof (game_over_sequence_scalars true now g) as Hs.
  unfold scalars in Hs. injection Hs as Hw Hh Hm Hr Hf Ho Hvi Hfc. auto 10.
Qed.

Lemma safe_revealed_settle now g : safe_revealed (settle now g) = safe_revealed g.
Proof.
  unfold settle. destruct (check_victory g); [|reflexivity].
  pose proof (evolves_game_over_sequence now g) as He.
  unfold safe_revealed.
  rewrite (count_same g _ _ (evolves_same_dims _ _ He)).
  apply count_ext. intros i j Hv.
  rewrite game_over_sequence_mines, game_over_sequence_state, Hv. simpl.
  destruct (mines g i j); simpl; [now rewrite !andb_false_r | reflexivity].
Qed.

Lemma non_mine_cells_evolves g g' :
  evolves g g' -> non_mine_cells g' = non_mine_cells g.
Proof. intros []. unfold non_mine_cells. congruence. Qed.

Lemma not_lost_mark g r c : not_lost g -> not_lost (mark_revealed g r c).
Proof.
  unfold not_lost, non_mine_cells. simpl. intros H Ho.
  destruct (H Ho). split; [assumption | lia].
Qed.

Lemma not_lost_settle now g : not_lost g -> not_lost (settle now g).
Proof.
  unfold settle. destruct (check_victory g) eqn:Hc; auto.
  intros _ _.
  pose proof (game_over_sequence_scalars true now g) as Hs.
  unfold scalars in Hs. injection Hs as Hw Hh Hm Hr Hf Ho Hvi Hfc.
  unfold non_mine_cells. rewrite Hw, Hh, Hm, Hr. split; [assumption|].
  unfold check_victory in Hc. lia.
Qed.

Lemma cascade_count now :
  (forall g r c g', cascade_run now g r c g' ->
     numbers_ok g ->
     (hidden_at g r c = true -> mines g r c = false) ->
     revealed_count g' - revealed_count g = safe_revealed g' - safe_revealed g
     /\ (not_lost g -> not_lost g'))
  /\ (forall g r c l g', adjacent_run now g r c l g' ->
     numbers_ok g ->
     (forall d, In d l ->
        is_valid_position g (r + fst d) (c + snd d) = true ->
        mines g (r + fst d) (c + snd d) = false) ->
     revealed_count g' - revealed_count g = safe_revealed g' - safe_revealed g
     /\ (not_lost g -> not_lost g')).
Proof.
  apply cascade_mutind.
  - intros. split; [lia | auto].
  - intros g r c Hh Hm _ Hsafe. rewrite (Hsafe Hh) in Hm. discriminate.
  - intros g r c Hh Hm Hn _ _.
    destruct (settle_fields now (mark_revealed g r c)) as (_ & _ & _ & Hr & _).
    rewrite Hr, safe_revealed_settle, safe_revealed_mark by assumption.
    split; [simpl; lia|].
    intros H. now apply not_lost_settle, not_lost_mark.
  - intros g r c g3 Hh Hm Hn Hadj IH Hok _.
    pose proof (evolves_mark g r c Hh) as He.
    destruct IH as [IHc IHl].
    + now apply (numbers_ok_evolves g).
    + apply hidden_at_iff in Hh. destruct Hh as [Hv _].
      apply (count_adjacent_mines_zero g r c). rewrite <- Hok; auto.
    + destruct (settle_fields now g3) as (_ & _ & _ & Hr & _).
      rewrite Hr, safe_revealed_settle.
      rewrite safe_revealed_mark in IHc by assumption. simpl in IHc.
      split; [lia|].
      intros H. now apply not_lost_settle, IHl, not_lost_mark.
  - intros. split; [lia | auto].
  - intros g r c d rest g1 g2 Hrun IH1 Hadj IH2 Hok Hsafe.
    pose proof (proj1 (cascade_evolves now) _ _ _ _ Hrun) as He.
    destruct IH1 as [IH1c IH1l]; auto.
    { intros Hh. apply hidden_at_iff in Hh. apply Hsafe; [now left | tauto]. }
    destruct IH2 as [IH2c IH2l].
    { now apply (numbers_ok_evolves g). }
    { intros d' Hin Hv. rewrite (ev_mines _ _ He).
      rewrite (evolves_valid g g1 _ _ He) in Hv. apply Hsafe; [now right | exact Hv]. }
    split; [lia | auto].
Qed.

(** ** Closure of the cascade *)

Lemma settle_state_safe now g i j :
  mines g i j = false -> state (settle now g) i j = state g i j.
Proof.
  intros Hm. unfold settle. destruct (check_victory g); [|reflexivity].
  rewrite game_over_sequence_state, Hm. now rewrite andb_false_r.
Qed.

Lemma mark_newly_revealed g r c i j :
  state g i j = CELL_HIDDEN ->
  state (mark_revealed g r c) i j = CELL_REVEALED ->
  i = r /\ j = c.
Proof.
  intros Hh Hr. destruct (cell_cases i j r c) as [|Hne]; auto.
  simpl in Hr. rewrite grid_set_other in Hr by assumption. congruence.
Qed.

Lemma closed_between_trans g g1 g2 :
  evolves g g1 -> evolves g1 g2 ->
  closed_between g g1 -> closed_between g1 g2 -> closed_between g g2.
Proof.
  intros He1 He2 H1 H2 i j Hv Hh Hr Hm Hn d Hd Hvd.
  destruct (state g1 i j) eqn:Hs1.
  - apply (H2 i j); auto.
    + now rewrite (evolves_valid g g1).
    + now rewrite (ev_mines _ _ He1).
    + now rewrite (ev_numbers _ _ He1).
    + now rewrite (evolves_valid g g1).
  - intros Hhid. apply (ev_hidden _ _ He2) in Hhid.
    revert Hhid. apply (H1 i j); auto.
  - apply (ev_flagged _ _ He1) in Hs1. congruence.
Qed.

Lemma cascade_closed now :
  (forall g r c g', cascade_run now g r c g' ->
     (is_valid_position g r c = true -> state g' r c <> CELL_HIDDEN)
     /\ closed_between g g')
  /\ (forall g r c l g', adjacent_run now g r c l g' ->
     (forall d, In d l ->
        is_valid_position g (r + fst d) (c + snd d) = true ->
        state g' (r + fst d) (c + snd d) <> CELL_HIDDEN)
     /\ closed_between g g').
Proof.
  apply cascade_mutind.
  - intros g r c Hh. split.
    + intros Hv Hs. unfold hidden_at in Hh. rewrite Hv, Hs in Hh. discriminate.
    + intros i j _ H1 H2. congruence.
  - intros g r c Hh Hm. split.
    + intros _. simpl. rewrite grid_set_same. discriminate.
    + intros i j _ H1 H2 Hmi.
      destruct (mark_newly_revealed g r c i j H1 H2) as [-> ->]. congruence.
  - intros g r c Hh Hm Hn. split.
    + intros _ Hs.
      apply (ev_hidden _ _ (evolves_settle now (mark_revealed g r c))) in Hs.
      simpl in Hs. rewrite grid_set_same in Hs. discriminate.
    + intros i j _ H1 H2 Hmi Hni.
      rewrite settle_state_safe in H2 by exact Hmi.
      destruct (mark_newly_revealed g r c i j H1 H2) as [-> ->]. congruence.
  - intros g r c g3 Hh Hm Hn Hadj [IHn IHc].
    pose proof (evolves_mark g r c Hh) as He1.
    pose proof (proj2 (cascade_evolves now) _ _ _ _ _ Hadj) as He2.
    pose proof (evolves_settle now g3) as He3.
    split.
    + intros _ Hs. apply (ev_hidden _ _ He3), (ev_hidden _ _ He2) in Hs.
      simpl in Hs. rewrite grid_set_same in Hs. discriminate.
    + intros i j Hv H1 H2 Hmi Hni d Hd Hvd Hs.
      apply (ev_hidden _ _ He3) in Hs.
      rewrite settle_state_safe in H2
        by (rewrite (ev_mines _ _ He2); exact Hmi).
      destruct (cell_cases i j r c) as [[-> ->]|Hne].
      * revert Hs. apply IHn; auto.
      * revert Hs. apply (IHc i j); auto.
        simpl. now rewrite grid_set_other.
  - intros g r c. split.
    + intros d [].
    + intros i j _ H1 H2. congruence.
  - intros g r c d rest g1 g2 Hrun [IH1n IH1c] Hadj [IH2n IH2c].
    pose proof (proj1 (cascade_evolves now) _ _ _ _ Hrun) as He1.
    pose proof (proj2 (cascade_evolves now) _ _ _ _ _ Hadj) as He2.
    split.
    + intros d' [->|Hin] Hv Hs.
      * apply (ev_hidden _ _ He2) in Hs. revert Hs. now apply IH1n.
      * revert Hs. apply IH2n; auto. now rewrite (evolves_valid g g1).
    + now apply (closed_between_trans g g1 g2).
Qed.

(** ** Nothing but the flooded cells is revealed *)

Lemma flood_lift g g0 r c y1 y2 x1 x2 :
  evolves g g0 ->
  flood g r c y1 y2 -> flood g0 y1 y2 x1 x2 -> flood g r c x1 x2.
Proof.
  intros He Hy Hx. induction Hx as [|i j i' j' _ IH Hm Hc Ha Hh]; auto.
  apply (flood_step g r c i j); auto.
  - now rewrite <- (ev_mines _ _ He).
  - rewrite <- Hc. symmetry. apply count_adjacent_mines_ext.
    + now apply evolves_same_dims.
    + intros. now rewrite (ev_mines _ _ He).
  - apply hidden_at_iff in Hh. destruct Hh as [Hv Hs]. apply hidden_at_iff.
    rewrite (evolves_valid g g0) in Hv by assumption.
    split; [assumption | now apply (ev_hidden _ _ He)].
Qed.

Lemma hidden_at_evolves g g' i j :
  evolves g g' -> hidden_at g' i j = true -> hidden_at g i j = true.
Proof.
  intros He Hh. apply hidden_at_iff in Hh. destruct Hh as [Hv Hs].
  apply hidden_at_iff. rewrite (evolves_valid g g') in Hv by assumption.
  split; [assumption | now apply (ev_hidden _ _ He)].
Qed.

Lemma offset_back (r c : Z) (d : Z * Z) :
  (r + fst d - r, c + snd d - c) = d.
Proof. destruct d as [a b]. simpl. f_equal; lia. Qed.

Lemma cascade_exact now :
  (forall g r c g', cascade_run now g r c g' ->
     numbers_ok g ->
     forall i j, state g i j = CELL_HIDDEN -> state g' i j = CELL_REVEALED ->
     mines g i j = false ->
     hidden_at g r c = true /\ flood g r c i j)
  /\ (forall g r c l g', adjacent_run now g r c l g' ->
     numbers_ok g ->
     forall i j, state g i j = CELL_HIDDEN -> state g' i j = CELL_REVEALED ->
     mines g i j = false ->
     exists d, In d l /\ hidden_at g (r + fst d) (c + snd d) = true
               /\ flood g (r + fst d) (c + snd d) i j).
Proof.
  apply cascade_mutind.
  - intros; congruence.
  - intros g r c Hh Hm _ i j H1 H2 Hmi.
    destruct (mark_newly_revealed g r c i j H1 H2) as [-> ->]. congruence.
  - intros g r c Hh Hm Hn _ i j H1 H2 Hmi.
    rewrite settle_state_safe in H2 by exact Hmi.
    destruct (mark_newly_revealed g r c i j H1 H2) as [-> ->].
    split; [assumption | constructor].
  - intros g r c g3 Hh Hm Hn Hadj IH Hok i j H1 H2 Hmi.
    pose proof (evolves_mark g r c Hh) as He1.
    pose proof (proj2 (cascade_evolves now) _ _ _ _ _ Hadj) as He2.
    split; [assumption|].
    rewrite settle_state_safe in H2
      by (rewrite (ev_mines _ _ He2); exact Hmi).
    destruct (cell_cases i j r c) as [[-> ->]|Hne]; [constructor|].
    destruct (IH (numbers_ok_evolves _ _ He1 Hok) i j) as (d & Hd & Hhd & Hfl);
      auto.
    { simpl. now rewrite grid_set_other. }
    apply (flood_lift g (mark_revealed g r c) r c
             (r + fst d) (c + snd d)); auto.
    apply (flood_step g r c r c); auto.
    + constructor.
    + rewrite <- Hok; auto. apply hidden_at_iff in Hh. tauto.
    + unfold adjacent_cells. now rewrite offset_back.
    + now apply (hidden_at_evolves g (mark_revealed g r c)).
  - intros; congruence.
  - intros g r c d rest g1 g2 Hrun IH1 Hadj IH2 Hok i j H1 H2 Hmi.
    pose proof (proj1 (cascade_evolves now) _ _ _ _ Hrun) as He1.
    destruct (state g1 i j) eqn:Hs1.
    + destruct (IH2 (numbers_ok_evolves _ _ He1 Hok) i j) as (d' & Hd' & Hhd & Hfl);
        auto.
      { now rewrite (ev_mines _ _ He1). }
      exists d'. split; [now right|]. split.
      * now apply (hidden_at_evolves g g1).
      * apply (flood_lift g g1 _ _ (r + fst d') (c + snd d')); auto.
        constructor.
    + destruct (IH1 Hok i j) as [Hhd Hfl]; auto.
      exists d. split; [now left | split; assumption].
    + apply (ev_flagged _ _ He1) in Hs1. congruence.
Qed.

(** * reveal_cell against its big-step reading *)

Section Reveal.

Variable rand_seq : Z -> nat -> N.

Lemma reveal_cell_rec_S depth fuel now g row col :
  reveal_cell_rec rand_seq (S depth) fuel now g row col =
  if negb (hidden_at g row col) then Some g
  else
    match
      (if first_click g
       then match generate_mines rand_seq now fuel g row col with
            | Some g1 => Some (set_first_click false (set_start_time now g1))
            | None => None
            end
       else Some g)
    with
    | None => None
    | Some g1 =>
        if mines g1 row col
        then Some (set_victory false (set_game_over true (mark_revealed g1 row col)))
        else
          match
            (if numbers g1 row col =? 0
             then reveal_adjacent_with (reveal_cell_rec rand_seq depth fuel now)
                    neighbour_offsets (mark_revealed g1 row col) row col
             else Some (mark_revealed g1 row col))
          with
          | None => None
          | Some g3 => Some (settle now g3)
          end
    end.
Proof.
  cbn [reveal_cell_rec]. unfold hidden_at. rewrite negb_andb. reflexivity.
Qed.

Lemma generate_loop_frame seed sr sc :
  forall fuel k g placed g',
  generate_loop rand_seq seed fuel k g placed sr sc = Some g' ->
  scalars g' = scalars g /\ state g' = state g.
Proof.
  induction fuel as [|fuel IH]; intros k g placed g' Hrun; simpl in Hrun;
    destruct (placed <? mine_count g).
  - discriminate.
  - inversion Hrun; auto.
  - destruct (_ || _); apply IH in Hrun; exact Hrun.
  - inversion Hrun; auto.
Qed.

Lemma generate_mines_frame now fuel g sr sc g' :
  generate_mines rand_seq now fuel g sr sc = Some g' ->
  scalars g' = scalars g /\ state g' = state g.
Proof.
  unfold generate_mines.
  destruct (generate_loop rand_seq now fuel 0 g 0 sr sc) as [g1|] eqn:Hl;
    [|discriminate].
  intros H. inversion H; subst. apply generate_loop_frame in Hl.
  rewrite calculate_numbers_scalars, calculate_numbers_state. exact Hl.
Qed.

Lemma first_click_prepare_hidden fuel now g r c g1 :
  first_click_prepare rand_seq fuel now g r c = Some g1 ->
  hidden_at g1 r c = hidden_at g r c
  /\ cells g1 = cells g
  /\ (hidden_at g r c = true -> first_click g1 = false).
Proof.
  unfold first_click_prepare. fold (hidden_at g r c).
  destruct (hidden_at g r c) eqn:Hh; simpl.
  - destruct (first_click g) eqn:Hf.
    + destruct (generate_mines rand_seq now fuel g r c) as [g0|] eqn:Hg;
        [|discriminate].
      intros H. inversion H; subst. clear H.
      apply generate_mines_frame in Hg. destruct Hg as [Hs Hst].
      apply scalars_inv in Hs. destruct Hs as (Hw & Hhe & _).
      repeat split; auto.
      * unfold hidden_at, is_valid_position in *. simpl.
        now rewrite Hw, Hhe, Hst.
      * unfold cells. simpl. now rewrite Hw, Hhe.
    + intros H. inversion H; subst. auto.
  - intros H. inversion H; subst. repeat split; auto. discriminate.
Qed.

(** A first reveal is the preparation followed by an ordinary reveal. *)
Lemma reveal_cell_rec_prepare depth fuel now g r c :
  reveal_cell_rec rand_seq (S depth) fuel now g r c =
  match first_click_prepare rand_seq fuel now g r c with
  | Some g1 => reveal_cell_rec rand_seq (S depth) fuel now g1 r c
  | None => None
  end.
Proof.
  destruct (first_click_prepare rand_seq fuel now g r c) as [g1|] eqn:Hp.
  - destruct (first_click_prepare_hidden _ _ _ _ _ _ Hp) as (Hh1 & _ & Hf1).
    unfold first_click_prepare in Hp. fold (hidden_at g r c) in Hp.
    destruct (hidden_at g r c) eqn:Hh; cbn [andb] in Hp.
    + destruct (first_click g) eqn:Hf; [|now inversion Hp; subst].
      rewrite (reveal_cell_rec_S depth fuel now g r c), Hh, Hf.
      rewrite (reveal_cell_rec_S depth fuel now g1 r c), Hh1, (Hf1 eq_refl).
      destruct (generate_mines rand_seq now fuel g r c) as [g0|]; [|discriminate].
      inversion Hp; subst. reflexivity.
    + now inversion Hp; subst.
  - rewrite reveal_cell_rec_S.
    unfold first_click_prepare in Hp. fold (hidden_at g r c) in Hp.
    destruct (hidden_at g r c) eqn:Hh; cbn [andb] in Hp; [|discriminate].
    destruct (first_click g) eqn:Hf; [|discriminate].
    destruct (generate_mines rand_seq now fuel g r c); [discriminate|reflexivity].
Qed.

Lemma reveal_adjacent_with_run now rc :
  (forall g r c g', first_click g = false -> rc g r c = Some g' ->
                    cascade_run now g r c g') ->
  forall l g row col g',
  first_click g = false ->
  reveal_adjacent_with rc l g row col = Some g' ->
  adjacent_run now g row col l g'.
Proof.
  intros Hrc. induction l as [|d l IH]; intros g row col g' Hf Hrun; simpl in Hrun.
  - inversion Hrun; subst. constructor.
  - fold (hidden_at g (row + fst d) (col + snd d)) in Hrun.
    destruct (hidden_at g (row + fst d) (col + snd d)) eqn:Hh.
    + destruct (rc g (row + fst d) (col + snd d)) as [g1|] eqn:Hg1;
        [|discriminate].
      apply Hrc in Hg1; auto.
      apply (adj_cons now g row col d l g1 g'); auto.
      apply IH; auto.
      rewrite (ev_first_click _ _ (proj1 (cascade_evolves now) _ _ _ _ Hg1)).
      exact Hf.
    + apply (adj_cons now g row col d l g g'); auto.
      now apply run_skip.
Qed.

Lemma reveal_cell_rec_run fuel now :
  forall depth g r c g',
  first_click g = false ->
  reveal_cell_rec rand_seq depth fuel now g r c = Some g' ->
  cascade_run now g r c g'.
Proof.
  induction depth as [|depth IH]; intros g r c g' Hf Hrun; [discriminate|].
  rewrite reveal_cell_rec_S, Hf in Hrun.
  destruct (hidden_at g r c) eqn:Hh; cbn [negb] in Hrun.
  2:{ inversion Hrun; subst. now apply run_skip. }
  destruct (mines g r c) eqn:Hm.
  { inversion Hrun; subst. now apply run_mine. }
  destruct (numbers g r c =? 0) eqn:Hn.
  - destruct (reveal_adjacent_with _ _ _ _ _) as [g3|] eqn:Hadj; [|discriminate].
    inversion Hrun; subst. apply Z.eqb_eq in Hn.
    apply run_zero; auto.
    apply (reveal_adjacent_with_run now _ (IH)) in Hadj; auto.
  - inversion Hrun; subst. apply Z.eqb_neq in Hn. now apply run_numbered.
Qed.

(** ** The nesting bound is enough *)

Lemma hidden_count_evolves g g' : evolves g g' -> hidden_count g' <= hidden_count g.
Proof.
  intros He. unfold hidden_count.
  rewrite (count_same g g' _ (evolves_same_dims _ _ He)).
  apply count_mono. intros i j _ H.
  apply CellState_eqb_eq in H. apply CellState_eqb_eq.
  now apply (ev_hidden _ _ He).
Qed.

Lemma hidden_count_mark g r c :
  hidden_at g r c = true ->
  hidden_count g = hidden_count (mark_revealed g r c) + 1.
Proof.
  intros Hh. apply hidden_at_iff in Hh. destruct Hh as [Hv Hs].
  unfold hidden_count.
  change (count_cells (mark_revealed g r c)) with (count_cells g).
  apply (count_flip g _ _ r c); auto.
  - simpl. now rewrite grid_set_same.
  - now rewrite Hs.
  - intros i j _ Hne. simpl. now rewrite grid_set_other.
Qed.

Lemma hidden_count_le g : hidden_count g <= Z.of_nat (length (cells g)).
Proof. unfold hidden_count, count_cells. apply inj_le, filter_length_le. Qed.

Lemma reveal_cell_rec_enough fuel now :
  forall depth g r c,
  first_click g = false ->
  hidden_count g < Z.of_nat depth ->
  exists g', reveal_cell_rec rand_seq depth fuel now g r c = Some g'.
Proof.
  induction depth as [|depth IH]; intros g r c Hf Hc.
  { pose proof (count_nonneg g (fun i j => CellState_eqb (state g i j) CELL_HIDDEN)).
    unfold hidden_count in Hc. lia. }
  rewrite reveal_cell_rec_S, Hf.
  destruct (hidden_at g r c) eqn:Hh; cbn [negb]; [|eauto].
  destruct (mines g r c); [eauto|].
  destruct (numbers g r c =? 0); [|eauto].
  assert (Hadj : forall l g0, first_click g0 = false ->
            hidden_count g0 < Z.of_nat depth ->
            exists g', reveal_adjacent_with (reveal_cell_rec rand_seq depth fuel now)
                         l g0 r c = Some g').
  { induction l as [|d l IHl]; intros g0 Hf0 Hc0; simpl; [eauto|].
    destruct (is_valid_position g0 (r + fst d) (c + snd d)
              && CellState_eqb (state g0 (r + fst d) (c + snd d)) CELL_HIDDEN).
    - destruct (IH g0 (r + fst d) (c + snd d) Hf0 Hc0) as [g1 Hg1].
      rewrite Hg1.
      pose proof (reveal_cell_rec_run _ _ _ _ _ _ _ Hf0 Hg1) as Hrun.
      pose proof (proj1 (cascade_evolves now) _ _ _ _ Hrun) as He.
      apply IHl.
      + now rewrite (ev_first_click _ _ He).
      + pose proof (hidden_count_evolves _ _ He). lia.
    - now apply IHl. }
  destruct (Hadj neighbour_offsets (mark_revealed g r c)) as [g3 Hg3]; auto.
  - pose proof (hidden_count_mark g r c Hh). lia.
  - rewrite Hg3. eauto.
Qed.

(** [reveal_cell] returns exactly when the preparation of the first click
    does, and what it returns is a run of the cascade on the prepared
    game. *)
Lemma reveal_cell_run fuel now g r c g' :
  reveal_cell rand_seq fuel now g r c = Some g' ->
  exists g1, first_click_prepare rand_seq fuel now g r c = Some g1
             /\ cascade_run now g1 r c g'.
Proof.
  unfold reveal_cell. rewrite reveal_cell_rec_prepare.
  destruct (first_click_prepare rand_seq fuel now g r c) as [g1|] eqn:Hp;
    [|discriminate].
  intros Hrun. exists g1. split; [reflexivity|].
  destruct (first_click_prepare_hidden _ _ _ _ _ _ Hp) as (Hh1 & _ & Hf1).
  destruct (hidden_at g r c) eqn:Hh.
  - apply (reveal_cell_rec_run _ _ _ _ _ _ _ (Hf1 eq_refl) Hrun).
  - rewrite reveal_cell_rec_S, Hh1 in Hrun. cbn [negb] in Hrun.
    inversion Hrun; subst. now apply run_skip.
Qed.

Lemma reveal_cell_total fuel now g r c g1 :
  first_click_prepare rand_seq fuel now g r c = Some g1 ->
  exists g', reveal_cell rand_seq fuel now g r c = Some g'.
Proof.
  intros Hp. unfold reveal_cell. rewrite reveal_cell_rec_prepare, Hp.
  destruct (first_click_prepare_hidden _ _ _ _ _ _ Hp) as (Hh1 & Hc1 & Hf1).
  destruct (hidden_at g r c) eqn:Hh.
  - apply reveal_cell_rec_enough; [now apply Hf1|].
    pose proof (hidden_count_le g1). rewrite Hc1 in *. lia.
  - rewrite reveal_cell_rec_S, Hh1. cbn [negb]. eauto.
Qed.

End Reveal.

(** * Sessions keep their invariant *)

Lemma safe_revealed_le g :
  0 < width g -> 0 < height g ->
  safe_revealed g <= width g * height g - count_mines g.
Proof.
  intros Hw Hh.
  pose proof (count_complement g (mines g)) as Hc. unfold count_mines.
  assert (safe_revealed g <= count_cells g (fun i j => negb (mines g i j))).
  { apply count_mono. intros i j _ H. apply andb_true_iff in H. tauto. }
  lia.
Qed.

Lemma custom_difficulty_play g0 in_w in_h in_m g :
  custom_difficulty g0 in_w in_h in_m = Play g <->
  exists w h m,
    in_w = Some w /\ in_h = Some h /\ in_m = Some m
    /\ MIN_WIDTH <= w <= MAX_WIDTH /\ MIN_HEIGHT <= h <= MAX_HEIGHT
    /\ 1 <= m <= Z.quot (w * h) 4
    /\ g = reset_round (set_mine_count m (set_height h (set_width w g0))).
Proof.
  unfold custom_difficulty. split.
  - destruct in_w as [w|]; [|discriminate]. cbn [width set_width].
    destruct ((w <? MIN_WIDTH) || (w >? MAX_WIDTH)) eqn:Hbw; [discriminate|].
    destruct in_h as [h|]; [|discriminate].
    cbn [height width set_height set_width].
    destruct ((h <? MIN_HEIGHT) || (h >? MAX_HEIGHT)) eqn:Hbh; [discriminate|].
    destruct in_m as [m|]; [|discriminate].
    cbn [mine_count set_mine_count].
    destruct ((m <? 1) || (m >? Z.quot (w * h) 4)) eqn:Hbm; [discriminate|].
    intros H. inversion H; subst. exists w, h, m.
    apply orb_false_iff in Hbw, Hbh, Hbm. repeat split; auto; lia.
  - intros (w & h & m & -> & -> & -> & Hw & Hh & Hm & ->).
    cbn [width set_width].
    replace ((w <? MIN_WIDTH) || (w >? MAX_WIDTH)) with false
      by (symmetry; apply orb_false_iff; lia).
    cbn [height width set_height set_width].
    replace ((h <? MIN_HEIGHT) || (h >? MAX_HEIGHT)) with false
      by (symmetry; apply orb_false_iff; lia).
    cbn [mine_count set_mine_count].
    replace ((m <? 1) || (m >? Z.quot (w * h) 4)) with false
      by (symmetry; apply orb_false_iff; lia).
    reflexivity.
Qed.

Lemma inv_reset_round g :
  0 < width g -> 0 < height g -> 0 < mine_count g < width g * height g ->
  session_inv (reset_round g) false.
Proof.
  intros Hw Hh Hm.
  pose proof (reset_round_scalars g) as Hs. unfold scalars in Hs.
  injection Hs as Ew Eh Em Er Ef Eo Ev Ec.
  assert (Hd : same_dims g (reset_round g)) by (split; assumption).
  assert (Hclear : forall i j, is_valid_position (reset_round g) i j = true ->
            mines (reset_round g) i j = false
            /\ state (reset_round g) i j = CELL_HIDDEN).
  { intros i j Hv. rewrite (valid_same _ _ _ _ Hd) in Hv.
    destruct (reset_round_cleared g i j Hv) as (H1 & H2 & _). auto. }
  assert (Hsafe : safe_revealed (reset_round g) = 0).
  { apply count_zero. intros i j Hv. destruct (Hclear i j Hv) as [_ H2].
    now rewrite H2. }
  constructor; rewrite ?Ew, ?Eh, ?Em, ?Er, ?Ef, ?Eo, ?Ec; try lia;
    try discriminate.
  - intros _. repeat split; auto.
    + intros i j Hv. now apply Hclear.
    + intros i j Hv. destruct (Hclear i j Hv) as [_ H2]. congruence.
  - intros _. split; [reflexivity|]. unfold non_mine_cells.
    rewrite Ew, Eh, Em. lia.
Qed.

Lemma inv_configured g : configured g -> session_inv g false.
Proof.
  intros [g0 diff Hd | g0 in_w in_h in_m g1 Hc].
  - unfold setup_difficulty.
    destruct diff; [| | |congruence]; apply inv_reset_round; simpl; lia.
  - apply custom_difficulty_play in Hc.
    destruct Hc as (w & h & m & _ & _ & _ & Hw & Hh & Hm & ->).
    unfold MIN_WIDTH, MAX_WIDTH, MIN_HEIGHT, MAX_HEIGHT in *.
    assert (Hq : Z.quot (w * h) 4 = w * h / 4)
      by (apply Z.quot_div_nonneg; nia).
    pose proof (Z.mul_div_le (w * h) 4 ltac:(lia)).
    apply inv_reset_round; simpl; try lia.
Qed.

(** ** Flag commands *)

Lemma inv_restate g hit r c X f :
  session_inv g hit -> game_over g = false ->
  state g r c <> CELL_REVEALED -> X <> CELL_REVEALED ->
  f <= mine_count g ->
  session_inv (set_flags_placed f (set_state (grid_set (state g) r c X) g)) hit.
Proof.
  intros [] Ho Hs HX Hf.
  assert (Hsafe : safe_revealed
            (set_flags_placed f (set_state (grid_set (state g) r c X) g))
          = safe_revealed g).
  { unfold safe_revealed.
    change (count_cells (set_flags_placed f _)) with (count_cells g).
    apply count_ext. intros i j _. simpl.
    destruct (cell_cases i j r c) as [[-> ->]|Hne].
    - rewrite grid_set_same.
      apply CellState_eqb_neq in Hs, HX. now rewrite Hs, HX.
    - now rewrite grid_set_other. }
  constructor; auto; try (simpl; congruence).
  intros Hfc. destruct (inv_fresh0 Hfc) as (H1 & H2 & H3 & H4).
  repeat split; auto.
  intros i j Hv. simpl.
  destruct (cell_cases i j r c) as [[-> ->]|Hne].
  - now rewrite grid_set_same.
  - rewrite grid_set_other by assumption. now apply H2.
Qed.

Lemma inv_toggle_flag g hit r c :
  session_inv g hit -> game_over g = false ->
  session_inv (toggle_flag g r c) hit.
Proof.
  intros Hinv Ho. unfold toggle_flag.
  destruct (negb (is_valid_position g r c)
            || CellState_eqb (state g r c) CELL_REVEALED) eqn:Hguard; auto.
  apply orb_false_iff in Hguard. destruct Hguard as [_ Hr].
  apply CellState_eqb_neq in Hr.
  destruct (CellState_eqb (state g r c) CELL_FLAGGED) eqn:Hf.
  - apply inv_restate; auto; try discriminate.
    pose proof (inv_flags _ _ Hinv). lia.
  - destruct (flags_placed g <? mine_count g) eqn:Hlt; auto.
    apply inv_restate; auto; try discriminate. lia.
Qed.

(** ** Reveal commands *)

Lemma safe_reveal_shape now g r c g' :
  cascade_run now g r c g' ->
  hidden_at g r c = true -> mines g r c = false -> numbers_ok g ->
  exists gx,
    g' = settle now gx /\ evolves g gx
    /\ revealed_count gx - revealed_count g = safe_revealed gx - safe_revealed g
    /\ (not_lost g -> not_lost gx)
    /\ revealed_count g < revealed_count gx.
Proof.
  intros Hrun Hh Hm Hok.
  pose proof (evolves_mark g r c Hh) as He1.
  inversion Hrun; subst; try congruence.
  - exists (mark_revealed g r c).
    split; [reflexivity|]. split; [exact He1|]. split; [|split].
    + rewrite safe_revealed_mark by assumption. simpl. lia.
    + apply not_lost_mark.
    + simpl. lia.
  - exists g3.
    match goal with
    | Hadj : adjacent_run _ _ _ _ _ _ |- _ => rename Hadj into Hrun_adj
    end.
    pose proof (proj2 (cascade_evolves now) _ _ _ _ _ Hrun_adj) as He2.
    destruct (proj2 (cascade_count now) _ _ _ _ _ Hrun_adj) as [Hc Hl].
    { now apply (numbers_ok_evolves g). }
    { apply hidden_at_iff in Hh. destruct Hh as [Hv _].
      apply (count_adjacent_mines_zero g r c). rewrite <- Hok; auto. }
    rewrite safe_revealed_mark in Hc by assumption. simpl in Hc.
    split; [reflexivity|]. split; [|split; [|split]].
    + eapply evolves_trans; eassumption.
    + lia.
    + intros Hnl. now apply Hl, not_lost_mark.
    + pose proof (ev_count _ _ He2) as Hle. simpl in Hle. lia.
Qed.

Lemma ready_reveal now g r c g' :
  ready g -> hidden_at g r c = true ->
  cascade_run now g r c g' ->
  session_inv g' (mines g r c) /\ evolves g g'.
Proof.
  intros [] Hh Hrun.
  pose proof (proj1 (cascade_evolves now) _ _ _ _ Hrun) as He.
  split; [|exact He].
  pose proof (safe_revealed_le g rd_width0 rd_height0) as Hbound.
  unfold non_mine_cells in *.
  destruct (mines g r c) eqn:Hm.
  - (* the reveal lands on a mine *)
    inversion Hrun; subst; try congruence.
    assert (Hs : safe_revealed (set_victory false (set_game_over true
                   (mark_revealed g r c))) = safe_revealed g).
    { unfold safe_revealed.
      change (count_cells (set_victory false _)) with (count_cells g).
      apply count_ext. intros i j _. simpl.
      destruct (cell_cases i j r c) as [[-> ->]|Hne].
      - rewrite Hm. apply hidden_at_iff in Hh. destruct Hh as [_ Hs].
        rewrite Hs. simpl. now rewrite andb_false_r.
      - now rewrite grid_set_other. }
    constructor.
    + simpl; lia.
    + simpl; lia.
    + simpl; lia.
    + simpl; lia.
    + simpl. congruence.
    + intros _. split; [exact rd_count_mines0 | exact rd_numbers0].
    + rewrite Hs. simpl. lia.
    + simpl. discriminate.
    + simpl. discriminate.
    + intros _ _. split; [reflexivity | unfold non_mine_cells; simpl; lia].
  - (* the reveal lands on a safe cell *)
    destruct (safe_reveal_shape now g r c g' Hrun Hh Hm rd_numbers0)
      as (gx & -> & Hex & Hcx & Hlx & Hgrow).
    pose proof (evolves_settle now gx) as Hes.
    destruct (settle_fields now gx) as (Sw & Sh & Sm & Sr & Smi).
    pose proof (safe_revealed_settle now gx) as Ssafe.
    assert (Hnl : not_lost gx).
    { apply Hlx. intros Ho. congruence. }
    assert (Hcm : count_mines gx = mine_count gx).
    { unfold count_mines. rewrite (ev_mines _ _ Hex).
      rewrite (count_same g gx _ (evolves_same_dims _ _ Hex)).
      rewrite (ev_mine_count _ _ Hex). exact rd_count_mines0. }
    pose proof (safe_revealed_le gx) as Hbx.
    rewrite (ev_width _ _ Hex), (ev_height _ _ Hex), Hcm,
      (ev_mine_count _ _ Hex) in Hbx.
    assert (Hrx : revealed_count gx = safe_revealed gx) by lia.
    assert (Hle : revealed_count gx <= width g * height g - mine_count g) by lia.
    assert (Hover : game_over (settle now gx) = true ->
              victory (settle now gx) = true
              /\ revealed_count gx = width g * height g - mine_count g
              /\ check_victory gx = true).
    { intros Ho. unfold settle in *.
      destruct (check_victory gx) eqn:Hc.
      - pose proof (game_over_sequence_scalars true now gx) as Hs.
        unfold scalars in Hs. injection Hs as _ _ _ _ _ _ Hv _.
        unfold check_victory in Hc.
        rewrite (ev_width _ _ Hex), (ev_height _ _ Hex),
          (ev_mine_count _ _ Hex) in Hc. split; [exact Hv | lia].
      - destruct (Hnl Ho) as [Hv Hn]. unfold non_mine_cells in Hn.
        rewrite (ev_width _ _ Hex), (ev_height _ _ Hex),
          (ev_mine_count _ _ Hex) in Hn.
        unfold check_victory in Hc.
        rewrite (ev_width _ _ Hex), (ev_height _ _ Hex),
          (ev_mine_count _ _ Hex) in Hc. lia. }
    constructor; unfold non_mine_cells;
      rewrite ?Sw, ?Sh, ?Sm, ?Sr, ?Ssafe,
        ?(ev_width _ _ Hex), ?(ev_height _ _ Hex), ?(ev_mine_count _ _ Hex).
    + lia.
    + lia.
    + lia.
    + rewrite (ev_flags_placed _ _ He). exact rd_flags0.
    + rewrite (ev_first_click _ _ He), rd_first0. discriminate.
    + intros _. split.
      * unfold count_mines. rewrite (ev_mines _ _ He).
        rewrite (count_same g _ _ (evolves_same_dims _ _ He)).
        exact rd_count_mines0.
      * now apply (numbers_ok_evolves g).
    + lia.
    + intros Ho. split; [reflexivity|].
      assert (Hc : check_victory gx = false).
      { unfold settle in Ho. destruct (check_victory gx) eqn:Hc; auto.
        pose proof (game_over_sequence_scalars true now gx) as Hs.
        unfold scalars in Hs. injection Hs as _ _ _ _ _ Hgo _ _. congruence. }
      unfold check_victory in Hc.
      rewrite (ev_width _ _ Hex), (ev_height _ _ Hex),
        (ev_mine_count _ _ Hex) in Hc. lia.
    + intros Ho _. destruct (Hover Ho) as (_ & Hn & Hc).
      split; [reflexivity|]. split; [lia|].
      intros i j Hv Hmi. unfold settle. rewrite Hc.
      rewrite game_over_sequence_state.
      rewrite (valid_same gx _ _ _ (evolves_same_dims _ _ Hes)) in Hv.
      rewrite Smi in Hmi. now rewrite Hv, Hmi.
    + intros Ho Hv. destruct (Hover Ho) as (Hv' & _). congruence.
Qed.

Section SessionInvariant.

Variable rand_seq : Z -> nat -> N.

Lemma first_click_prepare_skip fuel now g r c :
  hidden_at g r c = false ->
  first_click_prepare rand_seq fuel now g r c = Some g.
Proof.
  intros Hh. unfold first_click_prepare. fold (hidden_at g r c).
  now rewrite Hh.
Qed.

Lemma first_click_prepare_later fuel now g r c :
  first_click g = false ->
  first_click_prepare rand_seq fuel now g r c = Some g.
Proof.
  intros Hf. unfold first_click_prepare. rewrite Hf.
  now rewrite andb_false_r.
Qed.

Lemma prepare_ready fuel now g hit r c g1 :
  session_inv g hit -> game_over g = false -> hidden_at g r c = true ->
  first_click_prepare rand_seq fuel now g r c = Some g1 ->
  ready g1 /\ hidden_at g1 r c = true
  /\ (first_click g = true -> mines g1 r c = false)
  /\ (first_click g = false -> g1 = g)
  /\ state g1 = state g
  /\ width g1 = width g /\ height g1 = height g
  /\ mine_count g1 = mine_count g /\ flags_placed g1 = flags_placed g
  /\ revealed_count g1 = revealed_count g.
Proof.
  intros Hinv Ho Hh Hp.
  destruct (inv_running _ _ Hinv Ho) as [-> Hroom].
  pose proof (inv_count _ _ Hinv) as Hcount. simpl in Hcount.
  destruct (first_click g) eqn:Hf.
  - unfold first_click_prepare in Hp. fold (hidden_at g r c) in Hp.
    rewrite Hh, Hf in Hp. cbn [andb] in Hp.
    destruct (generate_mines rand_seq now fuel g r c) as [g0|] eqn:Hg;
      [|discriminate].
    inversion Hp; subst g1. clear Hp.
    destruct (inv_fresh _ _ Hinv Hf) as (Hempty & Hnorev & Hzero & _).
    pose proof (hidden_at_iff g r c) as Hhi. apply Hhi in Hh.
    destruct Hh as [Hv Hs].
    apply generate_mines_spec in Hg;
      [| apply (inv_width _ _ Hinv) | apply (inv_height _ _ Hinv)
       | pose proof (inv_mines _ _ Hinv); lia | now apply Hempty].
    destruct Hg as (Hsc & Hst & Hsafe & Hcm & Hok).
    apply scalars_inv in Hsc.
    destruct Hsc as (Ew & Eh & Em & Er & Efl & Eo & Ev & Ec).
    assert (Hcm0 : count_mines g = 0) by (apply count_zero; exact Hempty).
    assert (Hd : same_dims g g0) by (split; assumption).
    assert (Hs0 : safe_revealed g0 = 0).
    { apply count_zero. intros i j Hvi. rewrite Hst.
      rewrite (valid_same g g0 _ _ Hd) in Hvi.
      apply Hnorev in Hvi. apply CellState_eqb_neq in Hvi. now rewrite Hvi. }
    split; [|split; [|split; [|split; [|split]]]].
    + constructor; simpl; rewrite ?Ew, ?Eh, ?Em, ?Er, ?Efl, ?Eo;
        try apply (inv_width _ _ Hinv); try apply (inv_height _ _ Hinv);
        try apply (inv_mines _ _ Hinv); try apply (inv_flags _ _ Hinv); auto.
      * change (count_mines g0 = mine_count g). lia.
      * change (safe_revealed (set_first_click false (set_start_time now g0)))
          with (safe_revealed g0). lia.
      * unfold non_mine_cells in *. simpl. now rewrite Ew, Eh, Em.
    + apply hidden_at_iff. simpl. rewrite Hst.
      unfold is_valid_position in *. simpl. now rewrite Ew, Eh.
    + intros _. exact Hsafe.
    + discriminate.
    + exact Hst.
    + simpl. auto.
  - rewrite first_click_prepare_later in Hp by assumption.
    inversion Hp; subst g1. clear Hp.
    destruct (inv_placed _ _ Hinv Hf) as [Hcm Hok].
    split; [|split; [|split; [|split; [|split]]]]; auto; try discriminate.
    constructor; auto; try apply Hinv. lia.
Qed.

Lemma inv_reveal fuel now g hit r c g' :
  session_inv g hit -> game_over g = false ->
  reveal_cell rand_seq fuel now g r c = Some g' ->
  session_inv g' (hit || hidden_at g r c && mines g' r c).
Proof.
  intros Hinv Ho Hrev.
  destruct (reveal_cell_run _ _ _ _ _ _ _ Hrev) as (g1 & Hp & Hrun).
  destruct (hidden_at g r c) eqn:Hh.
  - destruct (prepare_ready _ _ _ _ _ _ _ Hinv Ho Hh Hp) as (Hr & Hh1 & _).
    destruct (ready_reveal now g1 r c g' Hr Hh1 Hrun) as [Hinv' He].
    destruct (inv_running _ _ Hinv Ho) as [-> _].
    rewrite (ev_mines _ _ He). exact Hinv'.
  - rewrite first_click_prepare_skip in Hp by assumption.
    inversion Hp; subst g1.
    inversion Hrun; subst; try congruence.
    now rewrite orb_false_r.
Qed.

Lemma inv_run_command fuel now cmd g hit g' :
  session_inv g hit -> game_over g = false ->
  run_command rand_seq fuel now cmd g = Some g' ->
  session_inv g' (hit || reveals_mine cmd g g').
Proof.
  intros Hinv Ho Hrun. destruct cmd as [r c|r c| | |]; simpl in Hrun.
  - now apply (inv_reveal fuel now).
  - inversion Hrun; subst. simpl. rewrite orb_false_r.
    now apply inv_toggle_flag.
  - inversion Hrun; subst. simpl. now rewrite orb_false_r.
  - inversion Hrun; subst. simpl. now rewrite orb_false_r.
  - inversion Hrun; subst. simpl. now rewrite orb_false_r.
Qed.

(** Every state of a session satisfies the invariant. *)
Lemma in_session_inv g hit : in_session rand_seq g hit -> session_inv g hit.
Proof.
  induction 1 as [g Hc | g hit fuel now cmd g' _ IH Ho Hrun].
  - now apply inv_configured.
  - now apply (inv_run_command fuel now).
Qed.

(** The states [play_game_loop] goes through are states of the session. *)
Lemma play_game_loop_in_session fuel inputs :
  forall g hit g',
  in_session rand_seq g hit ->
  play_game_loop rand_seq fuel inputs g = Some g' ->
  exists hit', in_session rand_seq g' hit'.
Proof.
  induction inputs as [|[now cmd] rest IH]; intros g hit g' Hs Hrun; simpl in Hrun.
  - inversion Hrun; subst. eauto.
  - destruct (game_over g) eqn:Ho.
    { inversion Hrun; subst. eauto. }
    assert (Hstep : forall g1,
              run_command rand_seq fuel now cmd g = Some g1 ->
              play_game_loop rand_seq fuel rest g1 = Some g' ->
              exists hit', in_session rand_seq g' hit').
    { intros g1 H1 H2. eapply IH; [|exact H2].
      eapply session_step; eassumption. }
    destruct cmd; try (inversion Hrun; subst; eauto; fail);
      match type of Hrun with
      | match ?o with _ => _ end = _ =>
          destruct o as [g1|] eqn:H1; [|discriminate]; eapply Hstep; eauto
      end.
Qed.

End SessionInvariant.

(** * The properties of the specification *)

Section Claims.

Variable rand_seq : Z -> nat -> N.

Lemma spec_status_won g :
  spec_status g = Won <-> game_over g = true /\ victory g = true.
Proof.
  unfold spec_status.
  destruct (game_over g), (victory g), (first_click g); split;
    try discriminate; intuition discriminate.
Qed.

Lemma spec_status_lost g :
  spec_status g = Lost <-> game_over g = true /\ victory g = false.
Proof.
  unfold spec_status.
  destruct (game_over g), (victory g), (first_click g); split;
    try discriminate; intuition discriminate.
Qed.

(** C1 (safe first click).  On every board a session has configured and
    not yet opened, and for every first-reveal coordinate [(r, c)] of the
    board: whenever [generate_mines] returns, the board holds exactly
    [mine_count] mine cells, all distinct, and [(r, c)] is not one of them;
    with a fair generator it does return; and the first reveal, when it
    returns, has not landed on a mine and has not lost the game. *)
Theorem generate_mines_safe_first_click (now : Z) (g : MinesweeperGame)
    (hit : bool) (r c : Z) :
  in_session rand_seq g hit -> first_click g = true ->
  is_valid_position g r c = true ->
  (forall fuel g', generate_mines rand_seq now fuel g r c = Some g' ->
     count_mines g' = mine_count g /\ mines g' r c = false)
  /\ (fair rand_seq now g ->
      exists fuel g', generate_mines rand_seq now fuel g r c = Some g')
  /\ (forall fuel g', reveal_cell rand_seq fuel now g r c = Some g' ->
      mines g' r c = false /\ spec_status g' <> Lost).
Proof.
  intros Hs Hf Hv.
  pose proof (in_session_inv rand_seq g hit Hs) as Hinv.
  destruct (inv_fresh _ _ Hinv Hf) as (Hempty & _ & _ & Ho).
  destruct (generate_mines_safe rand_seq now g r c) as [Hsafe Hends];
    try apply Hinv; auto.
  { pose proof (inv_mines _ _ Hinv). lia. }
  split; [exact Hsafe|]. split; [exact Hends|].
  intros fuel g' Hrev.
  pose proof (session_step rand_seq g hit fuel now (CmdR r c) g' Hs Ho Hrev)
    as Hs'.
  apply in_session_inv in Hs'.
  destruct (inv_running _ _ Hinv Ho) as [-> _]. simpl in Hs'.
  assert (Hm : mines g' r c = false).
  { destruct (reveal_cell_run _ _ _ _ _ _ _ Hrev) as (g1 & Hp & Hrun).
    pose proof (proj1 (cascade_evolves now) _ _ _ _ Hrun) as He.
    rewrite (ev_mines _ _ He).
    destruct (hidden_at g r c) eqn:Hh.
    - destruct (prepare_ready _ _ _ _ _ _ _ _ Hinv Ho Hh Hp)
        as (_ & _ & Hsafe1 & _). now apply Hsafe1.
    - rewrite first_click_prepare_skip in Hp by assumption.
      assert (g1 = g) by congruence; subst g1. now apply Hempty. }
  split; [exact Hm|].
  rewrite spec_status_lost. intros [Ho' Hv'].
  destruct (inv_lost _ _ Hs' Ho' Hv') as [Hhit _].
  rewrite Hm, andb_false_r in Hhit. discriminate.
Qed.

(** C2 (win criterion).  In every state of a session, the status is Won
    exactly when [revealed_count] equals [width * height - mine_count] and no
    reveal command of the session landed on a mine; in a Won state every mine
    cell is Revealed, and the display pass of [game_over_sequence] leaves
    [revealed_count] as it is. *)
Theorem win_criterion (g : MinesweeperGame) (hit : bool) :
  in_session rand_seq g hit ->
  (spec_status g = Won <->
   revealed_count g = width g * height g - mine_count g /\ hit = false)
  /\ (spec_status g = Won ->
      forall i j, is_valid_position g i j = true -> mines g i j = true ->
      state g i j = CELL_REVEALED /\ spec_cellView g i j = ViewMine)
  /\ (forall now,
      revealed_count (game_over_sequence true now g) = revealed_count g).
Proof.
  intros Hs. apply in_session_inv in Hs. destruct Hs.
  unfold non_mine_cells in *. rewrite spec_status_won.
  split; [|split].
  - split.
    + intros [Ho Hv]. destruct (inv_won0 Ho Hv) as (Hh & Hr & _). auto.
    + intros [Hr Hh]. destruct (game_over g) eqn:Ho.
      * destruct (victory g) eqn:Hv; auto.
        destruct (inv_lost0 eq_refl eq_refl). congruence.
      * destruct (inv_running0 eq_refl). lia.
  - intros [Ho Hv] i j Hvalid Hm.
    destruct (inv_won0 Ho Hv) as (_ & _ & Hall).
    pose proof (Hall i j Hvalid Hm) as Hst.
    split; [exact Hst|]. unfold spec_cellView. now rewrite Hst, Hm.
  - intros now.
    pose proof (game_over_sequence_scalars true now g) as Hsc.
    unfold scalars in Hsc. now injection Hsc as _ _ _ Hr _ _ _ _.
Qed.

(** C7 (revealed-count invariant).  In every state of a session, that is
    after the configuration and after each reveal (cascading, or landing on
    a mine) and each flag command, [revealed_count] lies between 0 and
    [width * height - mine_count]. *)
Theorem revealed_count_bounds (g : MinesweeperGame) (hit : bool) :
  in_session rand_seq g hit ->
  0 <= revealed_count g <= width g * height g - mine_count g.
Proof.
  intros Hs. apply in_session_inv in Hs. destruct Hs.
  unfold non_mine_cells in *. split.
  - pose proof (count_nonneg g (fun i j =>
      CellState_eqb (state g i j) CELL_REVEALED && negb (mines g i j))) as Hn.
    fold (safe_revealed g) in Hn. destruct hit; lia.
  - destruct (game_over g) eqn:Ho.
    + destruct (victory g) eqn:Hv.
      * destruct (inv_won0 eq_refl eq_refl) as (_ & Hr & _). lia.
      * destruct (inv_lost0 eq_refl eq_refl). lia.
    + destruct (inv_running0 eq_refl). lia.
Qed.

(** C5 (flag ceiling).  On a Hidden cell of the board, [toggle_flag]
    turns the cell Flagged and adds one to [flags_placed] exactly when
    [flags_placed < mine_count], and then changes no other cell and no
    other field (outcome Flagged); otherwise the cell stays Hidden and the
    whole game is left as it was (outcome Rejected(MaxFlagsReached)).
    Hence [flags_placed <= mine_count] in every state of a session. *)
Theorem flag_ceiling (g : MinesweeperGame) (hit : bool) (row col : Z) :
  (in_session rand_seq g hit -> flags_placed g <= mine_count g)
  /\ (is_valid_position g row col = true -> state g row col = CELL_HIDDEN ->
      (state (toggle_flag g row col) row col = CELL_FLAGGED
         <-> flags_placed g < mine_count g)
      /\ (flags_placed (toggle_flag g row col) = flags_placed g + 1
         <-> flags_placed g < mine_count g)
      /\ (flags_placed g < mine_count g ->
         state (toggle_flag g row col) row col = CELL_FLAGGED
         /\ flags_placed (toggle_flag g row col) = flags_placed g + 1
         /\ (forall i j, (i, j) <> (row, col) ->
               state (toggle_flag g row col) i j = state g i j)
         /\ fields_beside_flags (toggle_flag g row col) = fields_beside_flags g
         /\ spec_flag_outcome g row col = Flagged)
      /\ (~ flags_placed g < mine_count g ->
         toggle_flag g row col = g
         /\ state (toggle_flag g row col) row col = CELL_HIDDEN
         /\ flags_placed (toggle_flag g row col) = flags_placed g
         /\ spec_flag_outcome g row col = Rejected MaxFlagsReached)).
Proof.
  split.
  - intros Hs. apply in_session_inv in Hs. apply (inv_flags _ _ Hs).
  - intros Hv Hst.
    assert (Hyes : flags_placed g < mine_count g ->
      state (toggle_flag g row col) row col = CELL_FLAGGED
      /\ flags_placed (toggle_flag g row col) = flags_placed g + 1
      /\ (forall i j, (i, j) <> (row, col) ->
            state (toggle_flag g row col) i j = state g i j)
      /\ fields_beside_flags (toggle_flag g row col) = fields_beside_flags g
      /\ spec_flag_outcome g row col = Flagged).
    { intros Hlt. apply Z.ltb_lt in Hlt.
      unfold toggle_flag, spec_flag_outcome. rewrite Hv, Hst, Hlt.
      cbn [negb orb CellState_eqb].
      split; [simpl; apply grid_set_same|].
      split; [reflexivity|].
      split; [intros i j Hne; simpl; now apply grid_set_other|].
      split; reflexivity. }
    assert (Hno : ~ flags_placed g < mine_count g ->
      toggle_flag g row col = g
      /\ state (toggle_flag g row col) row col = CELL_HIDDEN
      /\ flags_placed (toggle_flag g row col) = flags_placed g
      /\ spec_flag_outcome g row col = Rejected MaxFlagsReached).
    { intros Hge. apply Z.ltb_nlt in Hge.
      assert (E : toggle_flag g row col = g).
      { unfold toggle_flag. now rewrite Hv, Hst, Hge. }
      rewrite E. split; [reflexivity|]. split; [exact Hst|].
      split; [reflexivity|].
      unfold spec_flag_outcome. now rewrite Hv, Hst, Hge. }
    split; [|split; [|split; [exact Hyes | exact Hno]]].
    + split; [|intros Hlt; apply (Hyes Hlt)].
      intros Hf. destruct (Z_lt_dec (flags_placed g) (mine_count g)) as [|Hge];
        [assumption|].
      destruct (Hno Hge) as (_ & Hh & _). congruence.
    + split; [|intros Hlt; apply (Hyes Hlt)].
      intros Hf. destruct (Z_lt_dec (flags_placed g) (mine_count g)) as [|Hge];
        [assumption|].
      destruct (Hno Hge) as (_ & _ & Hp & _). lia.
Qed.

(** C8 (a rejected reveal is a no-op).  [reveal_cell] on a coordinate
    outside the board, on a Revealed cell or on a Flagged cell returns the
    game it was given: no cell state and no counter changes, a Flagged cell
    stays Flagged; the outcome is the NoOp of the matching reason. *)
Theorem reveal_rejected_noop (fuel : nat) (now : Z) (g : MinesweeperGame)
    (row col : Z) :
  is_valid_position g row col = false
  \/ state g row col = CELL_REVEALED \/ state g row col = CELL_FLAGGED ->
  reveal_cell rand_seq fuel now g row col = Some g
  /\ (is_valid_position g row col = false ->
      spec_reveal_outcome g row col g = NoOp OutOfBounds)
  /\ (is_valid_position g row col = true -> state g row col = CELL_REVEALED ->
      spec_reveal_outcome g row col g = NoOp AlreadyRevealed)
  /\ (is_valid_position g row col = true -> state g row col = CELL_FLAGGED ->
      spec_reveal_outcome g row col g = NoOp AlreadyFlagged).
Proof.
  intros Hrej. split; [|split; [|split]].
  - unfold reveal_cell. rewrite reveal_cell_rec_S.
    replace (hidden_at g row col) with false; [reflexivity|].
    symmetry. unfold hidden_at.
    destruct Hrej as [Hv|[Hs|Hs]]; rewrite ?Hv, ?Hs; simpl; auto;
      apply andb_false_r.
  - intros Hv. unfold spec_reveal_outcome. now rewrite Hv.
  - intros Hv Hs. unfold spec_reveal_outcome. now rewrite Hv, Hs.
  - intros Hv Hs. unfold spec_reveal_outcome. now rewrite Hv, Hs.
Qed.

(** ** What one reveal changes *)

Lemma revealed_start now g r c g' :
  cascade_run now g r c g' -> hidden_at g r c = true ->
  state g' r c = CELL_REVEALED.
Proof.
  intros Hrun Hh.
  assert (Hm : state (mark_revealed g r c) r c = CELL_REVEALED)
    by (simpl; apply grid_set_same).
  inversion Hrun; subst; try congruence.
  - exact Hm.
  - now apply (ev_revealed _ _ (evolves_settle now (mark_revealed g r c))).
  - apply (ev_revealed _ _ (evolves_settle now g3)).
    match goal with
    | Hadj : adjacent_run _ _ _ _ _ _ |- _ =>
        apply (ev_revealed _ _ (proj2 (cascade_evolves now) _ _ _ _ _ Hadj))
    end.
    exact Hm.
Qed.

Lemma flood_hidden g r c i j :
  flood g r c i j -> hidden_at g r c = true -> hidden_at g i j = true.
Proof. intros Hf Hh. destruct Hf; auto. Qed.

Lemma loss_run now g r c g' :
  cascade_run now g r c g' -> hidden_at g r c = true -> mines g r c = true ->
  g' = set_victory false (set_game_over true (mark_revealed g r c)).
Proof. intros Hrun Hh Hm. inversion Hrun; subst; congruence. Qed.

Lemma newly_counted_loss g r c :
  hidden_at g r c = true ->
  newly_counted g (set_victory false (set_game_over true (mark_revealed g r c)))
    r c = 1.
Proof.
  intros Hh. apply hidden_at_iff in Hh. destruct Hh as [Hv Hs].
  unfold newly_counted.
  rewrite (count_flip g (fun _ _ => false) _ r c); auto.
  - rewrite count_zero; auto.
  - simpl. rewrite Hs, grid_set_same, !Z.eqb_refl. simpl.
    now rewrite orb_true_r.
  - intros i j _ Hne. simpl. rewrite grid_set_other by assumption.
    destruct (state g i j); reflexivity.
Qed.

Lemma newly_counted_safe now g r c g' :
  cascade_run now g r c g' -> hidden_at g r c = true ->
  mines g r c = false -> numbers_ok g ->
  revealed_count g' - revealed_count g = newly_counted g g' r c.
Proof.
  intros Hrun Hh Hm Hok.
  pose proof (proj1 (cascade_evolves now) _ _ _ _ Hrun) as He.
  destruct (safe_reveal_shape now g r c g' Hrun Hh Hm Hok)
    as (gx & -> & Hex & Hcx & _ & _).
  destruct (settle_fields now gx) as (_ & _ & _ & Sr & _).
  rewrite Sr, Hcx, <- (safe_revealed_settle now gx).
  unfold safe_revealed at 1.
  rewrite (count_same g _ _ (evolves_same_dims _ _ He)).
  rewrite (count_split g _ (fun i j =>
             CellState_eqb (state g i j) CELL_REVEALED && negb (mines g i j))).
  - unfold safe_revealed, newly_counted.
    match goal with |- ?a + ?b - ?a = ?c => replace (a + b - a) with b by lia end.
    apply count_ext. intros i j Hv.
    rewrite (ev_mines _ _ He).
    destruct (cell_cases i j r c) as [[-> ->]|Hne].
    + rewrite Hm, !Z.eqb_refl. simpl.
      apply hidden_at_iff in Hh. destruct Hh as [_ Hs]. rewrite Hs.
      destruct (state (settle now gx) r c); reflexivity.
    + replace ((i =? r) && (j =? c)) with false.
      2:{ symmetry. apply andb_false_iff.
          destruct (Z.eq_dec i r) as [->|Hi]; [right|left]; apply Z.eqb_neq;
            congruence. }
      rewrite orb_false_r.
      destruct (state g i j) eqn:Hs, (state (settle now gx) i j) eqn:Hs',
        (mines g i j) eqn:Hmi; try reflexivity.
      destruct (ev_flag_lost _ _ He i j Hs) as (_ & Hmine & _); congruence.
  - intros i j Hv H. apply andb_true_iff in H. destruct H as [H1 H2].
    apply CellState_eqb_eq in H1.
    rewrite (ev_revealed _ _ He i j H1), (ev_mines _ _ He). exact H2.
Qed.

(** The counter grows by the number of cells the call has turned from
    Hidden to Revealed, each counted once. *)
Lemma reveal_counts fuel now g hit r c g' :
  in_session rand_seq g hit -> game_over g = false ->
  reveal_cell rand_seq fuel now g r c = Some g' ->
  revealed_count g' - revealed_count g = newly_counted g g' r c.
Proof.
  intros Hs Ho Hrev. apply in_session_inv in Hs.
  destruct (reveal_cell_run _ _ _ _ _ _ _ Hrev) as (g1 & Hp & Hrun).
  destruct (hidden_at g r c) eqn:Hh.
  - destruct (prepare_ready _ _ _ _ _ _ _ _ Hs Ho Hh Hp)
      as (Hr & Hh1 & _ & _ & Hst & Ew & Eh & _ & _ & Er).
    assert (Hnc : newly_counted g g' r c = newly_counted g1 g' r c).
    { unfold newly_counted. rewrite Hst.
      symmetry. apply count_same. split; assumption. }
    rewrite Hnc, <- Er.
    destruct (mines g1 r c) eqn:Hm.
    + rewrite (loss_run now g1 r c g' Hrun Hh1 Hm).
      rewrite newly_counted_loss by assumption. simpl. lia.
    + apply (newly_counted_safe now); auto. apply Hr.
  - rewrite first_click_prepare_skip in Hp by assumption.
    assert (g1 = g) by congruence; subst g1.
    assert (g' = g) by (inversion Hrun; subst; congruence); subst g'.
    unfold newly_counted. rewrite count_zero; [lia|].
    intros i j _. destruct (state g i j); reflexivity.
Qed.

(** C4, as the code has it (cascade closure).  A reveal of a Hidden safe
    cell with no mine around it returns, and afterwards: every cell reached
    from the clicked cell through Hidden cells, expanding only from safe
    cells with no mine around them, is Revealed; every safe cell the call
    has revealed is one of these; and [revealed_count] has grown by the
    number of cells revealed, each counted once.  Flagged cells are not
    reached and block the chains through them. *)
Theorem cascade_closure (fuel : nat) (now : Z) (g : MinesweeperGame)
    (hit : bool) (r c : Z) (g1 : MinesweeperGame) :
  in_session rand_seq g hit -> game_over g = false ->
  hidden_at g r c = true ->
  first_click_prepare rand_seq fuel now g r c = Some g1 ->
  mines g1 r c = false -> count_adjacent_mines g1 r c = 0 ->
  exists g',
    reveal_cell rand_seq fuel now g r c = Some g'
    /\ (forall i j, flood g1 r c i j -> state g' i j = CELL_REVEALED)
    /\ (forall i j, state g i j = CELL_HIDDEN -> state g' i j = CELL_REVEALED ->
                    mines g' i j = false -> flood g1 r c i j)
    /\ revealed_count g' - revealed_count g = newly_counted g g' r c.
Proof.
  intros Hs Ho Hh Hp Hm Hz.
  destruct (reveal_cell_total rand_seq fuel now g r c g1 Hp) as [g' Hrev].
  exists g'. split; [exact Hrev|].
  pose proof (reveal_counts fuel now g hit r c g' Hs Ho Hrev) as Hcount.
  apply in_session_inv in Hs.
  destruct (reveal_cell_run _ _ _ _ _ _ _ Hrev) as (g1' & Hp' & Hrun).
  rewrite Hp in Hp'. inversion Hp'; subst g1'. clear Hp'.
  destruct (prepare_ready _ _ _ _ _ _ _ _ Hs Ho Hh Hp)
    as (Hr & Hh1 & _ & _ & Hst & _).
  pose proof (rd_numbers _ Hr) as Hok.
  pose proof (proj1 (cascade_evolves now) _ _ _ _ Hrun) as He.
  destruct (proj1 (cascade_closed now) _ _ _ _ Hrun) as [_ Hclosed].
  split; [|split; [|exact Hcount]].
  - intros i j Hf. induction Hf as [|i j i' j' Hf IH Hmi Hci Ha Hhi].
    + now apply (revealed_start now g1).
    + pose proof (flood_hidden _ _ _ _ _ Hf Hh1) as Hhij.
      apply hidden_at_iff in Hhij. destruct Hhij as [Hvij Hsij].
      apply hidden_at_iff in Hhi. destruct Hhi as [Hvi' Hsi'].
      assert (Hnot : state g' i' j' <> CELL_HIDDEN).
      { pose proof (Hclosed i j Hvij Hsij IH Hmi) as Hc.
        rewrite (Hok i j Hvij Hmi) in Hc.
        specialize (Hc Hci (i' - i, j' - j) Ha). simpl in Hc.
        replace (i + (i' - i)) with i' in Hc by lia.
        replace (j + (j' - j)) with j' in Hc by lia.
        now apply Hc. }
      destruct (state g' i' j') eqn:Hs'; try congruence.
      apply (ev_flagged _ _ He) in Hs'. congruence.
  - intros i j H1 H2 Hmi. rewrite <- Hst in H1.
    rewrite (ev_mines _ _ He) in Hmi.
    now apply (proj1 (cascade_exact now) _ _ _ _ Hrun Hok i j).
Qed.

(** C10, as the code has it (flags survive reveals).  After a reveal, a
    cell that was Flagged is still Flagged, unless it holds a mine and the
    reveal has won the game, in which case the final display of the mines
    has marked it Revealed; and [revealed_count] has grown by the number of
    cells that went from Hidden to Revealed, so it never counts a cell that
    was Flagged. *)
Theorem flags_survive_reveal (fuel : nat) (now : Z) (g : MinesweeperGame)
    (hit : bool) (r c : Z) (g' : MinesweeperGame) :
  in_session rand_seq g hit -> game_over g = false ->
  reveal_cell rand_seq fuel now g r c = Some g' ->
  (forall i j, state g i j = CELL_FLAGGED ->
     state g' i j = CELL_FLAGGED
     \/ (state g' i j = CELL_REVEALED /\ mines g' i j = true
         /\ spec_status g' = Won))
  /\ revealed_count g' - revealed_count g = newly_counted g g' r c.
Proof.
  intros Hs Ho Hrev.
  split; [|now apply (reveal_counts fuel now g hit)].
  pose proof (session_step rand_seq g hit fuel now (CmdR r c) g' Hs Ho Hrev)
    as Hs'.
  apply in_session_inv in Hs'. apply in_session_inv in Hs.
  destruct (inv_running _ _ Hs Ho) as [-> _]. simpl in Hs'.
  destruct (reveal_cell_run _ _ _ _ _ _ _ Hrev) as (g1 & Hp & Hrun).
  destruct (hidden_at g r c) eqn:Hh.
  2:{ rewrite first_click_prepare_skip in Hp by assumption.
      assert (g1 = g) by congruence; subst g1.
    assert (g' = g) by (inversion Hrun; subst; congruence); subst g'. auto. }
  destruct (prepare_ready _ _ _ _ _ _ _ _ Hs Ho Hh Hp)
    as (Hr & Hh1 & _ & _ & Hst & _).
  pose proof (proj1 (cascade_evolves now) _ _ _ _ Hrun) as He.
  intros i j Hf. rewrite <- Hst in Hf.
  destruct (state g' i j) eqn:Hs1.
  - apply (ev_hidden _ _ He) in Hs1. congruence.
  - right. destruct (ev_flag_lost _ _ He i j Hf) as (_ & Hmi & _);
      [congruence|].
    split; [reflexivity|]. split; [now rewrite (ev_mines _ _ He)|].
    apply spec_status_won.
    destruct (game_over g') eqn:Ho'.
    + split; [reflexivity|]. destruct (victory g') eqn:Hv'; auto.
      destruct (inv_lost _ _ Hs' Ho' Hv') as [Hhit _].
      rewrite (ev_mines _ _ He) in Hhit. cbn [andb] in Hhit.
      rewrite (loss_run now g1 r c g' Hrun Hh1 Hhit) in Hs1. simpl in Hs1.
      apply hidden_at_iff in Hh1. destruct Hh1 as [_ Hsr].
      destruct (cell_cases i j r c) as [[-> ->]|Hne]; [congruence|].
      rewrite grid_set_other in Hs1 by assumption. congruence.
    + rewrite (ev_flags_kept _ _ He Ho' i j Hf) in Hs1. discriminate.
  - now left.
Qed.

(** A reveal that lands on a mine marks the clicked cell, sets the two
    flags, and does nothing else: no other cell changes its state. *)
Lemma loss_changes_only_clicked_cell fuel now g hit r c g' :
  in_session rand_seq g hit -> game_over g = false ->
  first_click g = false ->
  hidden_at g r c = true -> mines g r c = true ->
  reveal_cell rand_seq fuel now g r c = Some g' ->
  g' = set_victory false (set_game_over true (mark_revealed g r c))
  /\ spec_status g' = Lost
  /\ forall i j, (i, j) <> (r, c) -> state g' i j = state g i j.
Proof.
  intros Hs Ho Hf Hh Hm Hrev.
  destruct (reveal_cell_run _ _ _ _ _ _ _ Hrev) as (g1 & Hp & Hrun).
  rewrite first_click_prepare_later in Hp by assumption.
  assert (g1 = g) by congruence; subst g1.
  rewrite (loss_run now g r c g' Hrun Hh Hm).
  split; [reflexivity|]. split; [reflexivity|].
  intros i j Hne. simpl. now apply grid_set_other.
Qed.

(** The boards of a session fit the arrays of the structure. *)
Lemma session_dims_fit g hit :
  in_session rand_seq g hit ->
  MIN_WIDTH <= width g <= MAX_WIDTH /\ MIN_HEIGHT <= height g <= MAX_HEIGHT.
Proof.
  induction 1 as [g Hc | g hit fuel now cmd g' Hs IH Ho Hrun].
  - destruct Hc as [g0 diff Hd | g0 in_w in_h in_m g1 Hc].
    + pose proof (reset_round_scalars
                    match diff with
                    | DIFFICULTY_BEGINNER =>
                        set_mine_count 10 (set_height 9 (set_width 9 g0))
                    | DIFFICULTY_INTERMEDIATE =>
                        set_mine_count 40 (set_height 16 (set_width 16 g0))
                    | DIFFICULTY_EXPERT =>
                        set_mine_count 99 (set_height 16 (set_width 30 g0))
                    | DIFFICULTY_CUSTOM => g0
                    end) as Hsc.
      unfold scalars in Hsc. injection Hsc as Ew Eh _ _ _ _ _ _.
      unfold setup_difficulty. rewrite Ew, Eh.
      unfold MIN_WIDTH, MAX_WIDTH, MIN_HEIGHT, MAX_HEIGHT.
      destruct diff; [| | |congruence]; simpl; lia.
    + apply custom_difficulty_play in Hc.
      destruct Hc as (w & h & m & _ & _ & _ & Hw & Hh & _ & ->).
      pose proof (reset_round_scalars
                    (set_mine_count m (set_height h (set_width w g0)))) as Hsc.
      unfold scalars in Hsc. injection Hsc as Ew Eh _ _ _ _ _ _.
      rewrite Ew, Eh. simpl. auto.
  - assert (Hd : width g' = width g /\ height g' = height g).
    { destruct cmd as [r c|r c| | |]; simpl in Hrun;
        try (inversion Hrun; subst; auto; fail).
      - destruct (reveal_cell_run _ _ _ _ _ _ _ Hrun) as (g1 & Hp & Hcas).
        pose proof (proj1 (cascade_evolves now) _ _ _ _ Hcas) as He.
        rewrite (ev_width _ _ He), (ev_height _ _ He).
        destruct (hidden_at g r c) eqn:Hh.
        + apply in_session_inv in Hs.
          destruct (prepare_ready _ _ _ _ _ _ _ _ Hs Ho Hh Hp)
            as (_ & _ & _ & _ & _ & Ew & Eh & _). auto.
        + rewrite first_click_prepare_skip in Hp by assumption.
          assert (g1 = g) by congruence; subst g1. auto.
      - inversion Hrun; subst. unfold toggle_flag.
        repeat match goal with
        | |- context [if ?b then _ else _] => destruct b
        end; auto. }
    destruct Hd as [-> ->]. exact IH.
Qed.

End Claims.

(** ** The custom configuration *)

(** C6, as the code has it (configuration validation).  The custom branch
    starts a game exactly when all three numbers are read, the width is
    between 5 and 30, the height between 5 and 16 ([MAX_HEIGHT]) and the mine
    count between 1 and [(width * height) / 4].  Otherwise it goes back to
    the menu with the grids and the counters of the game untouched; when it
    starts a game, the board is empty, all Hidden, and a valid start of a
    session. *)
Theorem custom_difficulty_validation (g0 : MinesweeperGame)
    (in_w in_h in_m : option Z) :
  ((exists g, custom_difficulty g0 in_w in_h in_m = Play g) <->
   (exists w h m,
      in_w = Some w /\ in_h = Some h /\ in_m = Some m
      /\ 5 <= w <= 30 /\ 5 <= h <= 16 /\ 1 <= m <= (w * h) / 4))
  /\ (forall g, custom_difficulty g0 in_w in_h in_m = Menu g ->
        mines g = mines g0 /\ state g = state g0 /\ numbers g = numbers g0
        /\ revealed_count g = revealed_count g0
        /\ flags_placed g = flags_placed g0
        /\ game_over g = game_over g0 /\ first_click g = first_click g0)
  /\ (forall g, custom_difficulty g0 in_w in_h in_m = Play g ->
        session_inv g false
        /\ forall i j, is_valid_position g i j = true ->
                       mines g i j = false /\ state g i j = CELL_HIDDEN).
Proof.
  split; [|split].
  - split.
    + intros [g Hg]. apply custom_difficulty_play in Hg.
      destruct Hg as (w & h & m & Hw & Hh & Hm & Bw & Bh & Bm & _).
      unfold MIN_WIDTH, MAX_WIDTH, MIN_HEIGHT, MAX_HEIGHT in *.
      exists w, h, m. rewrite <- (Z.quot_div_nonneg (w * h) 4) by nia. auto 10.
    + intros (w & h & m & Hw & Hh & Hm & Bw & Bh & Bm).
      eexists. apply custom_difficulty_play. exists w, h, m.
      unfold MIN_WIDTH, MAX_WIDTH, MIN_HEIGHT, MAX_HEIGHT.
      rewrite (Z.quot_div_nonneg (w * h) 4) by nia. auto 10.
  - intros g. unfold custom_difficulty.
    repeat match goal with
    | |- context [match ?o with Some _ => _ | None => _ end] => destruct o
    | |- context [if ?b then _ else _] => destruct b
    end; intros H; inversion H; subst; repeat split; reflexivity.
  - intros g Hg. split.
    + apply inv_configured. now apply (configured_custom g0 in_w in_h in_m).
    + pose proof (inv_configured g (configured_custom g0 in_w in_h in_m g Hg))
        as Hinv.
      apply custom_difficulty_play in Hg.
      destruct Hg as (w & h & m & _ & _ & _ & _ & _ & _ & ->).
      intros i j Hv.
      set (gd := set_mine_count m (set_height h (set_width w g0))) in *.
      pose proof (reset_round_scalars gd) as Hs. unfold scalars in Hs.
      injection Hs as Ew Eh _ _ _ _ _ _.
      assert (Hd : same_dims gd (reset_round gd)) by (split; assumption).
      rewrite (valid_same _ _ _ _ Hd) in Hv.
      destruct (reset_round_cleared gd i j Hv) as (H1 & H2 & _). auto.
Qed.

(** * Examples *)

Lemma the_game_some (o : option MinesweeperGame) :
  match o with Some _ => true | None => false end = true ->
  o = Some (the_game o).
Proof. destruct o; [reflexivity | discriminate]. Qed.

Lemma session_step_eval rand_seq g hit fuel now cmd g' hit' :
  in_session rand_seq g hit ->
  game_over g = false ->
  run_command rand_seq fuel now cmd g = Some g' ->
  hit || reveals_mine cmd g g' = hit' ->
  in_session rand_seq g' hit'.
Proof. intros Hs Ho Hrun <-. now apply (session_step rand_seq g hit fuel now). Qed.

Lemma board_5x5_play m :
  1 <= m <= 6 ->
  custom_difficulty init_minesweeper (Some 5) (Some 5) (Some m)
  = Play (board_5x5 m).
Proof.
  intros Hm.
  assert (H : custom_difficulty init_minesweeper (Some 5) (Some 5) (Some m)
              = Play (reset_round (set_mine_count m (set_height 5
                        (set_width 5 init_minesweeper))))).
  { apply custom_difficulty_play. exists 5, 5, m.
    unfold MIN_WIDTH, MAX_WIDTH, MIN_HEIGHT, MAX_HEIGHT.
    change (Z.quot (5 * 5) 4) with 6.
    split; [reflexivity|]. split; [reflexivity|]. split; [reflexivity|].
    split; [lia|]. split; [lia|]. split; [lia|]. reflexivity. }
  unfold board_5x5. rewrite H. cbn [the_board]. reflexivity.
Qed.

Lemma board_5x5_configured m : 1 <= m <= 6 -> configured (board_5x5 m).
Proof.
  intros Hm.
  apply (configured_custom init_minesweeper (Some 5) (Some 5) (Some m)).
  now apply board_5x5_play.
Qed.

Lemma board_5x5_session m :
  1 <= m <= 6 -> in_session sample_rand (board_5x5 m) false.
Proof. intros Hm. now apply session_start, board_5x5_configured. Qed.

(** The first draws of the sample generator for the seeds the examples
    use: modulo 5 they give the cells (0, 3) for seed 0, (3, 3) for seed 1,
    (3, 2) then (4, 4) for seed 2, and (4, 4) for seed 8. *)
Lemma sample_rand_draws :
  map (sample_rand 0) [0; 1]%nat = [0; 21468]%N
  /\ map (sample_rand 1) [0; 1]%nat = [16838; 5758]%N
  /\ map (sample_rand 2) [0; 1; 2; 3]%nat = [908; 22817; 10239; 12914]%N
  /\ map (sample_rand 8) [0; 1]%nat = [3634; 26864]%N.
Proof.
  split; [vm_compute; reflexivity|]. split; [vm_compute; reflexivity|].
  split; vm_compute; reflexivity.
Qed.

(** ** A game won by its first reveal *)

Lemma won_game_run :
  reveal_cell sample_rand 100 8 (board_5x5 1) 0 0 = Some won_game.
Proof. apply the_game_some. vm_compute. reflexivity. Qed.

Lemma won_game_session : in_session sample_rand won_game false.
Proof.
  apply (session_step_eval sample_rand (board_5x5 1) false 100%nat 8 (CmdR 0 0)).
  - apply board_5x5_session. lia.
  - vm_compute. reflexivity.
  - exact won_game_run.
  - vm_compute. reflexivity.
Qed.

(** Scenario B of the specification: on a 5 by 5 board with one mine, one
    reveal uncovers the 24 safe cells and wins; the mine is then shown. *)
Lemma won_game_facts :
  spec_reveal_outcome (board_5x5 1) 0 0 won_game = Win
  /\ spec_status won_game = Won
  /\ revealed_count won_game = 24
  /\ mines won_game 4 4 = true
  /\ spec_cellView won_game 4 4 = ViewMine.
Proof.
  split; [vm_compute; reflexivity|]. split; [vm_compute; reflexivity|].
  split; [vm_compute; reflexivity|]. split; vm_compute; reflexivity.
Qed.

(** ** The same game with flags placed before the first reveal *)

Lemma flagged_board_session : in_session sample_rand flagged_board false.
Proof.
  apply (session_step_eval sample_rand (board_5x5 1) false 0%nat 0 (CmdF 4 4)).
  - apply board_5x5_session. lia.
  - vm_compute. reflexivity.
  - unfold flagged_board. cbn [run_command]. reflexivity.
  - cbn [reveals_mine]. reflexivity.
Qed.

Lemma won_flagged_run :
  reveal_cell sample_rand 100 8 flagged_board 0 0 = Some won_flagged.
Proof. apply the_game_some. vm_compute. reflexivity. Qed.

Lemma blocked_board_session : in_session sample_rand blocked_board false.
Proof.
  apply (session_step_eval sample_rand (board_5x5 1) false 0%nat 0 (CmdF 0 1)).
  - apply board_5x5_session. lia.
  - vm_compute. reflexivity.
  - unfold blocked_board. cbn [run_command]. reflexivity.
  - cbn [reveals_mine]. reflexivity.
Qed.

Lemma blocked_prepared_run :
  first_click_prepare sample_rand 100 8 blocked_board 0 0
  = Some blocked_prepared.
Proof. apply the_game_some. vm_compute. reflexivity. Qed.

Lemma blocked_after_run :
  reveal_cell sample_rand 100 8 blocked_board 0 0 = Some blocked_after.
Proof. apply the_game_some. vm_compute. reflexivity. Qed.

(** ** A game lost by its second reveal *)

Lemma two_mines_open_run :
  reveal_cell sample_rand 100 2 (board_5x5 2) 0 0 = Some two_mines_open.
Proof. apply the_game_some. vm_compute. reflexivity. Qed.

Lemma two_mines_open_session : in_session sample_rand two_mines_open false.
Proof.
  apply (session_step_eval sample_rand (board_5x5 2) false 100%nat 2 (CmdR 0 0)).
  - apply board_5x5_session. lia.
  - vm_compute. reflexivity.
  - exact two_mines_open_run.
  - vm_compute. reflexivity.
Qed.

Lemma two_mines_lost_run :
  reveal_cell sample_rand 100 3 two_mines_open 3 2 = Some two_mines_lost.
Proof. apply the_game_some. vm_compute. reflexivity. Qed.

(** * The properties on the examples *)

Lemma sweep_rand_fair (w h : nat) (seed : Z) (g : MinesweeperGame) :
  (0 < w)%nat -> (0 < h)%nat ->
  width g = Z.of_nat w -> height g = Z.of_nat h ->
  fair (sweep_rand w h) seed g.
Proof.
  intros Hw Hh Ew Eh i j Hv k0. apply valid_iff in Hv.
  rewrite Ew, Eh in Hv.
  assert (Hlt : (Z.to_nat i * w + Z.to_nat j < w * h)%nat) by nia.
  exists (Z.to_nat i * w + Z.to_nat j + k0 * (w * h))%nat.
  split; [nia|].
  unfold drawn, sweep_rand. cbv zeta.
  rewrite Nat.div2_double, Nat.even_even, Nat.div2_odd', Nat.even_odd.
  rewrite Nat.Div0.mod_add, (Nat.mod_small _ _ Hlt).
  rewrite Nat.div_add_l by lia.
  rewrite (Nat.div_small (Z.to_nat j) w) by lia.
  rewrite (Nat.add_comm (Z.to_nat i * w)), Nat.Div0.mod_add.
  rewrite (Nat.mod_small (Z.to_nat j) w) by lia.
  rewrite !nat_N_Z, Nat.add_0_r, Ew, Eh.
  rewrite !Z.rem_small by lia.
  f_equal; lia.
Qed.

(** Scenario A of the specification: the first reveal at (4, 4) of a
    Beginner board places ten mines, none of them at (4, 4). *)
Lemma generate_mines_safe_first_click_witness :
  exists fuel g',
    generate_mines (sweep_rand 9 9) 0 fuel beginner_board 4 4 = Some g'
    /\ count_mines g' = mine_count beginner_board
    /\ mines g' 4 4 = false.
Proof.
  destruct (generate_mines_safe_first_click (sweep_rand 9 9) 0 beginner_board
              false 4 4) as (Hsafe & Hends & _).
  - apply session_start. unfold beginner_board.
    apply configured_preset. discriminate.
  - vm_compute. reflexivity.
  - vm_compute. reflexivity.
  - destruct Hends as (fuel & g' & Hgen).
    + apply sweep_rand_fair; [lia | lia | vm_compute; reflexivity
                              | vm_compute; reflexivity].
    + exists fuel, g'. split; [exact Hgen | exact (Hsafe fuel g' Hgen)].
Defined.

Lemma win_criterion_witness :
  revealed_count won_game
  = width won_game * height won_game - mine_count won_game
  /\ false = false.
Proof.
  apply (proj1 (proj1 (win_criterion sample_rand won_game false
                         won_game_session))).
  vm_compute. reflexivity.
Defined.

Lemma revealed_count_bounds_witness :
  0 <= revealed_count won_game
    <= width won_game * height won_game - mine_count won_game.
Proof.
  exact (revealed_count_bounds sample_rand won_game false won_game_session).
Defined.

(** Scenario D of the specification on a one-mine board: with the single
    flag placed, flagging another Hidden cell is rejected. *)
Lemma flag_ceiling_witness :
  flags_placed flagged_board <= mine_count flagged_board
  /\ (state (toggle_flag (board_5x5 1) 4 4) 4 4 = CELL_FLAGGED
      /\ flags_placed (toggle_flag (board_5x5 1) 4 4)
         = flags_placed (board_5x5 1) + 1)
  /\ (toggle_flag flagged_board 0 0 = flagged_board
      /\ state (toggle_flag flagged_board 0 0) 0 0 = CELL_HIDDEN).
Proof.
  destruct (flag_ceiling sample_rand flagged_board false 0 0) as [Hle Hop].
  destruct (flag_ceiling sample_rand (board_5x5 1) false 4 4) as [_ Hop'].
  split; [exact (Hle flagged_board_session)|]. split.
  - assert (Hv : is_valid_position (board_5x5 1) 4 4 = true)
      by (vm_compute; reflexivity).
    assert (Hst : state (board_5x5 1) 4 4 = CELL_HIDDEN)
      by (vm_compute; reflexivity).
    assert (Hlt : flags_placed (board_5x5 1) < mine_count (board_5x5 1))
      by (vm_compute; reflexivity).
    destruct (Hop' Hv Hst) as (_ & _ & Hyes & _).
    destruct (Hyes Hlt) as (H1 & H2 & _). split; assumption.
  - assert (Hv : is_valid_position flagged_board 0 0 = true)
      by (vm_compute; reflexivity).
    assert (Hst : state flagged_board 0 0 = CELL_HIDDEN)
      by (vm_compute; reflexivity).
    assert (Hge : ~ flags_placed flagged_board < mine_count flagged_board)
      by (vm_compute; intros H; discriminate).
    destruct (Hop Hv Hst) as (_ & _ & _ & Hno).
    destruct (Hno Hge) as (H1 & H2 & _). split; assumption.
Defined.

Lemma reveal_rejected_noop_witness :
  reveal_cell sample_rand 100 8 flagged_board 4 4 = Some flagged_board
  /\ spec_reveal_outcome flagged_board 4 4 flagged_board = NoOp AlreadyFlagged
  /\ state flagged_board 4 4 = CELL_FLAGGED.
Proof.
  assert (Hf : state flagged_board 4 4 = CELL_FLAGGED)
    by (vm_compute; reflexivity).
  destruct (reveal_rejected_noop sample_rand 100 8 flagged_board 4 4)
    as (Hsame & _ & _ & Hout).
  - right. right. exact Hf.
  - split; [exact Hsame|]. split; [|exact Hf].
    apply Hout; [vm_compute; reflexivity | exact Hf].
Defined.

Lemma custom_difficulty_validation_witness :
  exists g, custom_difficulty init_minesweeper (Some 9) (Some 9) (Some 10)
            = Play g.
Proof.
  apply (proj1 (custom_difficulty_validation init_minesweeper
                  (Some 9) (Some 9) (Some 10))).
  exists 9, 9, 10.
  split; [reflexivity|]. split; [reflexivity|]. split; [reflexivity|].
  change ((9 * 9) / 4) with 20. lia.
Defined.

Lemma cascade_closure_witness :
  exists g',
    reveal_cell sample_rand 100 8 blocked_board 0 0 = Some g'
    /\ (forall i j, flood blocked_prepared 0 0 i j -> state g' i j = CELL_REVEALED)
    /\ (forall i j, state blocked_board i j = CELL_HIDDEN ->
                    state g' i j = CELL_REVEALED -> mines g' i j = false ->
                    flood blocked_prepared 0 0 i j)
    /\ revealed_count g' - revealed_count blocked_board
       = newly_counted blocked_board g' 0 0.
Proof.
  apply (cascade_closure sample_rand 100 8 blocked_board false 0 0
           blocked_prepared).
  - exact blocked_board_session.
  - vm_compute. reflexivity.
  - vm_compute. reflexivity.
  - exact blocked_prepared_run.
  - vm_compute. reflexivity.
  - vm_compute. reflexivity.
Defined.

Lemma flags_survive_reveal_witness :
  (forall i j, state flagged_board i j = CELL_FLAGGED ->
     state won_flagged i j = CELL_FLAGGED
     \/ (state won_flagged i j = CELL_REVEALED /\ mines won_flagged i j = true
         /\ spec_status won_flagged = Won))
  /\ revealed_count won_flagged - revealed_count flagged_board
     = newly_counted flagged_board won_flagged 0 0.
Proof.
  apply (flags_survive_reveal sample_rand 100 8 flagged_board false 0 0
           won_flagged).
  - exact flagged_board_session.
  - vm_compute. reflexivity.
  - exact won_flagged_run.
Defined.

(** ** Where the code departs from the specification *)

(** C6: a height of 20 is within the 5..30 of the specification and is
    refused by the code, whose [MAX_HEIGHT] is 16. *)
Lemma custom_height_20_refused :
  (5 <= 10 <= 30 /\ 5 <= 20 <= 30 /\ 1 <= 5 <= (10 * 20) / 4)
  /\ ~ (exists g, custom_difficulty init_minesweeper (Some 10) (Some 20) (Some 5)
                  = Play g).
Proof.
  split.
  - change ((10 * 20) / 4) with 50. lia.
  - intros [g Hg]. vm_compute in Hg. discriminate.
Qed.

(** C4: the cell (0, 1) lies on a chain of cells with no mine around them
    that starts at the clicked cell (0, 0); it was flagged, and the cascade
    leaves it Flagged. *)
Lemma flagged_cell_blocks_cascade :
  reveal_cell sample_rand 100 8 blocked_board 0 0 = Some blocked_after
  /\ mines blocked_after 0 0 = false
  /\ count_adjacent_mines blocked_after 0 0 = 0
  /\ zero_chain blocked_after 0 0 0 1
  /\ state blocked_after 0 1 <> CELL_REVEALED.
Proof.
  split; [exact blocked_after_run|].
  split; [vm_compute; reflexivity|].
  split; [vm_compute; reflexivity|].
  split.
  - apply (chain_step blocked_after 0 0 0 0 0 1).
    + apply chain_start.
    + unfold adjacent_cells. vm_compute. auto 10.
    + vm_compute. reflexivity.
    + vm_compute. reflexivity.
    + vm_compute. reflexivity.
  - vm_compute. discriminate.
Qed.

(** C10: the flag on the mine at (4, 4) does not survive the winning
    reveal. *)
Lemma flagged_mine_revealed_on_win :
  reveal_cell sample_rand 100 8 flagged_board 0 0 = Some won_flagged
  /\ state flagged_board 4 4 = CELL_FLAGGED
  /\ state won_flagged 4 4 <> CELL_FLAGGED.
Proof.
  split; [exact won_flagged_run|].
  split; [vm_compute; reflexivity | vm_compute; discriminate].
Qed.

(** C3: after the losing reveal at (3, 2) the game is Lost, and the other
    mine, at (4, 4), is still Hidden: [reveal_cell] does not run the
    "reveal all mines" loop of [game_over_sequence] on a loss. *)
Lemma loss_leaves_other_mines_hidden :
  in_session sample_rand two_mines_open false
  /\ reveal_cell sample_rand 100 3 two_mines_open 3 2 = Some two_mines_lost
  /\ spec_reveal_outcome two_mines_open 3 2 two_mines_lost = Loss
  /\ spec_status two_mines_lost = Lost
  /\ mines two_mines_lost 4 4 = true
  /\ state two_mines_lost 4 4 = CELL_HIDDEN
  /\ spec_cellView two_mines_lost 4 4 = ViewHidden
  /\ get_cell_display two_mines_lost 4 4 = 46.
Proof.
  split; [exact two_mines_open_session|].
  split; [exact two_mines_lost_run|].
  split; [vm_compute; reflexivity|].
  split; [vm_compute; reflexivity|].
  split; [vm_compute; reflexivity|].
  split; [vm_compute; reflexivity|].
  split; vm_compute; reflexivity.
Qed.

(** * The text interface *)

Ltac z_enum i lo n :=
  match n with
  | O => exfalso; lia
  | S ?m =>
      destruct (Z.eq_dec i lo) as [->|?];
      [| let lo' := eval compute in (lo + 1) in z_enum i lo' m]
  end.

Lemma toupper_idempotent (c : ascii) : toupper (toupper c) = toupper c.
Proof. destruct c as [[] [] [] [] [] [] [] []]; vm_compute; reflexivity. Qed.

Lemma toupper_newline (c : ascii) :
  Ascii.eqb (toupper c) "010" = Ascii.eqb c "010".
Proof. destruct c as [[] [] [] [] [] [] [] []]; vm_compute; reflexivity. Qed.

Lemma until_newline_toupper (s : list ascii) :
  until_newline (map toupper s) = map toupper (until_newline s).
Proof.
  induction s as [|c s IH]; simpl; [reflexivity|].
  rewrite toupper_newline. destruct (Ascii.eqb c "010"); simpl; congruence.
Qed.

Lemma until_newline_app (s rest : list ascii) :
  Forall (fun c => Ascii.eqb c "010" = false) s ->
  until_newline (s ++ "010"%char :: rest) = s.
Proof.
  induction 1 as [|c s Hc _ IH]; simpl; [reflexivity|].
  now rewrite Hc, IH.
Qed.

Lemma parse_input_toupper g line row col action :
  parse_input g (map toupper line) row col action
  = parse_input g line row col action.
Proof.
  unfold parse_input. rewrite until_newline_toupper, map_map.
  rewrite (map_ext (fun c => toupper (toupper c)) toupper toupper_idempotent).
  reflexivity.
Qed.

Lemma command_of_action_letter a row col :
  Ascii.eqb a "H" || Ascii.eqb a "Q" || Ascii.eqb a "S" = true ->
  forall row' col',
  command_of_action a row col = command_of_action a row' col'
  /\ (command_of_action a row col = Some CmdH
      \/ command_of_action a row col = Some CmdQ
      \/ command_of_action a row col = Some CmdS).
Proof.
  intros H row' col'. apply orb_true_iff in H. destruct H as [H|H].
  - apply orb_true_iff in H. destruct H as [H|H];
      apply Ascii.eqb_eq in H; subst a; split; auto.
  - apply Ascii.eqb_eq in H; subst a; split; auto.
Qed.

Lemma command_of_line_valid (g : MinesweeperGame) (line : list ascii)
    (row col : Z) (action : ascii) (cmd : Command) :
  command_of_line g line row col action = Some cmd ->
  match cmd with
  | CmdR r c | CmdF r c =>
      is_valid_position g r c = true
      /\ (3 <= length (until_newline line))%nat
  | _ => length (until_newline line) = 1%nat
  end.
Proof.
  unfold command_of_line, parse_input. cbv zeta.
  rewrite length_map.
  set (input := map toupper (until_newline line)).
  destruct (length (until_newline line) =? 1)%nat eqn:Hone.
  - apply Nat.eqb_eq in Hone.
    destruct (Ascii.eqb (nth 0 input zero) "H"
              || Ascii.eqb (nth 0 input zero) "Q"
              || Ascii.eqb (nth 0 input zero) "S") eqn:Hl; [|discriminate].
    destruct (command_of_action_letter _ row col Hl row col)
      as [_ [H|[H|H]]]; rewrite H; intros E; inversion E; exact Hone.
  - destruct ((3 <=? length (until_newline line))%nat
              && (Ascii.eqb (nth 0 input zero) "R"
                  || Ascii.eqb (nth 0 input zero) "F")) eqn:Hrf;
      [|discriminate].
    apply andb_true_iff in Hrf. destruct Hrf as [Hlen Hrf].
    apply Nat.leb_le in Hlen.
    match goal with
    | |- context [if ?b then (true, _) else _] => destruct b eqn:Hok
    end; [|discriminate].
    apply andb_true_iff in Hok. destruct Hok as [Hok Hr2].
    apply andb_true_iff in Hok. destruct Hok as [Hok Hr1].
    apply andb_true_iff in Hok. destruct Hok as [Hc1 Hc2].
    match type of Hc1 with
    | (code ?cc >=? _) = true => set (col_char := cc) in *
    end.
    match type of Hr1 with
    | (?rr >=? _) = true => set (row_num := rr) in *
    end.
    assert (Hvalid : is_valid_position g (row_num - 1)
                       (code col_char - code "A") = true).
    { apply valid_iff. lia. }
    apply orb_true_iff in Hrf.
    destruct Hrf as [Ha|Ha]; apply Ascii.eqb_eq in Ha; rewrite Ha;
      intros E; inversion E; subst; auto.
Qed.

Lemma command_of_line_locals (g : MinesweeperGame)
    (line : list ascii) (row col : Z) (action : ascii)
    (row' col' : Z) (action' : ascii) :
  command_of_line g line row col action
  = command_of_line g line row' col' action'.
Proof.
  unfold command_of_line, parse_input. cbv zeta.
  set (input := map toupper (until_newline line)).
  destruct (length input =? 1)%nat.
  - destruct (Ascii.eqb (nth 0 input zero) "H"
              || Ascii.eqb (nth 0 input zero) "Q"
              || Ascii.eqb (nth 0 input zero) "S") eqn:Hl; [|reflexivity].
    apply (command_of_action_letter _ row col Hl row' col').
  - destruct ((3 <=? length input)%nat
              && (Ascii.eqb (nth 0 input zero) "R"
                  || Ascii.eqb (nth 0 input zero) "F")); [|reflexivity].
    match goal with
    | |- context [if ?b then (true, _) else _] => destruct b
    end; reflexivity.
Qed.

Lemma parse_input_dims g g' line row col action :
  width g' = width g -> height g' = height g ->
  parse_input g' line row col action = parse_input g line row col action.
Proof. intros Hw Hh. unfold parse_input. now rewrite Hw, Hh. Qed.

Lemma command_of_line_dims g g' line row col action :
  width g' = width g -> height g' = height g ->
  command_of_line g' line row col action = command_of_line g line row col action.
Proof.
  intros Hw Hh. unfold command_of_line.
  now rewrite (parse_input_dims g g' line row col action Hw Hh).
Qed.

(** ** The labels of the display come back as their cells *)

Lemma col_label_facts (j : Z) :
  0 <= j < 30 ->
  toupper (col_label j) = col_label j
  /\ code (col_label j) = code "A" + j
  /\ Ascii.eqb (col_label j) "010" = false
  /\ Ascii.eqb (col_label j) " " = false.
Proof.
  intros Hj. z_enum j 0 30%nat; vm_compute; auto.
Qed.

Lemma row_label_facts (i : Z) :
  0 <= i < 16 ->
  map toupper (row_label i) = row_label i
  /\ Forall (fun c => Ascii.eqb c "010" = false) (row_label i)
  /\ atoi (row_label i) = i + 1
  /\ (1 <= length (row_label i))%nat.
Proof.
  intros Hi. z_enum i 0 16%nat;
    (split; [vm_compute; reflexivity|]);
    (split; [vm_compute; repeat constructor|]);
    (split; [vm_compute; reflexivity | vm_compute; lia]).
Qed.

(** X1 (a parsed command addresses a cell of the board).  Whenever
    [parse_input] accepts a line, the reveal or flag command that
    [play_game_loop] executes has a row and a column inside the board, so
    [reveal_cell] and [toggle_flag] are never called from the loop with a
    position outside it; such a line has at least three characters before
    its newline, and the commands H, Q and S come from lines of exactly
    one. *)
Theorem command_of_line_in_bounds (g : MinesweeperGame) (line : list ascii)
    (row col : Z) (action : ascii) (cmd : Command) :
  command_of_line g line row col action = Some cmd ->
  match cmd with
  | CmdR r c | CmdF r c =>
      is_valid_position g r c = true
      /\ (3 <= length (until_newline line))%nat
  | _ => length (until_newline line) = 1%nat
  end.
Proof. apply command_of_line_valid. Qed.

(** X2 (the labels of the display name their cell).  On a board no larger
    than the arrays, typing R or F, an optional space, the column letter
    [display_game] prints above column [j] and the row number it prints
    before row [i] makes the loop reveal or flag the cell [(i, j)]. *)
Theorem command_of_labels g (a : ascii) (i j : Z) (spaced : bool) row col action :
  a = "R"%char \/ a = "F"%char ->
  width g <= MAX_WIDTH -> height g <= MAX_HEIGHT ->
  is_valid_position g i j = true ->
  command_of_line g
    (a :: (if spaced then [" "%char] else [])
       ++ col_label j :: row_label i ++ ["010"%char])
    row col action
  = command_of_action a i j.
Proof.
  intros Ha Hw Hh Hv. apply valid_iff in Hv.
  unfold MAX_WIDTH, MAX_HEIGHT in *.
  destruct (col_label_facts j) as (Cu & Cc & Cn & Cs); [lia|].
  destruct (row_label_facts i) as (Ru & Rn & Ra & Rl); [lia|].
  assert (Hau : toupper a = a /\ Ascii.eqb a "010" = false
                /\ (Ascii.eqb a "R" || Ascii.eqb a "F") = true).
  { destruct Ha as [-> | ->]; vm_compute; auto. }
  destruct Hau as (Au & An & Arf).
  assert (Hcut : until_newline
            (a :: (if spaced then [" "%char] else [])
               ++ col_label j :: row_label i ++ ["010"%char])
          = a :: (if spaced then [" "%char] else [])
              ++ col_label j :: row_label i).
  { destruct spaced; simpl; rewrite An, Cn, (until_newline_app _ [] Rn);
      reflexivity. }
  unfold command_of_line, parse_input. cbv zeta. rewrite Hcut.
  destruct (row_label i) as [|d ds] eqn:Hrl; [simpl in Rl; lia|].
  destruct spaced; simpl app; simpl map; rewrite Au, Cu;
    injection Ru as -> ->; cbn [length Nat.eqb Nat.leb nth skipn andb fst snd];
    rewrite Arf, ?Cs;
    try change (toupper " ") with " "%char;
    cbn [Ascii.eqb Bool.eqb andb fst snd];
    rewrite Cc, Ra;
    replace ((code "A" + j >=? code "A") && (code "A" + j <? code "A" + width g)
             && (i + 1 >=? 1) && (i + 1 <=? height g)) with true
      by (symmetry; repeat (apply andb_true_iff; split); lia);
    f_equal; lia.
Qed.

(** X3 (commands are case-insensitive).  A line and its upper-case
    rendering give the same command on every board. *)
Theorem command_of_line_case_insensitive (g : MinesweeperGame)
    (line : list ascii) (row col : Z) (action : ascii) :
  command_of_line g (map toupper line) row col action
  = command_of_line g line row col action.
Proof.
  unfold command_of_line. now rewrite parse_input_toupper.
Qed.

(** X4 (the loop never acts on an uninitialised variable).  [row], [col]
    and [action] are declared without a value in [play_game_loop]; the
    command a line gives does not depend on what they hold when
    [parse_input] is called. *)
Theorem command_of_line_ignores_locals (g : MinesweeperGame)
    (line : list ascii) (row col : Z) (action : ascii)
    (row' col' : Z) (action' : ascii) :
  command_of_line g line row col action
  = command_of_line g line row' col' action'.
Proof. apply command_of_line_locals. Qed.

(** ** The loop over lines and the loop over commands *)

Section TextLoop.

Variable rand_seq : Z -> nat -> N.

Lemma toggle_flag_dims g r c :
  width (toggle_flag g r c) = width g /\ height (toggle_flag g r c) = height g.
Proof.
  unfold toggle_flag.
  destruct (negb (is_valid_position g r c)
            || CellState_eqb (state g r c) CELL_REVEALED); [auto|].
  destruct (CellState_eqb (state g r c) CELL_FLAGGED); [auto|].
  destruct (flags_placed g <? mine_count g); auto.
Qed.

Lemma first_click_prepare_dims fuel now g r c g1 :
  first_click_prepare rand_seq fuel now g r c = Some g1 ->
  width g1 = width g /\ height g1 = height g.
Proof.
  unfold first_click_prepare.
  destruct (is_valid_position g r c
            && CellState_eqb (state g r c) CELL_HIDDEN && first_click g).
  - destruct (generate_mines rand_seq now fuel g r c) as [g0|] eqn:Hg;
      [|discriminate].
    intros E. injection E as <-.
    destruct (generate_mines_frame _ _ _ _ _ _ _ Hg) as [Hs _].
    apply scalars_inv in Hs. simpl. tauto.
  - intros E. injection E as <-. auto.
Qed.

Lemma run_command_dims fuel now cmd g g' :
  run_command rand_seq fuel now cmd g = Some g' ->
  width g' = width g /\ height g' = height g.
Proof.
  destruct cmd as [r c|r c| | |]; simpl; intros H;
    try (injection H as <-; auto; fail).
  - destruct (reveal_cell_run _ _ _ _ _ _ _ H) as (g1 & Hp & Hrun).
    destruct (first_click_prepare_dims _ _ _ _ _ _ Hp) as [Hw Hh].
    pose proof (proj1 (cascade_evolves now) _ _ _ _ Hrun) as He.
    rewrite (ev_width _ _ He), (ev_height _ _ He). auto.
  - injection H as <-. apply toggle_flag_dims.
Qed.

Lemma commands_of_lines_dims g g' lines :
  width g' = width g -> height g' = height g ->
  commands_of_lines g' lines = commands_of_lines g lines.
Proof.
  intros Hw Hh. unfold commands_of_lines. apply map_ext. intros [n l].
  unfold command_or_nothing. simpl.
  now rewrite (command_of_line_dims g g' l 0 0 zero Hw Hh).
Qed.

Lemma play_game_loop_text_commands fuel lines :
  forall g row col action,
  play_game_loop_text rand_seq fuel lines g row col action
  = play_game_loop rand_seq fuel (commands_of_lines g lines) g.
Proof.
  induction lines as [|[now line] rest IH]; intros g row col action;
    [reflexivity|].
  cbn [play_game_loop_text commands_of_lines map play_game_loop fst snd].
  fold (commands_of_lines g rest).
  destruct (game_over g); [reflexivity|].
  unfold command_or_nothing.
  rewrite (command_of_line_locals g line 0 0 zero row col action).
  unfold command_of_line.
  destruct (parse_input g line row col action) as [[|] [[row' col'] action']].
  - destruct (command_of_action action' row' col') as [cmd|] eqn:Hc.
    + assert (Hstep : forall cmd', cmd' = cmd ->
        match run_command rand_seq fuel now cmd' g with
        | Some g' => play_game_loop_text rand_seq fuel rest g' row' col' action'
        | None => None
        end
        = match run_command rand_seq fuel now cmd' g with
          | Some g' => play_game_loop rand_seq fuel (commands_of_lines g rest) g'
          | None => None
          end).
      { intros cmd' _.
        destruct (run_command rand_seq fuel now cmd' g) as [g'|] eqn:Hr;
          [|reflexivity].
        destruct (run_command_dims _ _ _ _ _ Hr) as [Hw Hh].
        now rewrite IH, (commands_of_lines_dims g g' rest Hw Hh). }
      destruct cmd; try reflexivity; now apply Hstep.
    + cbn [run_command]. apply IH.
  - cbn [run_command]. apply IH.
Qed.

End TextLoop.

(** * Fields the cascade never writes *)

Lemma update_best_times_keeps e g :
  flag_count (update_best_times e g) = flag_count g
  /\ games_played (update_best_times e g) = games_played g
  /\ games_won (update_best_times e g) = games_won g.
Proof.
  unfold update_best_times.
  repeat match goal with
  | |- context [if ?b then _ else _] => destruct b
  end; auto.
Qed.

Lemma game_over_sequence_keeps now g :
  flag_count (game_over_sequence true now g) = flag_count g
  /\ games_played (game_over_sequence true now g) = games_played g + 1
  /\ games_won (game_over_sequence true now g) = games_won g + 1.
Proof.
  unfold game_over_sequence. cbv zeta.
  assert (Hshow : forall (F : MinesweeperGame -> Z),
            (forall v g0, F (set_state v g0) = F g0) ->
            forall g0, F (for_each_cell show_mine g0) = F g0).
  { intros F HF g0. apply for_each_cell_keeps. intros i j g1.
    unfold show_mine. destruct (mines g1 i j); [apply HF | reflexivity]. }
  rewrite !Hshow by reflexivity.
  match goal with
  | |- context [update_best_times ?e ?h] =>
      destruct (update_best_times_keeps e h) as (-> & -> & ->)
  end.
  auto.
Qed.

Lemma settle_keeps now g :
  flag_count (settle now g) = flag_count g
  /\ games_played (settle now g) - games_won (settle now g)
     = games_played g - games_won g
  /\ games_won (settle now g)
     = games_won g + (if check_victory g then 1 else 0).
Proof.
  unfold settle. destruct (check_victory g).
  - destruct (game_over_sequence_keeps now g) as (-> & -> & ->).
    split; [reflexivity | split; lia].
  - split; [reflexivity | split; lia].
Qed.

Lemma cascade_keeps now :
  (forall g r c g', cascade_run now g r c g' ->
     flag_count g' = flag_count g
     /\ games_played g' - games_won g' = games_played g - games_won g
     /\ games_won g <= games_won g')
  /\ (forall g r c l g', adjacent_run now g r c l g' ->
     flag_count g' = flag_count g
     /\ games_played g' - games_won g' = games_played g - games_won g
     /\ games_won g <= games_won g').
Proof.
  apply cascade_mutind.
  - intros. split; [reflexivity | split; lia].
  - intros. simpl. split; [reflexivity | split; lia].
  - intros g r c _ _ _.
    destruct (settle_keeps now (mark_revealed g r c)) as (-> & -> & ->).
    simpl. split; [reflexivity | split; [reflexivity|]].
    destruct (check_victory _); lia.
  - intros g r c g3 _ _ _ _ (IH1 & IH2 & IH3).
    destruct (settle_keeps now g3) as (-> & -> & ->).
    simpl in IH1, IH2, IH3.
    split; [assumption | split; [assumption|]].
    destruct (check_victory _); lia.
  - intros. split; [reflexivity | split; lia].
  - intros g r c d rest g1 g2 _ (A1 & A2 & A3) _ (B1 & B2 & B3).
    split; [congruence | split; lia].
Qed.

Lemma generate_loop_shape (rand_seq : Z -> nat -> N) seed sr sc :
  forall fuel k g placed g',
  generate_loop rand_seq seed fuel k g placed sr sc = Some g' ->
  exists m, g' = set_mines m g.
Proof.
  induction fuel as [|fuel IH]; intros k g placed g'; simpl.
  - destruct (placed <? mine_count g); [discriminate|].
    intros E. injection E as <-. exists (mines g). now destruct g.
  - destruct (placed <? mine_count g).
    + match goal with
      | |- context [if ?b then _ else _] => destruct b
      end.
      * apply IH.
      * intros H. apply IH in H. destruct H as [m ->]. now exists m.
    + intros E. injection E as <-. exists (mines g). now destruct g.
Qed.

Lemma calculate_numbers_shape g :
  exists n, calculate_numbers g = set_numbers n g.
Proof.
  unfold calculate_numbers, for_each_cell.
  apply (fold_cells_ind numbers_body (fun g' => exists n, g' = set_numbers n g)).
  - intros i j g0 [n ->]. unfold numbers_body.
    destruct (negb _); [|now exists n]. eexists. reflexivity.
  - exists (numbers g). now destruct g.
Qed.

Lemma generate_mines_shape (rand_seq : Z -> nat -> N) now fuel g sr sc g' :
  generate_mines rand_seq now fuel g sr sc = Some g' ->
  exists m n, g' = set_numbers n (set_mines m g).
Proof.
  unfold generate_mines.
  destruct (generate_loop rand_seq now fuel 0 g 0 sr sc) as [g0|] eqn:Hl;
    [|discriminate].
  intros E. injection E as <-.
  destruct (generate_loop_shape _ _ _ _ _ _ _ _ _ Hl) as [m ->].
  destruct (calculate_numbers_shape (set_mines m g)) as [n ->].
  now exists m, n.
Qed.

Lemma first_click_prepare_keeps (rand_seq : Z -> nat -> N) fuel now g r c g1 :
  first_click_prepare rand_seq fuel now g r c = Some g1 ->
  flag_count g1 = flag_count g /\ games_played g1 = games_played g
  /\ games_won g1 = games_won g.
Proof.
  unfold first_click_prepare.
  destruct (is_valid_position g r c
            && CellState_eqb (state g r c) CELL_HIDDEN && first_click g).
  - destruct (generate_mines rand_seq now fuel g r c) as [g0|] eqn:Hg;
      [|discriminate].
    intros E. injection E as <-.
    destruct (generate_mines_shape _ _ _ _ _ _ _ Hg) as (m & n & ->). auto.
  - intros E. injection E as <-. auto.
Qed.

Lemma toggle_flag_keeps g r c :
  flag_count (toggle_flag g r c) = flag_count g
  /\ games_played (toggle_flag g r c) = games_played g
  /\ games_won (toggle_flag g r c) = games_won g.
Proof.
  unfold toggle_flag.
  repeat match goal with
  | |- context [if ?b then _ else _] => destruct b
  end; auto.
Qed.

Lemma run_command_keeps (rand_seq : Z -> nat -> N) fuel now cmd g g' :
  run_command rand_seq fuel now cmd g = Some g' ->
  flag_count g' = flag_count g
  /\ games_played g' - games_won g' = games_played g - games_won g
  /\ games_won g <= games_won g'.
Proof.
  destruct cmd as [r c|r c| | |]; simpl; intros H;
    try (injection H as <-; split; [reflexivity | split; lia]).
  - destruct (reveal_cell_run _ _ _ _ _ _ _ H) as (g1 & Hp & Hrun).
    destruct (first_click_prepare_keeps _ _ _ _ _ _ _ Hp) as (A1 & A2 & A3).
    destruct (proj1 (cascade_keeps now) _ _ _ _ Hrun) as (B1 & B2 & B3).
    split; [congruence | split; lia].
  - injection H as <-.
    destruct (toggle_flag_keeps g r c) as (-> & -> & ->).
    split; [reflexivity | split; lia].
Qed.

(** * The cells of a session *)

Lemma settle_running now g :
  game_over (settle now g) = false -> settle now g = g.
Proof.
  unfold settle. destruct (check_victory g); [|reflexivity].
  pose proof (game_over_sequence_scalars true now g) as Hs.
  unfold scalars in Hs. injection Hs as _ _ _ _ _ Ho _ _.
  rewrite Ho. discriminate.
Qed.

(** While the game goes on, a reveal leaves the cells that hold a mine
    as they are. *)
Lemma cascade_mines_untouched now :
  (forall g r c g', cascade_run now g r c g' ->
     game_over g' = false ->
     forall i j, mines g i j = true -> state g' i j = state g i j)
  /\ (forall g r c l g', adjacent_run now g r c l g' ->
     game_over g' = false ->
     forall i j, mines g i j = true -> state g' i j = state g i j).
Proof.
  apply cascade_mutind.
  - reflexivity.
  - intros g r c _ _ Ho. simpl in Ho. discriminate.
  - intros g r c _ Hm _ Ho i j Hmij.
    rewrite (settle_running _ _ Ho). simpl.
    apply grid_set_other. intros E. injection E as -> ->. congruence.
  - intros g r c g3 _ Hm _ _ IH Ho i j Hmij.
    pose proof (settle_running _ _ Ho) as Hst. rewrite Hst in *.
    rewrite (IH Ho i j Hmij). simpl.
    apply grid_set_other. intros E. injection E as -> ->. congruence.
  - reflexivity.
  - intros g r c d rest g1 g2 Hrun IH1 Hadj IH2 Ho i j Hmij.
    pose proof (proj1 (cascade_evolves now) _ _ _ _ Hrun) as He1.
    pose proof (proj2 (cascade_evolves now) _ _ _ _ _ Hadj) as He2.
    assert (Ho1 : game_over g1 = false).
    { destruct (game_over g1) eqn:E; [|reflexivity].
      rewrite (ev_over _ _ He2 E) in Ho. discriminate. }
    rewrite (IH2 Ho i j) by (now rewrite (ev_mines _ _ He1)).
    now apply IH1.
Qed.

Lemma spec_status_running g : game_over g = false -> spec_status g <> Won.
Proof. intros Ho H. apply spec_status_won in H. destruct H. congruence. Qed.

Lemma safe_reveal_running now g r c g' :
  ready g -> hidden_at g r c = true -> mines g r c = false ->
  cascade_run now g r c g' -> spec_status g' <> Won ->
  game_over g' = false.
Proof.
  intros Hr Hh Hm Hrun Hnw.
  destruct (ready_reveal now g r c g' Hr Hh Hrun) as [Hinv _].
  rewrite Hm in Hinv.
  destruct (game_over g') eqn:Ho; [|reflexivity].
  destruct (victory g') eqn:Hv.
  - exfalso. apply Hnw. apply spec_status_won. auto.
  - destruct (inv_lost _ _ Hinv Ho Hv). discriminate.
Qed.

Lemma board_inv_restate g hit r c X f :
  board_inv g hit -> game_over g = false ->
  is_valid_position g r c = true ->
  state g r c <> CELL_REVEALED -> X <> CELL_REVEALED ->
  f - flags_placed g
  = (if CellState_eqb X CELL_FLAGGED then 1 else 0)
    - (if CellState_eqb (state g r c) CELL_FLAGGED then 1 else 0) ->
  board_inv (set_flags_placed f (set_state (grid_set (state g) r c X) g)) hit.
Proof.
  intros [Hfc Hsh Hfl] Ho Hv Hs HX Hf.
  pose proof (spec_status_running g Ho) as Hnw.
  specialize (Hsh Hnw). specialize (Hfl Hnw).
  constructor.
  - exact Hfc.
  - intros _. rewrite <- Hsh. unfold shown_mines.
    change (count_cells (set_flags_placed f _)) with (count_cells g).
    apply count_ext. intros i j _. simpl.
    destruct (cell_cases i j r c) as [[-> ->]|Hne].
    + rewrite grid_set_same.
      apply CellState_eqb_neq in Hs, HX. now rewrite Hs, HX.
    + now rewrite grid_set_other.
  - intros _. simpl flags_placed. unfold flagged_cells in *.
    change (count_cells (set_flags_placed f _)) with (count_cells g).
    simpl state.
    destruct (CellState_eqb X CELL_FLAGGED) eqn:EX;
      destruct (CellState_eqb (state g r c) CELL_FLAGGED) eqn:Eg.
    + replace f with (flags_placed g) by lia.
      rewrite <- Hfl. apply count_ext. intros i j _.
      destruct (cell_cases i j r c) as [[-> ->]|Hne].
      * now rewrite grid_set_same, EX, Eg.
      * now rewrite grid_set_other.
    + replace f with (flags_placed g + 1) by lia. rewrite <- Hfl.
      apply (count_flip g _ _ r c); auto.
      * now rewrite grid_set_same.
      * intros i j _ Hne. now rewrite grid_set_other.
    + replace (flags_placed g) with (f + 1) in Hfl by lia.
      assert (H1 : count_cells g
                (fun i j => CellState_eqb (state g i j) CELL_FLAGGED)
              = count_cells g
                  (fun i j => CellState_eqb
                     (grid_set (state g) r c X i j) CELL_FLAGGED) + 1).
      { apply (count_flip g _ _ r c); auto.
        - now rewrite grid_set_same.
        - intros i j _ Hne. now rewrite grid_set_other. }
      lia.
    + replace f with (flags_placed g) by lia.
      rewrite <- Hfl. apply count_ext. intros i j _.
      destruct (cell_cases i j r c) as [[-> ->]|Hne].
      * now rewrite grid_set_same, EX, Eg.
      * now rewrite grid_set_other.
Qed.

Lemma board_inv_toggle_flag g hit r c :
  session_inv g hit -> board_inv g hit -> game_over g = false ->
  board_inv (toggle_flag g r c) hit.
Proof.
  intros Hinv Hb Ho. unfold toggle_flag.
  destruct (negb (is_valid_position g r c)
            || CellState_eqb (state g r c) CELL_REVEALED) eqn:Hguard; auto.
  apply orb_false_iff in Hguard. destruct Hguard as [Hv Hr].
  apply negb_false_iff in Hv.
  apply CellState_eqb_neq in Hr.
  destruct (CellState_eqb (state g r c) CELL_FLAGGED) eqn:Hf.
  - apply board_inv_restate; auto; try discriminate.
    rewrite Hf. simpl. lia.
  - destruct (flags_placed g <? mine_count g) eqn:Hlt; auto.
    apply board_inv_restate; auto; try discriminate.
    rewrite Hf. simpl. lia.
Qed.

Lemma board_inv_reset_round g : board_inv (reset_round g) false.
Proof.
  pose proof (reset_round_scalars g) as Hs. unfold scalars in Hs.
  injection Hs as Ew Eh Em Er Ef Eo Ev Ec.
  assert (Hd : same_dims g (reset_round g)) by (split; assumption).
  assert (Hclear : forall i j, is_valid_position (reset_round g) i j = true ->
            state (reset_round g) i j = CELL_HIDDEN).
  { intros i j Hv. rewrite (valid_same _ _ _ _ Hd) in Hv.
    destruct (reset_round_cleared g i j Hv) as (_ & H2 & _). exact H2. }
  constructor.
  - rewrite Em. unfold reset_round. cbv zeta.
    rewrite (for_each_cell_keeps clear_cell flag_count); reflexivity.
  - intros _. apply count_zero. intros i j Hv. now rewrite (Hclear i j Hv).
  - intros _. rewrite Ef. apply count_zero. intros i j Hv.
    now rewrite (Hclear i j Hv).
Qed.

Lemma board_inv_configured g : configured g -> board_inv g false.
Proof.
  intros [g0 diff Hd | g0 in_w in_h in_m g1 Hc].
  - unfold setup_difficulty. apply board_inv_reset_round.
  - apply custom_difficulty_play in Hc.
    destruct Hc as (w & h & m & _ & _ & _ & _ & _ & _ & ->).
    apply board_inv_reset_round.
Qed.

Section BoardInvariant.

Variable rand_seq : Z -> nat -> N.

Lemma reveal_cell_skip fuel now g r c g' :
  hidden_at g r c = false ->
  reveal_cell rand_seq fuel now g r c = Some g' -> g' = g.
Proof.
  intros Hh. unfold reveal_cell. rewrite reveal_cell_rec_S, Hh. simpl.
  congruence.
Qed.

Lemma board_inv_reveal fuel now g hit r c g' :
  session_inv g hit -> board_inv g hit -> game_over g = false ->
  reveal_cell rand_seq fuel now g r c = Some g' ->
  board_inv g' (hit || hidden_at g r c && mines g' r c).
Proof.
  intros Hinv Hb Ho Hrev.
  destruct (hidden_at g r c) eqn:Hh.
  2:{ rewrite (reveal_cell_skip _ _ _ _ _ _ Hh Hrev).
      simpl. now rewrite orb_false_r. }
  destruct (reveal_cell_run _ _ _ _ _ _ _ Hrev) as (g1 & Hp & Hrun).
  destruct (prepare_ready _ _ _ _ _ _ _ _ Hinv Ho Hh Hp)
    as (Hr & Hh1 & Hsafe1 & Hsame & Hst & Hw & Hht & Hmc & Hfp & Hrc).
  destruct (first_click_prepare_keeps _ _ _ _ _ _ _ Hp) as (Hfc1 & _ & _).
  destruct (proj1 (cascade_keeps now) _ _ _ _ Hrun) as (Hfc' & _ & _).
  pose proof (proj1 (cascade_evolves now) _ _ _ _ Hrun) as He.
  destruct (inv_running _ _ Hinv Ho) as [-> _].
  destruct Hb as [Bfc Bsh Bfl].
  pose proof (spec_status_running g Ho) as Hnw.
  specialize (Bsh Hnw). specialize (Bfl Hnw).
  assert (Hd1 : same_dims g g1) by (split; assumption).
  assert (Hsh1 : shown_mines g1 = 0).
  { destruct (first_click g) eqn:Hf.
    - destruct (inv_fresh _ _ Hinv Hf) as (_ & Hnr & _).
      apply count_zero. intros i j Hv.
      rewrite (valid_same _ _ _ _ Hd1) in Hv. rewrite Hst.
      specialize (Hnr i j Hv). apply CellState_eqb_neq in Hnr.
      now rewrite Hnr.
    - now rewrite (Hsame eq_refl). }
  assert (Hfl1 : flagged_cells g1 = flags_placed g1).
  { rewrite Hfp, <- Bfl. unfold flagged_cells.
    rewrite (count_same g g1 _ Hd1). now rewrite Hst. }
  assert (Hd' : same_dims g1 g') by (now apply evolves_same_dims).
  apply hidden_at_iff in Hh1. destruct Hh1 as [Hv1 Hs1].
  rewrite (ev_mines _ _ He). cbn [orb andb].
  destruct (mines g1 r c) eqn:Hm.
  - assert (Eg' : g' = set_victory false
                    (set_game_over true (mark_revealed g1 r c))).
    { apply (loss_run now); auto. apply hidden_at_iff. auto. }
    subst g'. constructor.
    + simpl. congruence.
    + intros _. transitivity (shown_mines g1 + 1);
        [|rewrite Hsh1; reflexivity].
      unfold shown_mines.
      change (count_cells (set_victory _ _)) with (count_cells g1).
      apply (count_flip g1 _ _ r c); auto.
      * now rewrite Hs1.
      * simpl. now rewrite grid_set_same, Hm.
      * intros i j _ Hne. simpl. now rewrite grid_set_other.
    + intros _. simpl flags_placed. rewrite <- Hfl1. unfold flagged_cells.
      change (count_cells (set_victory _ _)) with (count_cells g1).
      apply count_ext. intros i j _. simpl.
      destruct (cell_cases i j r c) as [[-> ->]|Hne].
      * now rewrite grid_set_same, Hs1.
      * now rewrite grid_set_other.
  - constructor.
    + rewrite (ev_mine_count _ _ He). congruence.
    + intros Hnw'.
      assert (Ho' : game_over g' = false).
      { apply (safe_reveal_running now g1 r c); auto. apply hidden_at_iff. auto. }
      rewrite <- Hsh1. unfold shown_mines.
      rewrite (count_same g1 g' _ Hd'). apply count_ext. intros i j _.
      rewrite (ev_mines _ _ He).
      destruct (mines g1 i j) eqn:Hmij; [|now rewrite !andb_false_r].
      now rewrite (proj1 (cascade_mines_untouched now) _ _ _ _ Hrun Ho' i j Hmij).
    + intros Hnw'.
      assert (Ho' : game_over g' = false).
      { apply (safe_reveal_running now g1 r c); auto. apply hidden_at_iff. auto. }
      rewrite (ev_flags_placed _ _ He), <- Hfl1. unfold flagged_cells.
      rewrite (count_same g1 g' _ Hd'). apply count_ext. intros i j _.
      destruct (CellState_eqb (state g1 i j) CELL_FLAGGED) eqn:E1.
      * apply CellState_eqb_eq in E1. apply CellState_eqb_eq.
        now apply (ev_flags_kept _ _ He Ho').
      * apply CellState_eqb_neq in E1. apply CellState_eqb_neq.
        intros E'. apply E1. now apply (ev_flagged _ _ He).
Qed.

Lemma board_inv_run_command fuel now cmd g hit g' :
  session_inv g hit -> board_inv g hit -> game_over g = false ->
  run_command rand_seq fuel now cmd g = Some g' ->
  board_inv g' (hit || reveals_mine cmd g g').
Proof.
  intros Hinv Hb Ho.
  destruct cmd as [r c|r c| | |]; simpl; intros H;
    try (injection H as <-; now rewrite orb_false_r).
  - now apply (board_inv_reveal fuel now).
  - injection H as <-. rewrite orb_false_r.
    now apply board_inv_toggle_flag.
Qed.

Lemma in_session_board_inv g hit :
  in_session rand_seq g hit -> board_inv g hit.
Proof.
  induction 1 as [g Hc | g hit fuel now cmd g' Hs IH Ho Hrun].
  - now apply board_inv_configured.
  - apply (board_inv_run_command fuel now); auto.
    now apply (in_session_inv rand_seq).
Qed.

End BoardInvariant.

(** * The numbers on the board *)

Lemma neighbour_offsets_iff (d : Z * Z) :
  In d neighbour_offsets
  <-> -1 <= fst d <= 1 /\ -1 <= snd d <= 1 /\ d <> (0, 0).
Proof.
  destruct d as [a b]. cbn [fst snd]. split.
  - intros H. simpl in H.
    repeat (destruct H as [H|H]; [injection H as <- <-; repeat split; (lia || discriminate)|]).
    destruct H.
  - intros (Ha & Hb & Hne).
    assert (Ea : a = -1 \/ a = 0 \/ a = 1) by lia.
    assert (Eb : b = -1 \/ b = 0 \/ b = 1) by lia.
    destruct Ea as [-> | [-> | ->]]; destruct Eb as [-> | [-> | ->]];
      try (exfalso; apply Hne; reflexivity); simpl; auto 10.
Qed.

Lemma NoDup_neighbour_offsets : NoDup neighbour_offsets.
Proof.
  simpl. repeat constructor; simpl; intuition discriminate.
Qed.

Lemma is_neighbour_iff (r c i j : Z) :
  is_neighbour r c i j = true <-> In (i - r, j - c) neighbour_offsets.
Proof.
  rewrite neighbour_offsets_iff. cbn [fst snd]. unfold is_neighbour.
  rewrite !andb_true_iff, negb_true_iff, andb_false_iff.
  rewrite !Z.leb_le, !Z.eqb_neq. split.
  - intros ((H1 & H2) & H3). repeat split; try lia.
    intros E. injection E as E1 E2. lia.
  - intros (H1 & H2 & H3). repeat split; try lia.
    destruct (Z.eq_dec i r) as [->|?]; [|now left]. right.
    intros ->. apply H3. f_equal; lia.
Qed.

Lemma fold_count_filter {A} (q : A -> bool) (l : list A) (z : Z) :
  fold_left (fun count d => if q d then count + 1 else count) l z
  = z + Z.of_nat (length (filter q l)).
Proof.
  revert z. induction l as [|a l IH]; intros z; simpl; [lia|].
  rewrite IH. destruct (q a); simpl; lia.
Qed.

Lemma count_adjacent_mines_filter g r c :
  count_adjacent_mines g r c
  = Z.of_nat (length (filter (fun d =>
        is_valid_position g (r + fst d) (c + snd d)
        && mines g (r + fst d) (c + snd d)) neighbour_offsets)).
Proof.
  unfold count_adjacent_mines.
  rewrite (fold_count_filter (fun d =>
        is_valid_position g (r + fst d) (c + snd d)
        && mines g (r + fst d) (c + snd d))).
  lia.
Qed.

Lemma count_adjacent_mines_around g r c :
  count_adjacent_mines g r c = mines_around g r c.
Proof.
  rewrite count_adjacent_mines_filter. unfold mines_around, count_cells.
  f_equal.
  set (q := fun d : Z * Z =>
        is_valid_position g (r + fst d) (c + snd d)
        && mines g (r + fst d) (c + snd d)).
  set (p := fun ij : Z * Z =>
        is_neighbour r c (fst ij) (snd ij) && mines g (fst ij) (snd ij)).
  rewrite <- (length_map (fun d => (r + fst d, c + snd d))
                (filter q neighbour_offsets)).
  apply Permutation.Permutation_length, Permutation.NoDup_Permutation.
  - apply NoDup_map_NoDup_ForallPairs.
    + intros [a b] [a' b'] _ _ E. injection E as E1 E2. f_equal; lia.
    + apply NoDup_filter, NoDup_neighbour_offsets.
  - apply NoDup_filter, NoDup_cells.
  - intros [i j]. rewrite in_map_iff, filter_In, in_cells. split.
    + intros ([a b] & E & Hin). injection E as <- <-.
      apply filter_In in Hin. destruct Hin as [Hin Hq].
      unfold q in Hq. cbn [fst snd] in Hq.
      apply andb_true_iff in Hq. destruct Hq as [Hv Hm].
      split; [exact Hv|]. unfold p. cbn [fst snd]. rewrite Hm, andb_true_r.
      apply is_neighbour_iff.
      replace (r + a - r) with a by lia. replace (c + b - c) with b by lia.
      exact Hin.
    + intros [Hv Hp]. unfold p in Hp. cbn [fst snd] in Hp.
      apply andb_true_iff in Hp. destruct Hp as [Hn Hm].
      apply is_neighbour_iff in Hn.
      exists (i - r, j - c). cbn [fst snd]. split; [f_equal; lia|].
      apply filter_In. split; [exact Hn|]. unfold q. cbn [fst snd].
      replace (r + (i - r)) with i by lia. replace (c + (j - c)) with j by lia.
      now rewrite Hv, Hm.
Qed.

Lemma count_adjacent_mines_range g r c :
  0 <= count_adjacent_mines g r c <= 8.
Proof.
  rewrite count_adjacent_mines_filter.
  match goal with
  | |- context [filter ?q _] =>
      pose proof (filter_length_le q neighbour_offsets) as H
  end.
  change (length neighbour_offsets) with 8%nat in H. lia.
Qed.

(** X5 (the number of a cell counts the mines around it).
    [count_adjacent_mines] returns the number of cells of the board that
    touch [(row, col)], by a side or a corner, and hold a mine: each of
    them is counted once, positions outside the board count for nothing,
    and the result lies between 0 and 8. *)
Theorem count_adjacent_mines_counts (g : MinesweeperGame) (row col : Z) :
  count_adjacent_mines g row col = mines_around g row col
  /\ 0 <= count_adjacent_mines g row col <= 8.
Proof.
  split; [apply count_adjacent_mines_around | apply count_adjacent_mines_range].
Qed.

(** * Counting on the board and on the display *)

Lemma count_zero_inv g p :
  count_cells g p = 0 ->
  forall i j, is_valid_position g i j = true -> p i j = false.
Proof.
  intros H i j Hv. destruct (p i j) eqn:Hp; [|reflexivity].
  assert (H1 : count_cells g (fun i' j' => (i' =? i) && (j' =? j)) = 0 + 1).
  { rewrite <- (count_zero g (fun _ _ => false)) by reflexivity.
    apply (count_flip g _ _ i j); auto.
    - now rewrite !Z.eqb_refl.
    - intros i' j' _ Hne.
      destruct (i' =? i) eqn:Ei; destruct (j' =? j) eqn:Ej; auto.
      apply Z.eqb_eq in Ei, Ej. subst. congruence. }
  assert (H2 : count_cells g (fun i' j' => (i' =? i) && (j' =? j))
               <= count_cells g p).
  { apply count_mono. intros i' j' _ E.
    apply andb_true_iff in E. destruct E as [Ei Ej].
    apply Z.eqb_eq in Ei, Ej. now subst. }
  lia.
Qed.

Lemma count_full g p q :
  (forall i j, is_valid_position g i j = true -> p i j = true -> q i j = true) ->
  count_cells g p = count_cells g q ->
  forall i j, is_valid_position g i j = true -> q i j = true -> p i j = true.
Proof.
  intros Hpq Hc i j Hv Hq.
  rewrite (count_split g q p Hpq) in Hc.
  assert (H0 : count_cells g (fun i j => q i j && negb (p i j)) = 0) by lia.
  pose proof (count_zero_inv g _ H0 i j Hv) as H. cbv beta in H.
  rewrite Hq in H. simpl in H. now apply negb_false_iff in H.
Qed.

Lemma concat_rows {A} (f : Z -> Z -> A) (lh lw : list Z) :
  concat (map (fun i => map (f i) lw) lh)
  = map (fun ij => f (fst ij) (snd ij)) (list_prod lh lw).
Proof.
  induction lh as [|a lh IH]; simpl; [reflexivity|].
  now rewrite IH, map_app, map_map.
Qed.

Lemma count_occ_map {A} (f : A -> Z) (l : list A) (ch : Z) :
  count_occ Z.eq_dec (map f l) ch = length (filter (fun x => f x =? ch) l).
Proof.
  induction l as [|a l IH]; simpl; [reflexivity|].
  destruct (Z.eq_dec (f a) ch) as [E|E].
  - apply Z.eqb_eq in E. rewrite E. simpl. now rewrite IH.
  - apply Z.eqb_neq in E. now rewrite E.
Qed.

Lemma shown_count g ch :
  shown g ch = count_cells g (fun i j => get_cell_display g i j =? ch).
Proof.
  unfold shown, display_rows, display_row, count_cells, cells.
  now rewrite (concat_rows (get_cell_display g)), count_occ_map.
Qed.

(** * What a session shows *)

Lemma session_started g hit i j :
  session_inv g hit -> is_valid_position g i j = true ->
  state g i j = CELL_REVEALED -> first_click g = false.
Proof.
  intros Hinv Hv Hs. destruct (first_click g) eqn:Hf; [|reflexivity].
  destruct (inv_fresh _ _ Hinv Hf) as (_ & Hnr & _).
  now destruct (Hnr i j Hv).
Qed.

Lemma session_finished_started g hit :
  session_inv g hit -> game_over g = true -> first_click g = false.
Proof.
  intros Hinv Ho. destruct (first_click g) eqn:Hf; [|reflexivity].
  destruct (inv_fresh _ _ Hinv Hf) as (_ & _ & _ & Hn). congruence.
Qed.

Lemma session_number g hit i j :
  session_inv g hit -> is_valid_position g i j = true ->
  state g i j = CELL_REVEALED -> mines g i j = false ->
  numbers g i j = mines_around g i j /\ 0 <= mines_around g i j <= 8.
Proof.
  intros Hinv Hv Hs Hm.
  pose proof (session_started g hit i j Hinv Hv Hs) as Hf.
  destruct (inv_placed _ _ Hinv Hf) as [_ Hok].
  rewrite (Hok i j Hv Hm).
  rewrite <- count_adjacent_mines_around.
  split; [reflexivity | apply count_adjacent_mines_range].
Qed.

Lemma session_display g hit i j :
  session_inv g hit -> is_valid_position g i j = true ->
  get_cell_display g i j
  = match state g i j with
    | CELL_FLAGGED => 70
    | CELL_HIDDEN => 46
    | CELL_REVEALED =>
        if mines g i j then 42
        else if mines_around g i j =? 0 then 32
        else 48 + mines_around g i j
    end
  /\ (state g i j = CELL_REVEALED -> mines g i j = false ->
      0 <= mines_around g i j <= 8).
Proof.
  intros Hinv Hv. unfold get_cell_display.
  destruct (state g i j) eqn:Hs; simpl; try (split; [reflexivity | discriminate]).
  destruct (mines g i j) eqn:Hm; [split; [reflexivity | discriminate]|].
  destruct (session_number g hit i j Hinv Hv Hs Hm) as [-> Hr].
  split; [reflexivity | auto].
Qed.

Lemma won_cleared g hit :
  session_inv g hit ->
  (spec_status g = Won <->
   forall i j, is_valid_position g i j = true -> mines g i j = false ->
               state g i j = CELL_REVEALED).
Proof.
  intros Hinv.
  pose proof (inv_width _ _ Hinv) as Hw. pose proof (inv_height _ _ Hinv) as Hh.
  pose proof (count_complement g (mines g) ltac:(lia) ltac:(lia)) as Hcc.
  fold (count_mines g) in Hcc.
  split.
  - intros Hwon. apply spec_status_won in Hwon. destruct Hwon as [Ho Hv].
    destruct (inv_won _ _ Hinv Ho Hv) as (-> & Hr & _).
    pose proof (session_finished_started g false Hinv Ho) as Hf.
    destruct (inv_placed _ _ Hinv Hf) as [Hcm _].
    pose proof (inv_count _ _ Hinv) as Hc. cbv iota in Hc.
    unfold non_mine_cells in Hr.
    intros i j Hvalid Hm.
    pose proof (count_full g
      (fun i j => CellState_eqb (state g i j) CELL_REVEALED
                  && negb (mines g i j))
      (fun i j => negb (mines g i j))) as H.
    cbv beta in H. fold (safe_revealed g) in H.
    assert (H' : CellState_eqb (state g i j) CELL_REVEALED
                 && negb (mines g i j) = true).
    { apply H; auto.
      - intros i' j' _ E. apply andb_true_iff in E. tauto.
      - lia.
      - now rewrite Hm. }
    apply andb_true_iff in H'. destruct H' as [H' _].
    now apply CellState_eqb_eq.
  - intros Hall.
    assert (Hsafe : safe_revealed g = count_cells g (fun i j => negb (mines g i j))).
    { apply count_ext. intros i j Hv.
      destruct (mines g i j) eqn:Hm; [now rewrite andb_false_r|].
      now rewrite (Hall i j Hv Hm). }
    assert (Hv0 : is_valid_position g 0 0 = true) by (apply valid_iff; lia).
    destruct (first_click g) eqn:Hf.
    + destruct (inv_fresh _ _ Hinv Hf) as (He & Hnr & _).
      destruct (Hnr 0 0 Hv0). apply Hall; auto.
    + destruct (inv_placed _ _ Hinv Hf) as [Hcm _].
      pose proof (inv_count _ _ Hinv) as Hc.
      apply spec_status_won.
      destruct (game_over g) eqn:Ho.
      * split; [reflexivity|]. destruct (victory g) eqn:Hv; [reflexivity|].
        destruct (inv_lost _ _ Hinv Ho Hv) as [-> Hle].
        cbv iota in Hc. unfold non_mine_cells in Hle. lia.
      * destruct (inv_running _ _ Hinv Ho) as [-> Hlt].
        cbv iota in Hc. unfold non_mine_cells in Hlt. lia.
Qed.

Lemma won_all_revealed g hit :
  session_inv g hit -> spec_status g = Won ->
  forall i j, is_valid_position g i j = true -> state g i j = CELL_REVEALED.
Proof.
  intros Hinv Hwon i j Hv.
  destruct (mines g i j) eqn:Hm.
  - apply spec_status_won in Hwon. destruct Hwon as [Ho Hvi].
    destruct (inv_won _ _ Hinv Ho Hvi) as (_ & _ & Hall). now apply Hall.
  - now apply (proj1 (won_cleared g hit Hinv) Hwon).
Qed.

Lemma shown_mines_status g hit :
  session_inv g hit -> board_inv g hit ->
  shown_mines g
  = match spec_status g with
    | Won => mine_count g
    | Lost => 1
    | _ => 0
    end.
Proof.
  intros Hinv Hb.
  destruct (spec_status g) eqn:Hst.
  - rewrite (bi_shown _ _ Hb) by congruence.
    unfold spec_status in Hst. destruct (game_over g) eqn:Ho.
    + destruct (victory g); discriminate.
    + now destruct (inv_running _ _ Hinv Ho) as [-> _].
  - rewrite (bi_shown _ _ Hb) by congruence.
    unfold spec_status in Hst. destruct (game_over g) eqn:Ho.
    + destruct (victory g); discriminate.
    + now destruct (inv_running _ _ Hinv Ho) as [-> _].
  - pose proof Hst as Hwon. apply spec_status_won in Hwon.
    destruct Hwon as [Ho Hv].
    pose proof (session_finished_started g hit Hinv Ho) as Hf.
    destruct (inv_placed _ _ Hinv Hf) as [<- _].
    unfold shown_mines, count_mines. apply count_ext. intros i j Hvalid.
    now rewrite (won_all_revealed g hit Hinv Hst i j Hvalid).
  - rewrite (bi_shown _ _ Hb) by congruence.
    apply spec_status_lost in Hst. destruct Hst as [Ho Hv].
    now destruct (inv_lost _ _ Hinv Ho Hv) as [-> _].
Qed.

Lemma two_mines_lost_session : in_session sample_rand two_mines_lost true.
Proof.
  apply (session_step_eval sample_rand two_mines_open false 100%nat 3 (CmdR 3 2)).
  - exact two_mines_open_session.
  - vm_compute. reflexivity.
  - exact two_mines_lost_run.
  - vm_compute. reflexivity.
Qed.

Section SessionDisplay.

Variable rand_seq : Z -> nat -> N.

Lemma in_session_both g hit :
  in_session rand_seq g hit -> session_inv g hit /\ board_inv g hit.
Proof.
  intros Hs. split;
    [now apply (in_session_inv rand_seq) | now apply (in_session_board_inv rand_seq)].
Qed.

Lemma running_no_mine_shown g hit i j :
  in_session rand_seq g hit -> game_over g = false ->
  is_valid_position g i j = true -> state g i j = CELL_REVEALED ->
  mines g i j = false.
Proof.
  intros Hs Ho Hv Hst. destruct (in_session_both g hit Hs) as [Hinv Hb].
  pose proof (bi_shown _ _ Hb (spec_status_running g Ho)) as Hsh.
  destruct (inv_running _ _ Hinv Ho) as [-> _].
  pose proof (count_zero_inv g _ Hsh i j Hv) as H. cbv beta in H.
  rewrite Hst in H. exact H.
Qed.

(** X6 (the grid shows the board as it is).  In every state of a session
    and for every cell of the board, [get_cell_display] gives F for a
    Flagged cell, a dot for a Hidden one, a star for a Revealed mine, and
    for a Revealed safe cell a blank when no mine touches it and otherwise
    the digit of the number of mines that touch it, which is at most 8;
    and as long as the game is not over no star is shown. *)
Theorem display_shows_the_board (g : MinesweeperGame) (hit : bool) (i j : Z) :
  in_session rand_seq g hit -> is_valid_position g i j = true ->
  get_cell_display g i j
  = match state g i j with
    | CELL_FLAGGED => 70
    | CELL_HIDDEN => 46
    | CELL_REVEALED =>
        if mines g i j then 42
        else if mines_around g i j =? 0 then 32
        else 48 + mines_around g i j
    end
  /\ (state g i j = CELL_REVEALED -> mines g i j = false ->
      0 <= mines_around g i j <= 8)
  /\ (game_over g = false -> get_cell_display g i j <> 42).
Proof.
  intros Hs Hv. destruct (in_session_both g hit Hs) as [Hinv Hb].
  destruct (session_display g hit i j Hinv Hv) as [Hd Hr].
  split; [exact Hd|]. split; [exact Hr|].
  intros Ho. rewrite Hd.
  destruct (state g i j) eqn:Hst; try discriminate.
  rewrite (running_no_mine_shown g hit i j Hs Ho Hv Hst).
  specialize (Hr eq_refl (running_no_mine_shown g hit i j Hs Ho Hv Hst)).
  destruct (mines_around g i j =? 0); [discriminate | lia].
Qed.

Lemma shown_star g hit :
  session_inv g hit -> shown g 42 = shown_mines g.
Proof.
  intros Hinv. rewrite shown_count. unfold shown_mines.
  apply count_ext. intros i j Hv.
  destruct (session_display g hit i j Hinv Hv) as [-> Hr].
  destruct (state g i j); try reflexivity. cbn [CellState_eqb andb].
  destruct (mines g i j); [reflexivity|].
  specialize (Hr eq_refl eq_refl).
  destruct (mines_around g i j =? 0) eqn:E0; [reflexivity|].
  apply Z.eqb_neq in E0. apply Z.eqb_neq. lia.
Qed.

Lemma shown_flag g hit :
  session_inv g hit -> shown g 70 = flagged_cells g.
Proof.
  intros Hinv. rewrite shown_count. unfold flagged_cells.
  apply count_ext. intros i j Hv.
  destruct (session_display g hit i j Hinv Hv) as [-> Hr].
  destruct (state g i j); try reflexivity. cbn [CellState_eqb andb].
  destruct (mines g i j); [reflexivity|].
  specialize (Hr eq_refl eq_refl).
  destruct (mines_around g i j =? 0) eqn:E0; [reflexivity|].
  apply Z.eqb_neq in E0. apply Z.eqb_neq. lia.
Qed.

(** X7 (the mines on the display).  In every state of a session the
    number of stars on the grid is 0 while the game goes on, 1 after a
    loss (only the mine that was hit is shown) and [mine_count] after a
    win. *)
Theorem mines_shown_by_status (g : MinesweeperGame) (hit : bool) :
  in_session rand_seq g hit ->
  shown g 42
  = match spec_status g with
    | Won => mine_count g
    | Lost => 1
    | _ => 0
    end.
Proof.
  intros Hs. destruct (in_session_both g hit Hs) as [Hinv Hb].
  rewrite (shown_star g hit Hinv). now apply (shown_mines_status g hit).
Qed.

(** X8 (the flag counters of the header).  In every state of a session
    that is not Won, the "Flags:" field of the header is the number of F
    on the grid and the "Remaining:" field is [mine_count] minus that
    number, which is not negative; on a Won board no F is left on the
    grid, whatever the header shows. *)
Theorem flag_counters_match_grid (g : MinesweeperGame) (hit : bool) :
  in_session rand_seq g hit ->
  (spec_status g <> Won ->
     display_flags g = shown g 70
     /\ display_remaining g = mine_count g - shown g 70
     /\ 0 <= display_remaining g)
  /\ (spec_status g = Won -> shown g 70 = 0).
Proof.
  intros Hs. destruct (in_session_both g hit Hs) as [Hinv Hb].
  rewrite (shown_flag g hit Hinv). split.
  - intros Hnw. pose proof (bi_flags _ _ Hb Hnw) as Hf.
    pose proof (bi_flag_count _ _ Hb) as Hfc.
    pose proof (inv_flags _ _ Hinv) as Hle.
    unfold display_flags, display_remaining. lia.
  - intros Hwon. apply count_zero. intros i j Hv.
    now rewrite (won_all_revealed g hit Hinv Hwon i j Hv).
Qed.

(** X9 (what [revealed_count] counts).  In every state of a session the
    number of Revealed cells of the board is [revealed_count], plus
    [mine_count] on a Won board, where the mines are shown without being
    counted. *)
Theorem revealed_count_counts_cells (g : MinesweeperGame) (hit : bool) :
  in_session rand_seq g hit ->
  revealed_cells g
  = revealed_count g
    + match spec_status g with Won => mine_count g | _ => 0 end.
Proof.
  intros Hs. destruct (in_session_both g hit Hs) as [Hinv Hb].
  assert (Hsplit : revealed_cells g = safe_revealed g + shown_mines g).
  { unfold revealed_cells, safe_revealed, shown_mines.
    rewrite (count_split g
      (fun i j => CellState_eqb (state g i j) CELL_REVEALED)
      (fun i j => CellState_eqb (state g i j) CELL_REVEALED
                  && negb (mines g i j))).
    - f_equal. apply count_ext. intros i j _.
      destruct (CellState_eqb (state g i j) CELL_REVEALED);
        destruct (mines g i j); reflexivity.
    - intros i j _ E. apply andb_true_iff in E. tauto. }
  rewrite Hsplit, (shown_mines_status g hit Hinv Hb), (inv_count _ _ Hinv).
  destruct (spec_status g) eqn:Hst.
  - unfold spec_status in Hst. destruct (game_over g) eqn:Ho.
    + destruct (victory g); discriminate.
    + destruct (inv_running _ _ Hinv Ho) as [-> _]. lia.
  - unfold spec_status in Hst. destruct (game_over g) eqn:Ho.
    + destruct (victory g); discriminate.
    + destruct (inv_running _ _ Hinv Ho) as [-> _]. lia.
  - apply spec_status_won in Hst. destruct Hst as [Ho Hv].
    destruct (inv_won _ _ Hinv Ho Hv) as (-> & _). lia.
  - apply spec_status_lost in Hst. destruct Hst as [Ho Hv].
    destruct (inv_lost _ _ Hinv Ho Hv) as [-> _]. lia.
Qed.

(** X10 (a game is won when the safe cells are uncovered).  In every
    state of a session the status is Won exactly when every cell of the
    board without a mine is Revealed; every cell of a Won board is
    Revealed. *)
Theorem won_iff_safe_cells_revealed (g : MinesweeperGame) (hit : bool) :
  in_session rand_seq g hit ->
  (spec_status g = Won <->
   forall i j, is_valid_position g i j = true -> mines g i j = false ->
               state g i j = CELL_REVEALED)
  /\ (spec_status g = Won ->
      forall i j, is_valid_position g i j = true ->
                  state g i j = CELL_REVEALED).
Proof.
  intros Hs. destruct (in_session_both g hit Hs) as [Hinv _].
  split; [now apply (won_cleared g hit) | now apply (won_all_revealed g hit)].
Qed.

End SessionDisplay.

(** * What the commands do to a game *)

Section Commands.

Variable rand_seq : Z -> nat -> N.

(** X11 (a reveal makes progress).  In a session whose game goes on, a
    reveal of a Hidden cell of the board leaves that cell Revealed and
    [revealed_count] strictly larger, and every cell that was Revealed
    stays Revealed. *)
Theorem reveal_makes_progress (fuel : nat) (now : Z) (g : MinesweeperGame)
    (hit : bool) (r c : Z) (g' : MinesweeperGame) :
  in_session rand_seq g hit -> game_over g = false ->
  hidden_at g r c = true ->
  reveal_cell rand_seq fuel now g r c = Some g' ->
  state g' r c = CELL_REVEALED
  /\ revealed_count g < revealed_count g'
  /\ (forall i j, state g i j = CELL_REVEALED -> state g' i j = CELL_REVEALED).
Proof.
  intros Hs Ho Hh Hrev. apply (in_session_inv rand_seq) in Hs.
  destruct (reveal_cell_run _ _ _ _ _ _ _ Hrev) as (g1 & Hp & Hrun).
  destruct (prepare_ready _ _ _ _ _ _ _ _ Hs Ho Hh Hp)
    as (Hr & Hh1 & _ & _ & Hst & _ & _ & _ & _ & Hrc).
  pose proof (proj1 (cascade_evolves now) _ _ _ _ Hrun) as He.
  split; [now apply (revealed_start now g1)|]. split.
  - rewrite <- Hrc.
    destruct (mines g1 r c) eqn:Hm.
    + rewrite (loss_run now g1 r c g' Hrun Hh1 Hm). simpl. lia.
    + destruct (safe_reveal_shape now g1 r c g' Hrun Hh1 Hm (rd_numbers _ Hr))
        as (gx & -> & _ & _ & _ & Hlt).
      destruct (settle_fields now gx) as (_ & _ & _ & -> & _). exact Hlt.
  - intros i j Hij. apply (ev_revealed _ _ He). now rewrite Hst.
Qed.

Lemma run_command_layout fuel now cmd g g' :
  first_click g = false ->
  run_command rand_seq fuel now cmd g = Some g' ->
  mines g' = mines g /\ numbers g' = numbers g /\ first_click g' = false.
Proof.
  intros Hf.
  destruct cmd as [r c|r c| | |]; simpl; intros H;
    try (injection H as <-; auto).
  - destruct (reveal_cell_run _ _ _ _ _ _ _ H) as (g1 & Hp & Hrun).
    rewrite first_click_prepare_later in Hp by assumption.
    assert (g1 = g) by congruence; subst g1.
    pose proof (proj1 (cascade_evolves now) _ _ _ _ Hrun) as He.
    rewrite (ev_mines _ _ He), (ev_numbers _ _ He), (ev_first_click _ _ He).
    auto.
  - unfold toggle_flag.
    repeat match goal with
    | |- context [if ?b then _ else _] => destruct b
    end; auto.
Qed.

Lemma play_game_loop_layout fuel inputs :
  forall g g', first_click g = false ->
  play_game_loop rand_seq fuel inputs g = Some g' ->
  mines g' = mines g /\ numbers g' = numbers g /\ first_click g' = false.
Proof.
  induction inputs as [|[now cmd] rest IH]; intros g g' Hf; simpl.
  - intros E. injection E as <-. auto.
  - destruct (game_over g); [intros E; injection E as <-; auto|].
    assert (Hstep : match run_command rand_seq fuel now cmd g with
                    | Some g1 => play_game_loop rand_seq fuel rest g1
                    | None => None
                    end = Some g' ->
                    mines g' = mines g /\ numbers g' = numbers g
                    /\ first_click g' = false).
    { destruct (run_command rand_seq fuel now cmd g) as [g1|] eqn:Hr;
        [|discriminate].
      destruct (run_command_layout _ _ _ _ _ Hf Hr) as (Hm & Hn & Hf1).
      intros H. destruct (IH g1 g' Hf1 H) as (Hm' & Hn' & Hf').
      split; [congruence | split; [congruence | assumption]]. }
    destruct cmd; try exact Hstep.
    intros E. injection E as <-. auto.
Qed.

(** X12 (the mines stay where they are).  Once the first reveal has
    placed the mines, no line typed in [play_game_loop] moves a mine or
    changes a number: the loop returns a game with the same [mines] and
    [numbers] grids. *)
Theorem layout_fixed_after_first_click (fuel : nat)
    (lines : list (Z * list ascii)) (g : MinesweeperGame)
    (row col : Z) (action : ascii) (g' : MinesweeperGame) :
  first_click g = false ->
  play_game_loop_text rand_seq fuel lines g row col action = Some g' ->
  mines g' = mines g /\ numbers g' = numbers g.
Proof.
  intros Hf H. rewrite play_game_loop_text_commands in H.
  destruct (play_game_loop_layout _ _ _ _ Hf H) as (Hm & Hn & _). auto.
Qed.

(** X13 (the loop over lines is the loop over commands).  [play_game_loop]
    on the typed lines does what it does on the commands the lines stand
    for on the board it starts from, a refused line counting for a command
    that changes nothing. *)
Theorem play_game_loop_text_is_command_loop (fuel : nat)
    (lines : list (Z * list ascii)) (g : MinesweeperGame)
    (row col : Z) (action : ascii) :
  play_game_loop_text rand_seq fuel lines g row col action
  = play_game_loop rand_seq fuel (commands_of_lines g lines) g.
Proof. apply play_game_loop_text_commands. Qed.

(** X14 (what is typed keeps the game in a session).  Whatever lines are
    typed, the game [play_game_loop] returns from a state of a session is
    a state of a session again, so that the properties of sessions hold
    of it. *)
Theorem play_game_loop_text_in_session (fuel : nat)
    (lines : list (Z * list ascii)) (g : MinesweeperGame) (hit : bool)
    (row col : Z) (action : ascii) (g' : MinesweeperGame) :
  in_session rand_seq g hit ->
  play_game_loop_text rand_seq fuel lines g row col action = Some g' ->
  exists hit', in_session rand_seq g' hit'.
Proof.
  intros Hs H. rewrite play_game_loop_text_commands in H.
  exact (play_game_loop_in_session rand_seq fuel _ g hit g' Hs H).
Qed.

(** X15 (a reveal returns).  Once the mines are placed, [reveal_cell]
    returns on every game and every position: the nesting of its calls
    through [reveal_adjacent_cells] ends, since each nested call first
    uncovers a Hidden cell.  On the first click it returns as soon as the
    mine generation does. *)
Theorem reveal_cell_returns (fuel : nat) (now : Z) (g : MinesweeperGame)
    (r c : Z) :
  (first_click g = false ->
   exists g', reveal_cell rand_seq fuel now g r c = Some g')
  /\ (forall g0, generate_mines rand_seq now fuel g r c = Some g0 ->
      exists g', reveal_cell rand_seq fuel now g r c = Some g').
Proof.
  split.
  - intros Hf. apply (reveal_cell_total rand_seq fuel now g r c g).
    now apply first_click_prepare_later.
  - intros g0 Hg.
    assert (Hp : exists g1, first_click_prepare rand_seq fuel now g r c = Some g1).
    { unfold first_click_prepare. rewrite Hg.
      destruct (_ && _); eexists; reflexivity. }
    destruct Hp as [g1 Hp].
    now apply (reveal_cell_total rand_seq fuel now g r c g1).
Qed.

(** X16 (the loop stays inside the arrays).  In every state of a
    session, the cell a typed reveal or flag command addresses lies inside
    the [MAX_HEIGHT] by [MAX_WIDTH] arrays of the game structure. *)
Theorem commands_fit_the_arrays (g : MinesweeperGame) (hit : bool)
    (line : list ascii) (row col : Z) (action : ascii) (r c : Z) :
  in_session rand_seq g hit ->
  command_of_line g line row col action = Some (CmdR r c)
  \/ command_of_line g line row col action = Some (CmdF r c) ->
  0 <= r < MAX_HEIGHT /\ 0 <= c < MAX_WIDTH.
Proof.
  intros Hs Hc.
  destruct (session_dims_fit rand_seq g hit Hs) as [Hw Hh].
  assert (Hv : is_valid_position g r c = true).
  { destruct Hc as [Hc|Hc];
      apply command_of_line_valid in Hc; tauto. }
  apply valid_iff in Hv. lia.
Qed.

End Commands.

(** * The statistics *)

Lemma reset_round_keeps g :
  games_played (reset_round g) = games_played g
  /\ games_won (reset_round g) = games_won g.
Proof.
  unfold reset_round. cbv zeta.
  rewrite (for_each_cell_keeps clear_cell games_played) by reflexivity.
  rewrite (for_each_cell_keeps clear_cell games_won) by reflexivity.
  auto.
Qed.

Lemma setup_difficulty_keeps diff g :
  games_played (setup_difficulty diff g) = games_played g
  /\ games_won (setup_difficulty diff g) = games_won g.
Proof.
  unfold setup_difficulty.
  destruct diff;
    match goal with
    | |- context [reset_round ?h] => destruct (reset_round_keeps h) as [-> ->]
    end; auto.
Qed.

Lemma custom_difficulty_keeps g in_w in_h in_m :
  games_played (the_board (custom_difficulty g in_w in_h in_m)) = games_played g
  /\ games_won (the_board (custom_difficulty g in_w in_h in_m)) = games_won g.
Proof.
  unfold custom_difficulty.
  destruct in_w as [w|]; [|auto].
  destruct (_ || _); [auto|].
  destruct in_h as [h|]; [|auto].
  destruct (_ || _); [auto|].
  destruct in_m as [m|]; [|auto].
  destruct (_ || _); [auto|].
  cbn [the_board].
  match goal with
  | |- context [reset_round ?h] => destruct (reset_round_keeps h) as [-> ->]
  end; auto.
Qed.

Section Statistics.

Variable rand_seq : Z -> nat -> N.

Lemma play_game_loop_keeps fuel inputs :
  forall g g',
  play_game_loop rand_seq fuel inputs g = Some g' ->
  games_played g' - games_won g' = games_played g - games_won g.
Proof.
  induction inputs as [|[now cmd] rest IH]; intros g g'; simpl.
  - intros E. now injection E as <-.
  - destruct (game_over g); [intros E; now injection E as <-|].
    assert (Hstep : match run_command rand_seq fuel now cmd g with
                    | Some g1 => play_game_loop rand_seq fuel rest g1
                    | None => None
                    end = Some g' ->
                    games_played g' - games_won g'
                    = games_played g - games_won g).
    { destruct (run_command rand_seq fuel now cmd g) as [g1|] eqn:Hr;
        [|discriminate].
      destruct (run_command_keeps _ _ _ _ _ _ Hr) as (_ & Hd & _).
      intros H. rewrite (IH g1 g' H). exact Hd. }
    destruct cmd; try exact Hstep.
    intros E. now injection E as <-.
Qed.

Lemma menu_loop_keeps fuel turns :
  forall g g',
  menu_loop rand_seq fuel turns g = Some g' ->
  games_played g' - games_won g' = games_played g - games_won g.
Proof.
  induction turns as [|t rest IH]; intros g g'; cbn [menu_loop].
  - intros E. now injection E as <-.
  - destruct (turn_choice t) as [choice|]; [|apply IH].
    assert (Hplay : forall g0,
      games_played g0 = games_played g -> games_won g0 = games_won g ->
      match play_game_loop_text rand_seq fuel (turn_lines t) g0 0 0 zero with
      | Some g1 => menu_loop rand_seq fuel rest g1
      | None => None
      end = Some g' ->
      games_played g' - games_won g' = games_played g - games_won g).
    { intros g0 Hp Hw.
      destruct (play_game_loop_text rand_seq fuel (turn_lines t) g0 0 0 zero)
        as [g1|] eqn:Hl; [|discriminate].
      rewrite play_game_loop_text_commands in Hl.
      apply play_game_loop_keeps in Hl.
      intros H. rewrite (IH g1 g' H). lia. }
    assert (Hpreset : forall diff,
      match play_game_loop_text rand_seq fuel (turn_lines t)
              (setup_difficulty diff g) 0 0 zero with
      | Some g1 => menu_loop rand_seq fuel rest g1
      | None => None
      end = Some g' ->
      games_played g' - games_won g' = games_played g - games_won g).
    { intros diff. apply Hplay; apply setup_difficulty_keeps. }
    destruct (choice =? 1); [exact (Hpreset DIFFICULTY_BEGINNER)|].
    destruct (choice =? 2); [exact (Hpreset DIFFICULTY_INTERMEDIATE)|].
    destruct (choice =? 3); [exact (Hpreset DIFFICULTY_EXPERT)|].
    destruct (choice =? 4).
    { pose proof (custom_difficulty_keeps g (turn_width t) (turn_height t)
                    (turn_mines t)) as [Hp Hw].
      destruct (custom_difficulty g (turn_width t) (turn_height t)
                  (turn_mines t)) as [g0|g0]; cbn [the_board] in Hp, Hw.
      - intros H. rewrite (IH g0 g' H). lia.
      - now apply Hplay. }
    destruct (choice =? 7); [intros E; now injection E as <-|].
    apply IH.
Qed.

(** X17 (only wins are counted).  Whatever is typed at the menu and in the
    games, the statistics [play_minesweeper] keeps have [games_played]
    equal to [games_won]: a lost game and a game left with Q are not
    counted as played. *)
Theorem only_wins_are_counted (fuel : nat) (turns : list MenuTurn)
    (g' : MinesweeperGame) :
  play_minesweeper rand_seq fuel turns = Some g' ->
  games_played g' = games_won g'.
Proof.
  unfold play_minesweeper. intros H. apply menu_loop_keeps in H.
  simpl in H. lia.
Qed.

Lemma check_victory_settle now g :
  check_victory (settle now g) = check_victory g.
Proof.
  destruct (settle_fields now g) as (Hw & Hh & Hm & Hr & _).
  unfold check_victory. now rewrite Hw, Hh, Hm, Hr.
Qed.

(** A run of the cascade during which the counter reaches the number of
    safe cells has counted a win. *)
Lemma cascade_win_counted now :
  (forall g r c g', cascade_run now g r c g' ->
     numbers_ok g ->
     (hidden_at g r c = true -> mines g r c = false) ->
     check_victory g = false -> check_victory g' = true ->
     games_won g + 1 <= games_won g')
  /\ (forall g r c l g', adjacent_run now g r c l g' ->
     numbers_ok g ->
     (forall d, In d l ->
        is_valid_position g (r + fst d) (c + snd d) = true ->
        mines g (r + fst d) (c + snd d) = false) ->
     check_victory g = false -> check_victory g' = true ->
     games_won g + 1 <= games_won g').
Proof.
  apply cascade_mutind.
  - intros. congruence.
  - intros g r c Hh Hm _ Hsafe. rewrite (Hsafe Hh) in Hm. discriminate.
  - intros g r c _ _ _ _ _ _ Hv.
    rewrite check_victory_settle in Hv.
    destruct (settle_keeps now (mark_revealed g r c)) as (_ & _ & ->).
    rewrite Hv. simpl. lia.
  - intros g r c g3 _ _ _ Hadj _ _ _ _ Hv.
    rewrite check_victory_settle in Hv.
    destruct (settle_keeps now g3) as (_ & _ & ->). rewrite Hv.
    destruct (proj2 (cascade_keeps now) _ _ _ _ _ Hadj) as (_ & _ & Hle).
    simpl in Hle. lia.
  - intros. congruence.
  - intros g r c d rest g1 g2 Hrun IH1 Hadj IH2 Hok Hsafe Hv Hv2.
    pose proof (proj1 (cascade_evolves now) _ _ _ _ Hrun) as He.
    destruct (proj1 (cascade_keeps now) _ _ _ _ Hrun) as (_ & _ & Hle1).
    destruct (proj2 (cascade_keeps now) _ _ _ _ _ Hadj) as (_ & _ & Hle2).
    destruct (check_victory g1) eqn:Hv1.
    + assert (games_won g + 1 <= games_won g1); [|lia].
      apply IH1; auto.
      intros Hh. apply hidden_at_iff in Hh. apply Hsafe; [now left | tauto].
    + assert (games_won g1 + 1 <= games_won g2); [|lia].
      apply IH2; auto.
      * now apply (numbers_ok_evolves g).
      * intros d' Hin Hvd. rewrite (ev_mines _ _ He).
        rewrite (evolves_valid g g1 _ _ He) in Hvd.
        apply Hsafe; [now right | exact Hvd].
Qed.

(** X18 (a win can be counted more than once).  In a session, a reveal
    that wins the game adds exactly 1 to [games_won] when the clicked cell
    has a mine next to it; when it has none and was not the last safe cell
    but one, the win is counted at least twice: the nested call that
    uncovers the last safe cell runs [game_over_sequence], and so does
    every call it returns to. *)
Theorem winning_reveal_count (fuel : nat) (now : Z) (g : MinesweeperGame)
    (hit : bool) (r c : Z) (g' : MinesweeperGame) :
  in_session rand_seq g hit -> game_over g = false ->
  reveal_cell rand_seq fuel now g r c = Some g' ->
  spec_status g' = Won ->
  (numbers g' r c <> 0 -> games_won g' = games_won g + 1)
  /\ (numbers g' r c = 0 -> revealed_count g + 1 < non_mine_cells g ->
      games_won g + 2 <= games_won g').
Proof.
  intros Hs Ho Hrev Hwon. apply (in_session_inv rand_seq) in Hs.
  destruct (hidden_at g r c) eqn:Hh.
  2:{ rewrite (reveal_cell_skip _ _ _ _ _ _ _ Hh Hrev) in Hwon.
      now destruct (spec_status_running g Ho). }
  destruct (reveal_cell_run _ _ _ _ _ _ _ Hrev) as (g1 & Hp & Hrun).
  destruct (prepare_ready _ _ _ _ _ _ _ _ Hs Ho Hh Hp)
    as (Hr & Hh1 & _ & _ & _ & Hw & Hht & Hmc & _ & Hrc).
  destruct (first_click_prepare_keeps _ _ _ _ _ _ _ Hp) as (_ & _ & Hgw).
  pose proof (proj1 (cascade_evolves now) _ _ _ _ Hrun) as He.
  rewrite (ev_numbers _ _ He), <- Hgw.
  unfold non_mine_cells. rewrite <- Hw, <- Hht, <- Hmc, <- Hrc.
  apply spec_status_won in Hwon. destruct Hwon as [Ho' Hv'].
  pose proof (rd_running _ Hr) as Ho1.
  assert (Hsettled : forall gx, g' = settle now gx -> game_over gx = false ->
            check_victory gx = true /\ games_won g' = games_won gx + 1).
  { intros gx -> Hox.
    destruct (settle_keeps now gx) as (_ & _ & ->).
    unfold settle in Ho'. destruct (check_victory gx); [split; [reflexivity | lia]|].
    congruence. }
  inversion Hrun; subst.
  - congruence.
  - simpl in Hv'. discriminate.
  - destruct (Hsettled (mark_revealed g1 r c) eq_refl Ho1) as [_ Hg].
    split; [intros _; exact Hg | intros; contradiction].
  - match goal with
    | Hadj : adjacent_run _ _ _ _ _ ?gx |- _ =>
        rename Hadj into Hadj'; rename gx into g3
    end.
    pose proof (proj2 (cascade_evolves now) _ _ _ _ _ Hadj') as He3.
    pose proof (proj2 (cascade_keeps now) _ _ _ _ _ Hadj') as (_ & _ & Hle).
    assert (Ho3 : game_over g3 = false \/ game_over g3 = true)
      by (destruct (game_over g3); auto).
    split; [intros; contradiction|].
    intros _ Hroom.
    assert (Hv3 : check_victory g3 = true).
    { destruct (settle_fields now g3) as (Ew & Eh & Em & Er & _).
      destruct (inv_won _ _ (proj1 (ready_reveal now g1 r c _ Hr Hh1 Hrun)) Ho' Hv')
        as (_ & Hfull & _).
      unfold non_mine_cells in Hfull. unfold check_victory.
      apply Z.eqb_eq. lia. }
    destruct (settle_keeps now g3) as (_ & _ & ->). rewrite Hv3.
    assert (games_won (mark_revealed g1 r c) + 1 <= games_won g3).
    { apply (proj2 (cascade_win_counted now) _ _ _ _ _ Hadj'); auto.
      - apply (numbers_ok_evolves g1); [now apply evolves_mark|].
        apply (rd_numbers _ Hr).
      - apply hidden_at_iff in Hh1. destruct Hh1 as [Hv1 _].
        change (mines (mark_revealed g1 r c)) with (mines g1).
        change (is_valid_position (mark_revealed g1 r c))
          with (is_valid_position g1).
        apply (count_adjacent_mines_zero g1 r c).
        rewrite <- (rd_numbers _ Hr); auto.
      - unfold check_victory. simpl. apply Z.eqb_neq. lia. }
    simpl in *. lia.
Qed.

End Statistics.

(** * Flags *)

Lemma same_game_refl g : same_game g g.
Proof. unfold same_game. auto 15. Qed.

(** X19 (a flag can be taken back).  On a game with no more flags than
    mines, as in every state of a session, two [toggle_flag] calls on the
    same position give back the game they started from, whatever the
    position and the state of the cell. *)
Theorem toggle_flag_twice (g : MinesweeperGame) (r c : Z) :
  flags_placed g <= mine_count g ->
  same_game g (toggle_flag (toggle_flag g r c) r c).
Proof.
  intros Hle. unfold toggle_flag at 2.
  destruct (negb (is_valid_position g r c)
            || CellState_eqb (state g r c) CELL_REVEALED) eqn:Hguard.
  { unfold toggle_flag. rewrite Hguard. apply same_game_refl. }
  destruct (CellState_eqb (state g r c) CELL_FLAGGED) eqn:Hf.
  - unfold toggle_flag.
    match goal with
    | |- context [is_valid_position ?h r c] =>
        change (is_valid_position h r c) with (is_valid_position g r c)
    end.
    cbn [state flags_placed mine_count set_flags_placed set_state].
    rewrite grid_set_same. cbn [CellState_eqb].
    apply orb_false_iff in Hguard. destruct Hguard as [Hv _].
    rewrite Hv. cbn [orb].
    replace (flags_placed g - 1 <? mine_count g) with true
      by (symmetry; apply Z.ltb_lt; lia).
    apply CellState_eqb_eq in Hf.
    unfold same_game, scalars. simpl.
    replace (flags_placed g - 1 + 1) with (flags_placed g) by lia.
    repeat (split; [reflexivity|]).
    intros i j. destruct (cell_cases i j r c) as [[-> ->]|Hne].
    + now rewrite grid_set_same.
    + now rewrite !grid_set_other.
  - destruct (flags_placed g <? mine_count g) eqn:Hlt.
    + unfold toggle_flag.
      match goal with
      | |- context [is_valid_position ?h r c] =>
          change (is_valid_position h r c) with (is_valid_position g r c)
      end.
      cbn [state flags_placed mine_count set_flags_placed set_state].
      rewrite grid_set_same. cbn [CellState_eqb].
      apply orb_false_iff in Hguard. destruct Hguard as [Hv Hr].
      rewrite Hv. cbn [orb].
      unfold same_game, scalars. simpl.
      replace (flags_placed g + 1 - 1) with (flags_placed g) by lia.
      repeat (split; [reflexivity|]).
      intros i j. destruct (cell_cases i j r c) as [[-> ->]|Hne].
      * rewrite grid_set_same.
        destruct (state g r c); try discriminate; reflexivity.
      * now rewrite !grid_set_other.
    + unfold toggle_flag. rewrite Hguard, Hf, Hlt. apply same_game_refl.
Qed.

(** * The mine generation and the cell states *)

Lemma generate_loop_state (rand_seq : Z -> nat -> N) seed sr sc st :
  forall fuel k g placed,
  generate_loop rand_seq seed fuel k (set_state st g) placed sr sc
  = option_map (set_state st)
      (generate_loop rand_seq seed fuel k g placed sr sc).
Proof.
  induction fuel as [|fuel IH]; intros k g placed;
    cbn [generate_loop mine_count height width mines set_state].
  - destruct (placed <? mine_count g); reflexivity.
  - destruct (placed <? mine_count g); [|reflexivity].
    match goal with
    | |- context [if ?b then _ else _] => destruct b
    end.
    + apply IH.
    + rewrite <- IH. reflexivity.
Qed.

Lemma calculate_numbers_set_state st g :
  calculate_numbers (set_state st g) = set_state st (calculate_numbers g).
Proof.
  unfold calculate_numbers, for_each_cell.
  change (cells (set_state st g)) with (cells g).
  generalize (cells g). intros l. revert g.
  induction l as [|[i j] l IH]; intros g; [reflexivity|].
  cbn [fold_left fst snd].
  assert (Hb : numbers_body i j (set_state st g)
               = set_state st (numbers_body i j g)).
  { unfold numbers_body. cbn [mines set_state].
    destruct (negb (mines g i j)); reflexivity. }
  rewrite Hb. apply IH.
Qed.

(** X20 (flags do not steer the mines).  [generate_mines] neither reads
    nor writes the cell states: on two games that differ only in their
    state grid it fails together or places the same mines and numbers, and
    leaves each state grid as it was.  A flag placed before the first
    reveal therefore does not keep a mine off its cell. *)
Theorem generate_mines_ignores_states (rand_seq : Z -> nat -> N) (now : Z)
    (fuel : nat) (g : MinesweeperGame) (st : grid CellState) (r c : Z) :
  generate_mines rand_seq now fuel (set_state st g) r c
  = option_map (set_state st) (generate_mines rand_seq now fuel g r c).
Proof.
  unfold generate_mines. rewrite generate_loop_state.
  destruct (generate_loop rand_seq now fuel 0 g 0 r c) as [g0|];
    [|reflexivity].
  cbn [option_map]. now rewrite calculate_numbers_set_state.
Qed.

(** * The properties on the examples *)

Lemma lost_game_typed_run :
  play_minesweeper sample_rand 100 lost_game_turns = Some lost_game_typed.
Proof. apply the_game_some. vm_compute. reflexivity. Qed.

Lemma two_mines_typed_run :
  play_game_loop_text sample_rand 100
    [(3, ["r"; " "; "c"; "4"; "010"]%char)] two_mines_open 0 0 zero
  = Some two_mines_lost.
Proof. vm_compute. reflexivity. Qed.

Lemma commands_fit_the_arrays_witness :
  0 <= 3 < MAX_HEIGHT /\ 0 <= 2 < MAX_WIDTH.
Proof.
  apply (commands_fit_the_arrays sample_rand two_mines_open false
           ["r"; " "; "c"; "4"; "010"]%char 0 0 zero 3 2).
  - exact two_mines_open_session.
  - left. vm_compute. reflexivity.
Defined.

Lemma command_of_line_in_bounds_witness :
  is_valid_position (board_5x5 1) 0 0 = true
  /\ (3 <= length (until_newline ["r"; "a"; "1"; "010"]%char))%nat.
Proof.
  apply (command_of_line_in_bounds (board_5x5 1) ["r"; "a"; "1"; "010"]%char
           0 0 zero (CmdR 0 0)).
  vm_compute. reflexivity.
Defined.

Lemma command_of_labels_witness :
  command_of_line (board_5x5 1)
    ("R"%char :: (if true then [" "%char] else [])
       ++ col_label 3 :: row_label 2 ++ ["010"%char]) 0 0 zero
  = command_of_action "R" 2 3.
Proof.
  apply (command_of_labels (board_5x5 1) "R" 2 3 true 0 0 zero).
  - left. reflexivity.
  - vm_compute. discriminate.
  - vm_compute. discriminate.
  - vm_compute. reflexivity.
Defined.

Lemma play_game_loop_text_in_session_witness :
  exists hit', in_session sample_rand two_mines_lost hit'.
Proof.
  apply (play_game_loop_text_in_session sample_rand 100
           [(3, ["r"; " "; "c"; "4"; "010"]%char)] two_mines_open false
           0 0 zero two_mines_lost).
  - exact two_mines_open_session.
  - exact two_mines_typed_run.
Defined.

Lemma display_shows_the_board_witness :
  get_cell_display two_mines_lost 3 2
  = match state two_mines_lost 3 2 with
    | CELL_FLAGGED => 70
    | CELL_HIDDEN => 46
    | CELL_REVEALED =>
        if mines two_mines_lost 3 2 then 42
        else if mines_around two_mines_lost 3 2 =? 0 then 32
        else 48 + mines_around two_mines_lost 3 2
    end
  /\ (state two_mines_lost 3 2 = CELL_REVEALED ->
      mines two_mines_lost 3 2 = false ->
      0 <= mines_around two_mines_lost 3 2 <= 8)
  /\ (game_over two_mines_lost = false ->
      get_cell_display two_mines_lost 3 2 <> 42).
Proof.
  apply (display_shows_the_board sample_rand two_mines_lost true 3 2).
  - exact two_mines_lost_session.
  - vm_compute. reflexivity.
Defined.

Lemma mines_shown_by_status_witness :
  shown two_mines_lost 42
  = match spec_status two_mines_lost with
    | Won => mine_count two_mines_lost
    | Lost => 1
    | _ => 0
    end.
Proof.
  apply (mines_shown_by_status sample_rand two_mines_lost true).
  exact two_mines_lost_session.
Defined.

Lemma flag_counters_match_grid_witness :
  (spec_status flagged_board <> Won ->
     display_flags flagged_board = shown flagged_board 70
     /\ display_remaining flagged_board
        = mine_count flagged_board - shown flagged_board 70
     /\ 0 <= display_remaining flagged_board)
  /\ (spec_status flagged_board = Won -> shown flagged_board 70 = 0).
Proof.
  apply (flag_counters_match_grid sample_rand flagged_board false).
  exact flagged_board_session.
Defined.

Lemma revealed_count_counts_cells_witness :
  revealed_cells won_game
  = revealed_count won_game
    + match spec_status won_game with Won => mine_count won_game | _ => 0 end.
Proof.
  apply (revealed_count_counts_cells sample_rand won_game false).
  exact won_game_session.
Defined.

Lemma won_iff_safe_cells_revealed_witness :
  (spec_status won_game = Won <->
   forall i j, is_valid_position won_game i j = true ->
               mines won_game i j = false ->
               state won_game i j = CELL_REVEALED)
  /\ (spec_status won_game = Won ->
      forall i j, is_valid_position won_game i j = true ->
                  state won_game i j = CELL_REVEALED).
Proof.
  apply (won_iff_safe_cells_revealed sample_rand won_game false).
  exact won_game_session.
Defined.

Lemma reveal_makes_progress_witness :
  state two_mines_lost 3 2 = CELL_REVEALED
  /\ revealed_count two_mines_open < revealed_count two_mines_lost
  /\ (forall i j, state two_mines_open i j = CELL_REVEALED ->
                  state two_mines_lost i j = CELL_REVEALED).
Proof.
  apply (reveal_makes_progress sample_rand 100 3 two_mines_open false 3 2
           two_mines_lost).
  - exact two_mines_open_session.
  - vm_compute. reflexivity.
  - vm_compute. reflexivity.
  - exact two_mines_lost_run.
Defined.

Lemma layout_fixed_after_first_click_witness :
  mines two_mines_lost = mines two_mines_open
  /\ numbers two_mines_lost = numbers two_mines_open.
Proof.
  apply (layout_fixed_after_first_click sample_rand 100
           [(3, ["r"; " "; "c"; "4"; "010"]%char)] two_mines_open 0 0 zero
           two_mines_lost).
  - vm_compute. reflexivity.
  - exact two_mines_typed_run.
Defined.

Lemma only_wins_are_counted_witness :
  games_played lost_game_typed = games_won lost_game_typed.
Proof.
  apply (only_wins_are_counted sample_rand 100 lost_game_turns lost_game_typed).
  exact lost_game_typed_run.
Defined.

Lemma winning_reveal_count_witness :
  (numbers won_game 0 0 <> 0 ->
   games_won won_game = games_won (board_5x5 1) + 1)
  /\ (numbers won_game 0 0 = 0 ->
      revealed_count (board_5x5 1) + 1 < non_mine_cells (board_5x5 1) ->
      games_won (board_5x5 1) + 2 <= games_won won_game).
Proof.
  apply (winning_reveal_count sample_rand 100 8 (board_5x5 1) false 0 0 won_game).
  - apply board_5x5_session. lia.
  - vm_compute. reflexivity.
  - exact won_game_run.
  - vm_compute. reflexivity.
Defined.

Lemma toggle_flag_twice_witness :
  same_game flagged_board (toggle_flag (toggle_flag flagged_board 4 4) 4 4).
Proof.
  apply (toggle_flag_twice flagged_board 4 4).
  vm_compute. discriminate.
Defined.

(** The game won by its first reveal, at (0, 0) where no mine is around:
    the one win is counted twenty times. *)
Lemma won_game_statistics :
  numbers won_game 0 0 = 0
  /\ games_won (board_5x5 1) = 0
  /\ games_won won_game = 20 /\ games_played won_game = 20.
Proof.
  split; [vm_compute; reflexivity|]. split; [vm_compute; reflexivity|].
  split; vm_compute; reflexivity.
Qed.

(** The game lost as typed at the menu is not counted. *)
Lemma lost_game_typed_statistics :
  spec_status lost_game_typed = Lost
  /\ games_played lost_game_typed = 0 /\ games_won lost_game_typed = 0.
Proof.
  split; [vm_compute; reflexivity|]. split; vm_compute; reflexivity.
Qed.

(** The game won with a flag on its mine: the header still counts one
    flag, and the grid shows none. *)
Lemma won_flagged_header :
  spec_status won_flagged = Won
  /\ display_flags won_flagged = 1 /\ shown won_flagged 70 = 0.
Proof.
  split; [vm_compute; reflexivity|]. split; vm_compute; reflexivity.
Qed.

(** * The mine layout and the seed *)

Lemma calculate_numbers_cell g i j :
  is_valid_position g i j = true ->
  numbers (calculate_numbers g) i j
  = if mines g i j then numbers g i j else count_adjacent_mines g i j.
Proof.
  intros Hv. destruct (mines g i j) eqn:Hm; [|now apply calculate_numbers_at].
  unfold calculate_numbers.
  rewrite (for_each_cell_at numbers_body numbers
             (fun g i j => if negb (mines g i j)
                           then count_adjacent_mines g i j else numbers g i j)).
  - now rewrite Hv, Hm.
  - intros a b g0 i' j' Hne. unfold numbers_body.
    destruct (negb (mines g0 a b)); gsimpl; auto. now grid_cases.
  - intros a b g0. unfold numbers_body.
    destruct (negb (mines g0 a b)); gsimpl; auto. now grid_cases.
  - intros a b g0 i' j'. unfold numbers_body.
    destruct (negb (mines g0 a b)) eqn:Hab; auto.
    change (mines (set_numbers _ g0) i' j') with (mines g0 i' j').
    destruct (negb (mines g0 i' j')) eqn:Hm'.
    + apply count_adjacent_mines_ext; [split; reflexivity | reflexivity].
    + gsimpl. unfold grid_set.
      destruct ((i' =? a) && (j' =? b)) eqn:He; auto.
      apply andb_true_iff in He. destruct He as [He1 He2].
      apply Z.eqb_eq in He1, He2. subst. congruence.
Qed.

Lemma count_adjacent_mines_board g1 g2 r c :
  width g2 = width g1 -> height g2 = height g1 ->
  (forall i j, is_valid_position g1 i j = true -> mines g2 i j = mines g1 i j) ->
  count_adjacent_mines g2 r c = count_adjacent_mines g1 r c.
Proof.
  intros Hw Hh Hm. rewrite !count_adjacent_mines_around. unfold mines_around.
  rewrite (count_same g1 g2) by (split; assumption).
  apply count_ext. intros i j Hv. now rewrite (Hm i j Hv).
Qed.

Section Layout.

Variables rand1 rand2 : Z -> nat -> N.
Variables now1 now2 : Z.
Hypothesis same_draws : forall k, rand1 now1 k = rand2 now2 k.

Lemma generate_loop_same sr sc :
  forall fuel k g1 g2 placed,
  0 < width g1 -> 0 < height g1 ->
  width g2 = width g1 -> height g2 = height g1 ->
  mine_count g2 = mine_count g1 ->
  (forall i j, is_valid_position g1 i j = true -> mines g2 i j = mines g1 i j) ->
  match generate_loop rand1 now1 fuel k g1 placed sr sc,
        generate_loop rand2 now2 fuel k g2 placed sr sc with
  | Some a, Some b =>
      forall i j, is_valid_position g1 i j = true -> mines b i j = mines a i j
  | None, None => True
  | _, _ => False
  end.
Proof.
  induction fuel as [|fuel IH]; intros k g1 g2 placed Hw0 Hh0 Hw Hh Hmc Hm;
    cbn [generate_loop]; rewrite Hmc;
    destruct (placed <? mine_count g1); try exact I; try exact Hm.
  rewrite Hw, Hh, <- !same_draws.
  set (row := Z.rem (Z.of_N (rand1 now1 (2 * k))) (height g1)).
  set (col := Z.rem (Z.of_N (rand1 now1 (2 * k + 1))) (width g1)).
  assert (Hv : is_valid_position g1 row col = true).
  { apply valid_iff. split; apply Z.rem_bound_pos; lia. }
  rewrite (Hm row col Hv).
  destruct (((row =? sr) && (col =? sc)) || mines g1 row col).
  - now apply IH.
  - refine (IH (S k) (set_mines (grid_set (mines g1) row col true) g1)
                (set_mines (grid_set (mines g2) row col true) g2)
                (placed + 1) Hw0 Hh0 Hw Hh Hmc _).
    intros i j Hij. simpl.
    destruct (cell_cases i j row col) as [[-> ->]|Hne].
    + now rewrite !grid_set_same.
    + rewrite !grid_set_other by assumption. now apply Hm.
Qed.

Lemma generate_mines_same fuel g1 g2 sr sc :
  0 < width g1 -> 0 < height g1 ->
  width g2 = width g1 -> height g2 = height g1 ->
  mine_count g2 = mine_count g1 ->
  (forall i j, is_valid_position g1 i j = true ->
     mines g2 i j = mines g1 i j /\ numbers g2 i j = numbers g1 i j) ->
  match generate_mines rand1 now1 fuel g1 sr sc,
        generate_mines rand2 now2 fuel g2 sr sc with
  | Some a, Some b => same_layout a b
  | None, None => True
  | _, _ => False
  end.
Proof.
  intros Hw0 Hh0 Hw Hh Hmc Hmn.
  pose proof (generate_loop_same sr sc fuel 0%nat g1 g2 0 Hw0 Hh0 Hw Hh Hmc
                (fun i j Hv => proj1 (Hmn i j Hv))) as Hloop.
  unfold generate_mines.
  destruct (generate_loop rand1 now1 fuel 0 g1 0 sr sc) as [a|] eqn:Ha;
    destruct (generate_loop rand2 now2 fuel 0 g2 0 sr sc) as [b|] eqn:Hb;
    try contradiction; [|exact I].
  destruct (generate_loop_shape _ _ _ _ _ _ _ _ _ Ha) as [ma Ea].
  destruct (generate_loop_shape _ _ _ _ _ _ _ _ _ Hb) as [mb Eb].
  assert (Hwa : width a = width g1) by (rewrite Ea; reflexivity).
  assert (Hha : height a = height g1) by (rewrite Ea; reflexivity).
  assert (Hwb : width b = width g1) by (rewrite Eb; simpl; exact Hw).
  assert (Hhb : height b = height g1) by (rewrite Eb; simpl; exact Hh).
  assert (Hna : numbers a = numbers g1) by (rewrite Ea; reflexivity).
  assert (Hnb : numbers b = numbers g2) by (rewrite Eb; reflexivity).
  pose proof (calculate_numbers_scalars a) as Hsa. apply scalars_inv in Hsa.
  pose proof (calculate_numbers_scalars b) as Hsb. apply scalars_inv in Hsb.
  destruct Hsa as (Hsa1 & Hsa2 & _). destruct Hsb as (Hsb1 & Hsb2 & _).
  split; [congruence|]. split; [congruence|].
  intros i j Hv.
  assert (Hv1 : is_valid_position g1 i j = true).
  { rewrite <- Hv. unfold is_valid_position. now rewrite Hsa1, Hsa2, Hwa, Hha. }
  assert (Hva : is_valid_position a i j = true).
  { rewrite <- Hv1. unfold is_valid_position. now rewrite Hwa, Hha. }
  assert (Hvb : is_valid_position b i j = true).
  { rewrite <- Hv1. unfold is_valid_position. now rewrite Hwb, Hhb. }
  rewrite !calculate_numbers_mines.
  split; [now apply Hloop|].
  rewrite (calculate_numbers_cell a i j Hva), (calculate_numbers_cell b i j Hvb).
  rewrite (Hloop i j Hv1).
  destruct (mines a i j).
  - rewrite Hna, Hnb. now apply Hmn.
  - apply count_adjacent_mines_board; try congruence.
    intros i' j' Hv'. apply Hloop.
    rewrite <- Hv'. unfold is_valid_position. now rewrite Hwa, Hha.
Qed.

End Layout.

Section Seed.

Variable rand_seq : Z -> nat -> N.

Lemma reset_round_numbers h i j :
  is_valid_position (reset_round h) i j = true ->
  numbers (reset_round h) i j = 0.
Proof.
  intros Hvh.
  pose proof (reset_round_scalars h) as Hsc. unfold scalars in Hsc.
  injection Hsc as Ew Eh _ _ _ _ _ _.
  apply reset_round_cleared.
  rewrite <- Hvh. unfold is_valid_position. now rewrite Ew, Eh.
Qed.

Lemma configured_numbers g i j :
  configured g -> is_valid_position g i j = true -> numbers g i j = 0.
Proof.
  intros [g0 diff Hd | g0 in_w in_h in_m g1 Hc].
  - unfold setup_difficulty. apply reset_round_numbers.
  - apply custom_difficulty_play in Hc.
    destruct Hc as (w & h & m & _ & _ & _ & _ & _ & _ & ->).
    apply reset_round_numbers.
Qed.

Lemma toggle_flag_numbers g r c :
  first_click (toggle_flag g r c) = first_click g
  /\ numbers (toggle_flag g r c) = numbers g
  /\ is_valid_position (toggle_flag g r c) = is_valid_position g.
Proof.
  unfold toggle_flag.
  repeat match goal with
  | |- context [if ?b then _ else _] => destruct b
  end; auto.
Qed.

(** Until the first reveal the numbers of the board are the zeros
    [reset_round] has written. *)
Lemma session_fresh_numbers g hit :
  in_session rand_seq g hit -> first_click g = true ->
  forall i j, is_valid_position g i j = true -> numbers g i j = 0.
Proof.
  induction 1 as [g Hc | g hit fuel now cmd g' Hs IH Ho Hrun].
  - intros _ i j Hv. now apply configured_numbers.
  - pose proof (in_session_inv rand_seq g hit Hs) as Hinv.
    destruct cmd as [r c|r c| | |]; cbn [run_command] in Hrun.
    + destruct (hidden_at g r c) eqn:Hh.
      * intros Hf'.
        destruct (reveal_cell_run _ _ _ _ _ _ _ Hrun) as (g1 & Hp & Hcas).
        destruct (prepare_ready _ _ _ _ _ _ _ _ Hinv Ho Hh Hp) as (Hr & _).
        pose proof (proj1 (cascade_evolves now) _ _ _ _ Hcas) as He.
        rewrite (ev_first_click _ _ He), (rd_first _ Hr) in Hf'.
        discriminate.
      * now rewrite (reveal_cell_skip _ _ _ _ _ _ _ Hh Hrun).
    + assert (g' = toggle_flag g r c) by congruence. subst g'.
      destruct (toggle_flag_numbers g r c) as (-> & -> & ->). exact IH.
    + assert (g' = g) by congruence. subst g'. exact IH.
    + assert (g' = g) by congruence. subst g'. exact IH.
    + assert (g' = g) by congruence. subst g'. exact IH.
Qed.

End Seed.

Lemma same_layout_evolves a b a' b' :
  same_layout a b -> evolves a a' -> evolves b b' -> same_layout a' b'.
Proof.
  intros (Hw & Hh & Hc) Ha Hb.
  split; [rewrite (ev_width _ _ Ha), (ev_width _ _ Hb); exact Hw|].
  split; [rewrite (ev_height _ _ Ha), (ev_height _ _ Hb); exact Hh|].
  intros i j Hv. rewrite (evolves_valid a a' i j Ha) in Hv.
  rewrite (ev_mines _ _ Ha), (ev_mines _ _ Hb).
  rewrite (ev_numbers _ _ Ha), (ev_numbers _ _ Hb).
  now apply Hc.
Qed.

Lemma first_click_prepare_first rand_seq fuel now g r c :
  hidden_at g r c = true -> first_click g = true ->
  first_click_prepare rand_seq fuel now g r c
  = match generate_mines rand_seq now fuel g r c with
    | Some g1 => Some (set_first_click false (set_start_time now g1))
    | None => None
    end.
Proof.
  intros Hh Hf. unfold first_click_prepare.
  unfold hidden_at in Hh. now rewrite Hh, Hf.
Qed.

Lemma play_game_loop_dims rand_seq fuel inputs :
  forall g g',
  play_game_loop rand_seq fuel inputs g = Some g' ->
  width g' = width g /\ height g' = height g.
Proof.
  induction inputs as [|[now cmd] rest IH]; intros g g'; cbn [play_game_loop].
  - intros E. injection E as <-. auto.
  - destruct (game_over g); [intros E; injection E as <-; auto|].
    assert (Hstep : match run_command rand_seq fuel now cmd g with
                    | Some g1 => play_game_loop rand_seq fuel rest g1
                    | None => None
                    end = Some g' ->
                    width g' = width g /\ height g' = height g).
    { destruct (run_command rand_seq fuel now cmd g) as [g1|] eqn:Hr;
        [|discriminate].
      destruct (run_command_dims _ _ _ _ _ _ Hr) as [Hw Hh].
      intros H. destruct (IH g1 g' H) as [Hw' Hh']. split; congruence. }
    destruct cmd; try exact Hstep.
    intros E. injection E as <-. auto.
Qed.

Lemma same_layout_played rand1 rand2 fuel1 fuel2 inputs1 inputs2 a b a' b' :
  same_layout a b -> first_click a = false -> first_click b = false ->
  play_game_loop rand1 fuel1 inputs1 a = Some a' ->
  play_game_loop rand2 fuel2 inputs2 b = Some b' ->
  same_layout a' b'.
Proof.
  intros (Hw & Hh & Hc) Hfa Hfb Ha Hb.
  destruct (play_game_loop_dims _ _ _ _ _ Ha) as [Hwa Hha].
  destruct (play_game_loop_dims _ _ _ _ _ Hb) as [Hwb Hhb].
  destruct (play_game_loop_layout _ _ _ _ _ Hfa Ha) as (Hma & Hna & _).
  destruct (play_game_loop_layout _ _ _ _ _ Hfb Hb) as (Hmb & Hnb & _).
  split; [congruence|]. split; [congruence|].
  intros i j Hv. rewrite Hma, Hna, Hmb, Hnb. apply Hc.
  rewrite <- Hv. unfold is_valid_position. now rewrite Hwa, Hha.
Qed.


(** ** The layout property on the examples *)

(** [srand] takes an [unsigned int]: the clock readings 8 and 8 + 2^32
    give the same seed, hence the same draws. *)
Lemma sample_rand_wraps (k : nat) :
  sample_rand 8 k = sample_rand (8 + 4294967296) k.
Proof. unfold sample_rand. reflexivity. Qed.

(** The first values of [rand()] after [srand(1)], [srand(0)],
    [srand(4294967295)] and [srand(11)] in the GNU C library, and after
    [srand(11)] with the sample generator of the C standard; modulo 9 the
    draws for the seed 11 are the cells (5, 5) and (6, 3). *)
Lemma generator_draws :
  map (glibc_rand 1) [0; 1; 2; 3]%nat
  = [1804289383; 846930886; 1681692777; 1714636915]%N
  /\ map (glibc_rand 0) [0; 1]%nat = [1804289383; 846930886]%N
  /\ map (glibc_rand 4294967295) [0; 1]%nat = [254925627; 1205188300]%N
  /\ map (glibc_rand 11) [0; 1]%nat = [1989311423; 1130649494]%N
  /\ map (sample_rand 11) [0; 1]%nat = [21381; 12504]%N.
Proof.
  split; [vm_compute; reflexivity|]. split; [vm_compute; reflexivity|].
  split; [vm_compute; reflexivity|]. split; vm_compute; reflexivity.
Qed.

Lemma board_9x9_configured : configured board_9x9.
Proof.
  apply (configured_custom init_minesweeper (Some 9) (Some 9) (Some 1)).
  assert (H : custom_difficulty init_minesweeper (Some 9) (Some 9) (Some 1)
              = Play (reset_round (set_mine_count 1 (set_height 9
                        (set_width 9 init_minesweeper))))).
  { apply custom_difficulty_play. exists 9, 9, 1.
    unfold MIN_WIDTH, MAX_WIDTH, MIN_HEIGHT, MAX_HEIGHT.
    change (Z.quot (9 * 9) 4) with 20.
    split; [reflexivity|]. split; [reflexivity|]. split; [reflexivity|].
    split; [lia|]. split; [lia|]. split; [lia|]. reflexivity. }
  unfold board_9x9. rewrite H. cbn [the_board]. reflexivity.
Qed.

Lemma timed_win_run (second : Z) :
  second = 2 \/ second = 12 ->
  play_game_loop sample_rand 100 (timed_calls second) board_9x9
  = Some (timed_win sample_rand second)
  /\ play_game_loop glibc_rand 100 (timed_calls second) board_9x9
     = Some (timed_win glibc_rand second).
Proof.
  intros [-> | ->]; split; apply the_game_some; vm_compute; reflexivity.
Qed.


(** ** Where the code departs from the specification *)

